(** * SchemaInfo: alias and mutability analysis of one operator call

    A shallow embedding of [torch/csrc/utils/schema_info.cpp].  The class
    [SchemaInfo] wraps a [c10::FunctionSchema] together with the argument
    values known at a call site and answers [is_mutable], [may_alias],
    [may_contain_alias] and [is_nondeterministic].

    The member functions mutate the object; here every member function is a
    computation in a state-and-failure monad over the record [SchemaInfo].
    [TORCH_INTERNAL_ASSERT] is the only source of failure.  Indices are
    [size_t] in the source; they are bounded by the length of a list, so
    they are natural numbers here.  An [unordered_set] is a [gset], the
    [unordered_map] of bound values a [gmap], and a vector of sets a list
    of sets. *)

From stdpp Require Import base decidable option list gmap sets strings.
From Stdlib Require Import Lia.

Set Warnings "-clear-no-such-hyp".

Local Open Scope string_scope.
Local Open Scope nat_scope.

(** ** The schema model (c10) *)

(** The types that the signatures of this file mention: [Tensor], [bool],
    [float], [int], [T?] and [T[]]. *)
Inductive TypePtr : Type :=
  | TensorType
  | BoolType
  | FloatType
  | IntType
  | OptionalType (elem : TypePtr)
  | ListType (elem : TypePtr).

#[global] Instance TypePtr_eq_dec : EqDecision TypePtr.
Proof. solve_decision. Defined.

(** [at::Symbol], as used for alias-set names. *)
Definition Symbol : Type := string.

(** The alias annotation of one argument: [Tensor(a!)] has the name [a] in
    its after-set and is a write; [Tensor( * )] is wildcard-after. *)
Record AliasInfo : Type := mkAliasInfo {
  isWrite : bool;
  afterSets : gset string;
  isWildcardAfter : bool
}.

#[global] Instance AliasInfo_eq_dec : EqDecision AliasInfo.
Proof. solve_decision. Defined.

Record Argument : Type := mkArgument {
  arg_name : string;
  arg_type : TypePtr;
  alias_info : option AliasInfo;
  kwarg_only : bool
}.

#[global] Instance Argument_eq_dec : EqDecision Argument.
Proof. solve_decision. Defined.

Record FunctionSchema : Type := mkFunctionSchema {
  name : string;
  overload_name : string;
  arguments : list Argument;
  returns : list Argument
}.

(** [operator==] on schemas is structural equality. *)
#[global] Instance FunctionSchema_eq_dec : EqDecision FunctionSchema.
Proof. solve_decision. Defined.

Inductive SchemaArgType : Type := input | output.

#[global] Instance SchemaArgType_eq_dec : EqDecision SchemaArgType.
Proof. solve_decision. Defined.

(** [c10::SchemaArgument]: a role and an index into the list of that role. *)
Record SchemaArgument : Type := mkSchemaArgument {
  type : SchemaArgType;
  index : nat
}.

#[global] Instance SchemaArgument_eq_dec : EqDecision SchemaArgument.
Proof. solve_decision. Defined.

#[global] Instance SchemaArgument_countable : Countable SchemaArgument.
Proof.
  refine (inj_countable'
    (λ a, (bool_decide (type a = input), index a))
    (λ p, mkSchemaArgument (if p.1 then input else output) p.2) _).
  intros [[] i]; reflexivity.
Defined.

Definition getCorrectList (schema : FunctionSchema) (t : SchemaArgType)
  : list Argument :=
  match t with
  | input => arguments schema
  | output => returns schema
  end.

(** Modelled from the spec: [FunctionSchema::argumentIndexWithName] is not in
    this file; it is the name-to-index lookup over the argument list, giving
    the first index that carries the name. *)
Fixpoint argumentIndexWithName_from (l : list Argument) (n : string) (i : nat)
  : option nat :=
  match l with
  | [] => None
  | a :: l' =>
      if bool_decide (arg_name a = n) then Some i
      else argumentIndexWithName_from l' n (S i)
  end.

Definition argumentIndexWithName (schema : FunctionSchema) (n : string)
  : option nat :=
  argumentIndexWithName_from (arguments schema) n 0.

(** A validity predicate for references: the index is within the list of
    its role. *)
Definition valid_ref (schema : FunctionSchema) (a : SchemaArgument) : Prop :=
  (index a < length (getCorrectList schema (type a)))%nat.

(** ** External collaborators

    The functions below belong to [c10::FunctionSchema], [c10::IValue] and the
    dispatcher.  They are not part of this file, so the development is
    parametric in them. *)
Class SchemaServices : Type := {
  (** the alias-relevant types of a type, [None] if it never aliases *)
  AliasTypeSet : Type;
  mapTypeToAliasTypeSet : TypePtr → option AliasTypeSet;
  canAliasTypeSetsAlias :
    option AliasTypeSet → option AliasTypeSet → bool;
  getAliasTypeSetContainedTypes : option AliasTypeSet → option AliasTypeSet;
  aliasTypeSet_size : AliasTypeSet → nat;
  (** what the static schema declares: [FunctionSchema::may_alias],
      [FunctionSchema::may_contain_alias], [FunctionSchema::is_mutable] *)
  schema_may_alias :
    FunctionSchema → SchemaArgument → SchemaArgument → bool;
  schema_may_contain_alias :
    FunctionSchema → SchemaArgument → SchemaArgument → bool;
  schema_is_mutable : FunctionSchema → SchemaArgument → bool;
  (** bound values: [a.isAliasOf(b)], membership of [b] in the sub-values
      collected by [a.getSubValues], and [a.toBool()] *)
  IValue : Type;
  isAliasOf : IValue → IValue → bool;
  subValuesCount : IValue → IValue → bool;
  toBool : IValue → bool;
  (** the dispatcher: [findOp] by name and overload name, and
      [hasTag(at::Tag::nondeterministic_seeded)] *)
  OperatorHandle : Type;
  findOp : string → string → option OperatorHandle;
  hasTag_nondeterministic_seeded : OperatorHandle → bool
}.

(** ** The analysis state *)

Record SchemaInfo `{SchemaServices} : Type := mkSchemaInfoState {
  schema_ : FunctionSchema;
  alias_maps_current_ : bool;
  value_map_ : gmap string IValue;
  wildcard_set_ : gset SchemaArgument;
  container_set_ : gset SchemaArgument;
  input_alias_map_ : list (gset nat);
  output_alias_map_ : list (gset nat)
}.

(** ** Failure and state *)

Inductive Result (A : Type) : Type :=
  | Ok (a : A)
  | AssertFail (msg : string).
Arguments Ok {A} a.
Arguments AssertFail {A} msg.

Definition M `{SchemaServices} (A : Type) : Type :=
  SchemaInfo → Result A * SchemaInfo.

Section Monad.
Context `{Services : SchemaServices}.

Definition ret {A} (a : A) : M A := λ s, (Ok a, s).

Definition bind {A B} (c : M A) (k : A → M B) : M B :=
  λ s, match c s with
       | (Ok a, s') => k a s'
       | (AssertFail msg, s') => (AssertFail msg, s')
       end.

Definition get : M SchemaInfo := λ s, (Ok s, s).
Definition put (s : SchemaInfo) : M unit := λ _, (Ok tt, s).

Definition TORCH_INTERNAL_ASSERT (cond : bool) (msg : string) : M unit :=
  λ s, if cond then (Ok tt, s) else (AssertFail msg, s).
End Monad.

Notation "x <- c1 ;; c2" := (bind c1 (λ x, c2))
  (at level 100, c1 at next level, right associativity).
Notation "c1 ;;; c2" := (bind c1 (λ _, c2))
  (at level 100, right associativity).

(** ** Fixed schema tables

    [torch::jit::parseSchema] is not part of this file; the signatures that
    the file parses are given here in parsed form. *)

Definition plain (n : string) (t : TypePtr) : Argument :=
  mkArgument n t None false.

Definition ret_of (t : TypePtr) : Argument := plain "" t.

(** [Tensor(a!) n] after the [*] marker, and the return [Tensor(a!)]. *)
Definition written (a : string) : option AliasInfo :=
  Some (mkAliasInfo true {[ a ]} false).

Definition out_arg (n a : string) : Argument :=
  mkArgument n TensorType (written a) true.

Definition out_ret (a : string) : Argument :=
  mkArgument "" TensorType (written a) false.

Notation "'Tensor?'" := (OptionalType TensorType) (only parsing).

Definition norm_arguments (first_weight : TypePtr) (flag : string)
  (tail : list Argument) : list Argument :=
  [ plain "input" TensorType; plain "weight" first_weight;
    plain "bias" Tensor?; plain "running_mean" Tensor?;
    plain "running_var" Tensor?; plain flag BoolType ] ++ tail.

Definition momentum_eps : list Argument :=
  [ plain "momentum" FloatType; plain "eps" FloatType ].

Definition momentum_eps_cudnn : list Argument :=
  momentum_eps ++ [ plain "cudnn_enabled" BoolType ].

Definition factor_epsilon : list Argument :=
  [ plain "exponential_average_factor" FloatType;
    plain "epsilon" FloatType ].

Definition tensors (k : nat) : list Argument := replicate k (ret_of TensorType).

Definition batch_norm_schema : FunctionSchema :=
  mkFunctionSchema "aten::batch_norm" ""
    (norm_arguments Tensor? "training" momentum_eps_cudnn) (tensors 1).

Definition instance_norm_schema : FunctionSchema :=
  mkFunctionSchema "aten::instance_norm" ""
    (norm_arguments Tensor? "use_input_stats" momentum_eps_cudnn) (tensors 1).

Definition batch_norm_impl_index_schema : FunctionSchema :=
  mkFunctionSchema "aten::_batch_norm_impl_index" ""
    (norm_arguments Tensor? "training" momentum_eps_cudnn)
    (tensors 4 ++ [ ret_of IntType ]).

Definition cudnn_batch_norm_schema : FunctionSchema :=
  mkFunctionSchema "aten::cudnn_batch_norm" ""
    (norm_arguments TensorType "training" factor_epsilon) (tensors 4).

Definition miopen_batch_norm_schema : FunctionSchema :=
  mkFunctionSchema "aten::miopen_batch_norm" ""
    (norm_arguments TensorType "training" factor_epsilon) (tensors 3).

Definition native_batch_norm_schema : FunctionSchema :=
  mkFunctionSchema "aten::native_batch_norm" ""
    (norm_arguments Tensor? "training" momentum_eps) (tensors 3).

Definition native_batch_norm_out_schema : FunctionSchema :=
  mkFunctionSchema "aten::native_batch_norm" "out"
    (norm_arguments Tensor? "training"
       (momentum_eps ++
        [ out_arg "out" "alias::a"; out_arg "save_mean" "alias::b";
          out_arg "save_invstd" "alias::c" ]))
    [ out_ret "alias::a"; out_ret "alias::b"; out_ret "alias::c" ].

(** This is a list of ops where a boolean variable (either "training",
    "train" or "use_input_stats") affects the mutability of running_mean and
    running_var. *)
Definition getTrainingOps : list FunctionSchema :=
  [ batch_norm_schema; instance_norm_schema; batch_norm_impl_index_schema;
    cudnn_batch_norm_schema; miopen_batch_norm_schema;
    native_batch_norm_schema; native_batch_norm_out_schema ].

(** [aten::dropout(Tensor input, float p, bool train) -> Tensor] *)
Definition dropout_schema : FunctionSchema :=
  mkFunctionSchema "aten::dropout" ""
    [ plain "input" TensorType; plain "p" FloatType; plain "train" BoolType ]
    (tensors 1).

(** The text of the warning of [initSchemaInfo]. *)
Definition warning_text (set : Symbol) : string :=
  set +:+ " appears twice in same argument list which will make aliasing checks more conservative.".

(** ** The member functions of [SchemaInfo] *)

Section Engine.
Context `{Services : SchemaServices}.

(** *** Field updates *)

Definition set_alias_maps_current (b : bool) (s : SchemaInfo) : SchemaInfo :=
  mkSchemaInfoState _ (schema_ s) b (value_map_ s) (wildcard_set_ s)
    (container_set_ s) (input_alias_map_ s) (output_alias_map_ s).

Definition set_value_map (vm : gmap string IValue) (s : SchemaInfo)
  : SchemaInfo :=
  mkSchemaInfoState _ (schema_ s) (alias_maps_current_ s) vm
    (wildcard_set_ s) (container_set_ s) (input_alias_map_ s)
    (output_alias_map_ s).

Definition set_wildcard_set (w : gset SchemaArgument) (s : SchemaInfo)
  : SchemaInfo :=
  mkSchemaInfoState _ (schema_ s) (alias_maps_current_ s) (value_map_ s) w
    (container_set_ s) (input_alias_map_ s) (output_alias_map_ s).

Definition set_container_set (c : gset SchemaArgument) (s : SchemaInfo)
  : SchemaInfo :=
  mkSchemaInfoState _ (schema_ s) (alias_maps_current_ s) (value_map_ s)
    (wildcard_set_ s) c (input_alias_map_ s) (output_alias_map_ s).

Definition set_input_alias_map (m : list (gset nat)) (s : SchemaInfo)
  : SchemaInfo :=
  mkSchemaInfoState _ (schema_ s) (alias_maps_current_ s) (value_map_ s)
    (wildcard_set_ s) (container_set_ s) m (output_alias_map_ s).

Definition set_output_alias_map (m : list (gset nat)) (s : SchemaInfo)
  : SchemaInfo :=
  mkSchemaInfoState _ (schema_ s) (alias_maps_current_ s) (value_map_ s)
    (wildcard_set_ s) (container_set_ s) (input_alias_map_ s) m.

(** [wildcard_set_.insert(a)] *)
Definition wildcard_insert (a : SchemaArgument) (s : SchemaInfo)
  : SchemaInfo :=
  set_wildcard_set ({[ a ]} ∪ wildcard_set_ s) s.

(** [m[i]] for a vector of sets; all uses are within range. *)
Definition alias_set (m : list (gset nat)) (i : nat) : gset nat :=
  default ∅ (m !! i).

(** [m[i].insert(X.begin(), X.end())] *)
Definition alias_insert (i : nat) (X : gset nat) (m : list (gset nat))
  : list (gset nat) :=
  alter (λ Y, X ∪ Y) i m.

(** [for (size_t i = lo; i < hi; i++) body(i)] on a state [S] *)
Definition for_range {S : Type} (lo hi : nat) (body : nat → S → S) (s : S)
  : S :=
  foldl (λ st i, body i st) s (seq lo (hi - lo)).

(** [value_map_.count(n) && value_map_.at(n).toBool()] *)
Definition bound_true (s : SchemaInfo) (n : string) : bool :=
  match value_map_ s !! n with
  | Some v => toBool v
  | None => false
  end.

(** [value_map_.count(n)] *)
Definition count (s : SchemaInfo) (n : string) : bool :=
  bool_decide (is_Some (value_map_ s !! n)).

(** the value bound to the [i]-th argument, if any:
    [value_map_[schema_.arguments()[i].name()]] guarded by [count] *)
Definition bound_value (s : SchemaInfo) (i : nat) : option IValue :=
  match arguments (schema_ s) !! i with
  | Some a => value_map_ s !! arg_name a
  | None => None
  end.

(** *** Binding values *)

Definition addArgumentValue (n : string) (value : IValue) : M unit :=
  s <- get ;;
  TORCH_INTERNAL_ASSERT
    (bool_decide (argumentIndexWithName (schema_ s) n ≠ None))
    ("Schema has no argument named " +:+ n) ;;;
  put (set_alias_maps_current false
         (set_value_map (<[ n := value ]> (value_map_ s)) s)).

Definition addArgumentValues_step (value_list : list (option IValue))
  (i : nat) (s : SchemaInfo) : SchemaInfo :=
  match value_list !! i, arguments (schema_ s) !! i with
  | Some (Some v), Some a =>
      set_alias_maps_current false
        (set_value_map (<[ arg_name a := v ]> (value_map_ s)) s)
  | _, _ => s
  end.

Definition addArgumentValues (value_list : list (option IValue)) : M unit :=
  s <- get ;;
  TORCH_INTERNAL_ASSERT
    (bool_decide (length value_list ≤ length (arguments (schema_ s)))%nat)
    "Schema does not have enough arguments for value list" ;;;
  put (for_range 0 (length value_list)
         (addArgumentValues_step value_list) s).

Fixpoint for_each {A : Type} (l : list A) (body : A → M unit) : M unit :=
  match l with
  | [] => ret tt
  | x :: l' => body x ;;; for_each l' body
  end.

(** The overload taking an [unordered_map]; the iteration order is that of
    [map_to_list]. *)
Definition addArgumentValues_map (values : gmap string IValue) : M unit :=
  for_each (map_to_list values)
    (λ key_pair, addArgumentValue key_pair.1 key_pair.2).

Definition hasInputArgumentNamed (s : SchemaInfo) (n : string) : bool :=
  existsb (λ arg, bool_decide (arg_name arg = n)) (arguments (schema_ s)).

(** *** initSchemaInfo *)

(** The local state of [initSchemaInfo]: the object, the set [duplicates]
    and the warnings issued so far (each recorded by the alias-set name it
    is about; its text is [warning_text]). *)
Record InitState : Type := mkInitState {
  init_info : SchemaInfo;
  init_duplicates : gset string;
  init_warnings : list string
}.

(** the body of [for (const auto& set : afterSets())] in the lambda
    [init_schema_arguments] *)
Definition track_set (acc : gset string * InitState) (set : string)
  : gset string * InitState :=
  let '(seen, st) := acc in
  if decide (set ∈ seen) then
    (seen, mkInitState (init_info st) ({[ set ]} ∪ init_duplicates st)
             (init_warnings st ++ [ set ]))
  else ({[ set ]} ∪ seen, st).

Definition is_container (t : TypePtr) : bool :=
  match getAliasTypeSetContainedTypes (mapTypeToAliasTypeSet t) with
  | Some contained_types =>
      bool_decide (0 < aliasTypeSet_size contained_types)%nat
  | None => false
  end.

Definition insert_container (a : SchemaArgument) (st : InitState)
  : InitState :=
  mkInitState
    (set_container_set ({[ a ]} ∪ container_set_ (init_info st))
       (init_info st))
    (init_duplicates st) (init_warnings st).

Definition insert_wildcard_init (a : SchemaArgument) (st : InitState)
  : InitState :=
  mkInitState (wildcard_insert a (init_info st))
    (init_duplicates st) (init_warnings st).

Definition init_schema_arguments_step (arguments_list : list Argument)
  (t : SchemaArgType) (i : nat) (acc : gset string * InitState)
  : gset string * InitState :=
  match arguments_list !! i with
  | None => acc
  | Some argument =>
      let acc1 :=
        match alias_info argument with
        | Some ai =>
            if isWildcardAfter ai then
              (acc.1, insert_wildcard_init (mkSchemaArgument t i) acc.2)
            else foldl track_set acc (elements (afterSets ai))
        | None => acc
        end in
      if is_container (arg_type argument) then
        (acc1.1, insert_container (mkSchemaArgument t i) acc1.2)
      else acc1
  end.

Definition init_schema_arguments (arguments_list : list Argument)
  (t : SchemaArgType) (st : InitState) : InitState :=
  (for_range 0 (length arguments_list)
     (init_schema_arguments_step arguments_list t) (∅, st)).2.

Definition ensureConservativity_step (duplicates : gset string)
  (arguments_list : list Argument) (t : SchemaArgType) (i : nat)
  (s : SchemaInfo) : SchemaInfo :=
  match arguments_list !! i with
  | Some argument =>
      match alias_info argument with
      | Some ai =>
          foldl (λ s' set,
                   if decide (set ∈ duplicates)
                   then wildcard_insert (mkSchemaArgument t i) s' else s')
            s (elements (afterSets ai))
      | None => s
      end
  | None => s
  end.

Definition ensureConservativity (duplicates : gset string)
  (arguments_list : list Argument) (t : SchemaArgType) (s : SchemaInfo)
  : SchemaInfo :=
  for_range 0 (length arguments_list)
    (ensureConservativity_step duplicates arguments_list t) s.

(** [initSchemaInfo], returning the object together with the warnings. *)
Definition initSchemaInfo (s : SchemaInfo) : SchemaInfo * list string :=
  let st0 := mkInitState s ∅ [] in
  let st1 := init_schema_arguments (arguments (schema_ s)) input st0 in
  let st2 := init_schema_arguments (returns (schema_ s)) output st1 in
  let duplicates := init_duplicates st2 in
  let s1 :=
    ensureConservativity duplicates (arguments (schema_ s)) input
      (init_info st2) in
  (ensureConservativity duplicates (returns (schema_ s)) output s1,
   init_warnings st2).

(** Modelled from the spec: the constructor of [SchemaInfo] is declared in
    the header, which is not among the sources.  Classification is
    computed once at construction, no value is bound and the alias maps
    are not current. *)
Definition construct (schema : FunctionSchema) : SchemaInfo * list string :=
  initSchemaInfo (mkSchemaInfoState _ schema false ∅ ∅ ∅ [] []).

Definition mkSchemaInfo (schema : FunctionSchema) : SchemaInfo :=
  (construct schema).1.
End Engine.

Section Queries.
Context `{Services : SchemaServices}.

(** *** generateAliasMaps *)

Definition in_ (i : nat) : SchemaArgument := mkSchemaArgument input i.
Definition out_ (j : nat) : SchemaArgument := mkSchemaArgument output j.

(** [input_alias_map_[i].insert(j)] *)
Definition input_alias_insert (i j : nat) (s : SchemaInfo) : SchemaInfo :=
  set_input_alias_map (alias_insert i {[ j ]} (input_alias_map_ s)) s.

(** the body of the two loops headed "Fills input_alias_map_" *)
Definition fill_input_step (i j : nat) (s : SchemaInfo) : SchemaInfo :=
  if decide (i = j) then input_alias_insert i i s
  else
    match bound_value s i, bound_value s j with
    | Some vi, Some vj =>
        if isAliasOf vi vj then
          let s1 := input_alias_insert j i (input_alias_insert i j s) in
          if decide (in_ i ∈ wildcard_set_ s1) then
            wildcard_insert (in_ j) s1
          else if decide (in_ j ∈ wildcard_set_ s1) then
            wildcard_insert (in_ i) s1
          else s1
        else s
    | _, _ => s
    end.

(** the body of the loops headed "Fills wildcard_set with container
    created wildcards" *)
Definition container_step (i j : nat) (s : SchemaInfo) : SchemaInfo :=
  if decide (j ∈ alias_set (input_alias_map_ s) i) then s
  else
    match bound_value s i, bound_value s j with
    | Some vi, Some vj =>
        if subValuesCount vi vj then wildcard_insert (in_ j) s else s
    | _, _ => s
    end.

(** the body of the loops headed "Fills output_alias_map_" *)
Definition fill_output_step (i j : nat) (s : SchemaInfo) : SchemaInfo :=
  if schema_may_alias (schema_ s) (in_ i) (out_ j) then
    let s1 :=
      if decide (in_ i ∈ wildcard_set_ s) then wildcard_insert (out_ j) s
      else s in
    set_output_alias_map
      (alias_insert j (alias_set (input_alias_map_ s1) i)
         (output_alias_map_ s1)) s1
  else s.

(** the three pairs of nested loops of [generateAliasMaps] *)
Definition fill_input_alias_map (n : nat) (s : SchemaInfo) : SchemaInfo :=
  for_range 0 n (λ i, for_range i n (fill_input_step i)) s.

Definition fill_container_wildcards (n : nat) (s : SchemaInfo) : SchemaInfo :=
  for_range 0 n (λ i, for_range 0 n (container_step i)) s.

Definition fill_output_alias_map (n r : nat) (s : SchemaInfo) : SchemaInfo :=
  for_range 0 n (λ i, for_range 0 r (fill_output_step i)) s.

(** the assignments that open [generateAliasMaps] *)
Definition reset_alias_maps (s : SchemaInfo) : SchemaInfo :=
  set_output_alias_map (replicate (length (returns (schema_ s))) ∅)
    (set_input_alias_map (replicate (length (arguments (schema_ s))) ∅)
       (set_alias_maps_current true s)).

Definition generateAliasMaps (s : SchemaInfo) : SchemaInfo :=
  let n := length (arguments (schema_ s)) in
  let r := length (returns (schema_ s)) in
  fill_output_alias_map n r
    (fill_container_wildcards n
       (fill_input_alias_map n (reset_alias_maps s))).

(** [if (!alias_maps_current_) generateAliasMaps();] *)
Definition refresh (s : SchemaInfo) : SchemaInfo :=
  if alias_maps_current_ s then s else generateAliasMaps s.

Definition ensure_current : M unit := λ s, (Ok tt, refresh s).

(** *** is_mutable *)

(** [hasInputArgumentNamed(n) && !count(n) || count(n) && at(n).toBool()] *)
Definition flag_on (s : SchemaInfo) (n : string) : bool :=
  (hasInputArgumentNamed s n && negb (count s n)) || bound_true s n.

Definition is_training_op (schema : FunctionSchema) : bool :=
  existsb (λ training_op, bool_decide (schema = training_op))
    getTrainingOps.

(** the lambda handed to [std::any_of] in [is_mutable] *)
Definition mutable_through (s : SchemaInfo) (aliasing_index : nat) : bool :=
  let n := from_option arg_name "" (arguments (schema_ s) !! aliasing_index) in
  let special_case :=
    bool_decide (n = "running_mean") || bool_decide (n = "running_var") in
  if special_case && is_training_op (schema_ s) then
    flag_on s "training" || flag_on s "train" || flag_on s "use_input_stats"
  else schema_is_mutable (schema_ s) (in_ aliasing_index).

Definition correct_map (s : SchemaInfo) (t : SchemaArgType)
  : list (gset nat) :=
  match t with
  | input => input_alias_map_ s
  | output => output_alias_map_ s
  end.

Definition is_mutable_arg (argument : SchemaArgument) : M bool :=
  s <- get ;;
  TORCH_INTERNAL_ASSERT
    (bool_decide
       (index argument
        < length (getCorrectList (schema_ s) (type argument)))%nat)
    "Invalid index for schema." ;;;
  ensure_current ;;;
  s' <- get ;;
  ret (existsb (mutable_through s')
         (elements (alias_set (correct_map s' (type argument))
                      (index argument)))).

Definition is_mutable_name (n : string) : M bool :=
  s <- get ;;
  let index := argumentIndexWithName (schema_ s) n in
  TORCH_INTERNAL_ASSERT (bool_decide (index ≠ None))
    ("Schema has no argument named " +:+ n) ;;;
  is_mutable_arg (in_ (default 0%nat index)).

(** the loop of [is_mutable()], leaving at the first mutable argument *)
Fixpoint is_mutable_from (indices : list nat) : M bool :=
  match indices with
  | [] => ret false
  | i :: rest =>
      b <- is_mutable_arg (in_ i) ;;
      if b then ret true else is_mutable_from rest
  end.

Definition is_mutable : M bool :=
  s <- get ;;
  is_mutable_from (seq 0 (length (arguments (schema_ s)))).

(** *** is_nondeterministic *)

Definition is_nondeterministic (s : SchemaInfo) : bool :=
  if bool_decide (dropout_schema = schema_ s)
     && count s "train" && negb (bound_true s "train")
  then false
  else
    match findOp (name (schema_ s)) (overload_name (schema_ s)) with
    | Some op => hasTag_nondeterministic_seeded op
    | None => false
    end.

(** *** may_alias *)

(** [mapTypeToAliasTypeSet(getCorrectList(a.type)[a.index].type())].  The
    source indexes the list without a bound check, so the value for an
    index outside the list stands for no behaviour of the code; the
    theorems that give the answers of [may_alias] and
    [may_contain_alias] take references within their lists
    ([valid_ref]). *)
Definition alias_types_of (s : SchemaInfo) (a : SchemaArgument)
  : option AliasTypeSet :=
  match getCorrectList (schema_ s) (type a) !! index a with
  | Some arg => mapTypeToAliasTypeSet (arg_type arg)
  | None => None
  end.

Definition types_can_alias (s : SchemaInfo) (lhs rhs : SchemaArgument)
  : bool :=
  canAliasTypeSetsAlias (alias_types_of s lhs) (alias_types_of s rhs).

(** the part of [may_alias] after the alias maps are known to be current *)
Definition may_alias_current (s : SchemaInfo) (lhs rhs : SchemaArgument)
  : bool :=
  if bool_decide (lhs ∈ wildcard_set_ s)
     && bool_decide (rhs ∈ wildcard_set_ s)
  then true
  else
    match type lhs, type rhs with
    | input, input =>
        bool_decide (index rhs ∈ alias_set (input_alias_map_ s) (index lhs))
    | output, output =>
        existsb
          (λ lhs_alias_input,
             bool_decide
               (lhs_alias_input
                ∈ alias_set (output_alias_map_ s) (index rhs)))
          (elements (alias_set (output_alias_map_ s) (index lhs)))
    | output, input =>
        bool_decide (index rhs ∈ alias_set (output_alias_map_ s) (index lhs))
    | input, output =>
        bool_decide (index lhs ∈ alias_set (output_alias_map_ s) (index rhs))
    end.

Definition may_alias (lhs rhs : SchemaArgument) : M bool :=
  s <- get ;;
  if schema_may_alias (schema_ s) lhs rhs then ret true
  else if negb (types_can_alias s lhs rhs) then ret false
  else
    ensure_current ;;;
    s' <- get ;;
    ret (may_alias_current s' lhs rhs).

(** *** may_contain_alias *)

Definition mayContainAliasImpl (s : SchemaInfo) (lhs rhs : SchemaArgument)
  : bool :=
  canAliasTypeSetsAlias
    (getAliasTypeSetContainedTypes (alias_types_of s lhs))
    (alias_types_of s rhs)
  && bool_decide (lhs ∈ container_set_ s)
  && bool_decide (rhs ∈ wildcard_set_ s).

Definition may_contain_alias (lhs rhs : SchemaArgument)
  (bidirectional : bool) : M bool :=
  s <- get ;;
  if schema_may_contain_alias (schema_ s) lhs rhs then ret true
  else
    b <- may_alias lhs rhs ;;
    if b then ret true
    else
      ensure_current ;;;
      s' <- get ;;
      if bidirectional then
        ret (mayContainAliasImpl s' lhs rhs || mayContainAliasImpl s' rhs lhs)
      else ret (mayContainAliasImpl s' lhs rhs).
(** *** Running a member function *)

(** what a call returns (or the assertion it fails with), and the object
    after the call *)
Definition answer {A} (c : M A) (s : SchemaInfo) : Result A := (c s).1.
Definition after {A} (c : M A) (s : SchemaInfo) : SchemaInfo := (c s).2.

(** the calls that can change the object *)
Inductive Call : Type :=
  | call_addArgumentValue (n : string) (value : IValue)
  | call_addArgumentValues (value_list : list (option IValue))
  | call_addArgumentValues_map (values : gmap string IValue)
  | call_is_mutable
  | call_is_mutable_arg (argument : SchemaArgument)
  | call_is_mutable_name (n : string)
  | call_may_alias (lhs rhs : SchemaArgument)
  | call_may_contain_alias (lhs rhs : SchemaArgument) (bidirectional : bool).

Definition perform (c : Call) (s : SchemaInfo) : SchemaInfo :=
  match c with
  | call_addArgumentValue n value => after (addArgumentValue n value) s
  | call_addArgumentValues value_list =>
      after (addArgumentValues value_list) s
  | call_addArgumentValues_map values =>
      after (addArgumentValues_map values) s
  | call_is_mutable => after is_mutable s
  | call_is_mutable_arg argument => after (is_mutable_arg argument) s
  | call_is_mutable_name n => after (is_mutable_name n) s
  | call_may_alias lhs rhs => after (may_alias lhs rhs) s
  | call_may_contain_alias lhs rhs bidirectional =>
      after (may_contain_alias lhs rhs bidirectional) s
  end.

(** the states of an object constructed for [schema], after any sequence of
    calls, failed ones included *)
Inductive reachable (schema : FunctionSchema) : SchemaInfo → Prop :=
  | reachable_new : reachable schema (mkSchemaInfo schema)
  | reachable_call c s :
      reachable schema s → reachable schema (perform c s).
End Queries.

(** ** A reference implementation of the collaborators

    Used to run the analysis on concrete schemas and values. *)

Module Reference.

(** Modelled from the spec: the type-to-alias-set mapping of
    [c10::FunctionSchema] is not among the sources.  A type maps to its
    alias-relevant types, or to [None] if it is never aliasable: a tensor
    and a list alias as themselves, an optional as its element, a number or
    a boolean never. *)
Fixpoint mapTypeToAliasTypeSet (t : TypePtr) : option (list TypePtr) :=
  match t with
  | TensorType => Some [ TensorType ]
  | ListType e => Some [ ListType e ]
  | OptionalType e => mapTypeToAliasTypeSet e
  | BoolType | FloatType | IntType => None
  end.

(** Modelled from the spec: two alias type sets can alias when both exist
    and share a type. *)
Definition canAliasTypeSetsAlias (lhs rhs : option (list TypePtr)) : bool :=
  match lhs, rhs with
  | Some l, Some r => existsb (λ t, bool_decide (t ∈ r)) l
  | _, _ => false
  end.

(** the types held inside a type, at any depth *)
Fixpoint containedTypes (t : TypePtr) : list TypePtr :=
  match t with
  | ListType e | OptionalType e => e :: containedTypes e
  | _ => []
  end.

(** Modelled from the spec: the contained types of an alias type set, for
    the container relationship. *)
Definition getAliasTypeSetContainedTypes (ts : option (list TypePtr))
  : option (list TypePtr) :=
  match ts with
  | Some l => Some (flat_map containedTypes l)
  | None => None
  end.

Definition lookup_arg (schema : FunctionSchema) (a : SchemaArgument)
  : option Argument :=
  getCorrectList schema (type a) !! index a.

Definition types_of (schema : FunctionSchema) (a : SchemaArgument)
  : option (list TypePtr) :=
  match lookup_arg schema a with
  | Some arg => mapTypeToAliasTypeSet (arg_type arg)
  | None => None
  end.

(** Modelled from the spec: [FunctionSchema::may_alias] is not among the
    sources.  The static schema declares that two entries may alias when
    their types can alias and their annotations share an alias-set name in
    the after-sets. *)
Definition schema_may_alias (schema : FunctionSchema)
  (lhs rhs : SchemaArgument) : bool :=
  canAliasTypeSetsAlias (types_of schema lhs) (types_of schema rhs)
  && match lookup_arg schema lhs ≫= alias_info,
           lookup_arg schema rhs ≫= alias_info with
     | Some la, Some ra =>
         bool_decide (afterSets la ∩ afterSets ra ≠ ∅)
     | _, _ => false
     end.

Definition declared_wildcard (schema : FunctionSchema) (a : SchemaArgument)
  : bool :=
  match lookup_arg schema a ≫= alias_info with
  | Some ai => isWildcardAfter ai
  | None => false
  end.

(** Modelled from the spec: [FunctionSchema::may_contain_alias] is not
    among the sources.  The static schema declares containment when the
    two entries may alias, when one is a declared wildcard whose type can
    alias what the other contains, or when what they contain can alias. *)
Definition schema_may_contain_alias (schema : FunctionSchema)
  (lhs rhs : SchemaArgument) : bool :=
  let lhsTypes := types_of schema lhs in
  let rhsTypes := types_of schema rhs in
  let lhsContained := getAliasTypeSetContainedTypes lhsTypes in
  let rhsContained := getAliasTypeSetContainedTypes rhsTypes in
  schema_may_alias schema lhs rhs
  || (declared_wildcard schema lhs
      && canAliasTypeSetsAlias lhsTypes rhsContained)
  || (declared_wildcard schema rhs
      && canAliasTypeSetsAlias rhsTypes lhsContained)
  || canAliasTypeSetsAlias lhsContained rhsContained.

(** Modelled from the spec: [FunctionSchema::is_mutable] is not among the
    sources.  The statically declared mutability of an entry is the write
    mark [!] of its annotation. *)
Definition schema_is_mutable (schema : FunctionSchema) (a : SchemaArgument)
  : bool :=
  match lookup_arg schema a ≫= alias_info with
  | Some ai => isWrite ai
  | None => false
  end.

(** Modelled from the spec: [c10::IValue] is not among the sources.  A
    value is a boolean, a number, a tensor on some storage, or a list
    object holding tensors. *)
Inductive Value : Type :=
  | VBool (b : bool)
  | VDouble
  | VTensor (storage : nat)
  | VTensorList (object : nat) (storages : list nat).

(** identity-based alias check: tensors alias when they share their
    storage, lists when they are the same object, primitives never *)
Definition isAliasOf (a b : Value) : bool :=
  match a, b with
  | VTensor x, VTensor y => bool_decide (x = y)
  | VTensorList x _, VTensorList y _ => bool_decide (x = y)
  | _, _ => false
  end.

(** the reachable sub-values of a value, itself included *)
Definition getSubValues (a : Value) : list Value :=
  a :: match a with
       | VTensorList _ storages => VTensor <$> storages
       | _ => []
       end.

Definition subValuesCount (a b : Value) : bool :=
  existsb (λ sub, isAliasOf sub b) (getSubValues a).

Definition toBool (a : Value) : bool :=
  match a with
  | VBool b => b
  | _ => false
  end.

(** Modelled from the spec: the operator-tag registry is not among the
    sources.  A registry holding [aten::dropout], tagged
    non-deterministic, and [aten::batch_norm], untagged. *)
Definition findOp (n overload : string) : option bool :=
  if bool_decide (n = "aten::dropout") && bool_decide (overload = "")
  then Some true
  else if bool_decide (n = "aten::batch_norm") && bool_decide (overload = "")
  then Some false
  else None.

#[export] Instance services : SchemaServices :=
  Build_SchemaServices
    (list TypePtr) mapTypeToAliasTypeSet canAliasTypeSetsAlias
    getAliasTypeSetContainedTypes length
    schema_may_alias schema_may_contain_alias schema_is_mutable
    Value isAliasOf subValuesCount toBool
    bool findOp (λ tagged, tagged).

(** values, as the analysis takes them *)
Definition boolean (b : bool) : @IValue services := VBool b.
Definition tensor (storage : nat) : @IValue services := VTensor storage.
Definition tensor_list (object : nat) (storages : list nat)
  : @IValue services :=
  VTensorList object storages.

(** [op(Tensor(a!) x, Tensor y) -> Tensor(a!)] *)
Definition op_schema : FunctionSchema :=
  mkFunctionSchema "op" ""
    [ mkArgument "x" TensorType (written "alias::a") false;
      plain "y" TensorType ]
    [ out_ret "alias::a" ].

(** [test(Tensor a, Tensor( * ) b, Tensor[] c) -> Tensor], the schema of
    the comment in [generateAliasMaps] *)
Definition test_schema : FunctionSchema :=
  mkFunctionSchema "test" ""
    [ plain "a" TensorType;
      mkArgument "b" TensorType (Some (mkAliasInfo false {[ "alias::*" ]} true))
        false;
      plain "c" (ListType TensorType) ]
    (tensors 1).

End Reference.


(** * Properties *)

(** ** Loops *)

Section Loops.
Context {St : Type}.
Implicit Types (body : nat → St → St) (s : St).

Lemma foldl_seq_ind (P : nat → St → Prop) body len :
  ∀ lo s,
    P lo s →
    (∀ i st, lo ≤ i < lo + len → P i st → P (S i) (body i st)) →
    P (lo + len) (foldl (λ st i, body i st) s (seq lo len)).
Proof.
  induction len as [|len IH]; intros lo s Hs Hstep; simpl.
  - by rewrite Nat.add_0_r.
  - replace (lo + S len) with (S lo + len) by lia.
    apply IH.
    + apply Hstep; [lia | done].
    + intros i st Hi. apply Hstep. lia.
Qed.

Lemma for_range_ind (P : nat → St → Prop) lo hi body s :
  lo ≤ hi →
  P lo s →
  (∀ i st, lo ≤ i < hi → P i st → P (S i) (body i st)) →
  P hi (for_range lo hi body s).
Proof.
  intros Hle Hs Hstep. unfold for_range.
  replace hi with (lo + (hi - lo)) at 1 by lia.
  apply foldl_seq_ind; [done |].
  intros i st Hi. apply Hstep. lia.
Qed.

Lemma for_range_empty lo hi body s : hi ≤ lo → for_range lo hi body s = s.
Proof.
  intros Hle. unfold for_range. by replace (hi - lo) with 0 by lia.
Qed.

Lemma for_range_first lo hi body s :
  lo < hi → for_range lo hi body s = for_range (S lo) hi body (body lo s).
Proof.
  intros Hlt. unfold for_range.
  replace (hi - lo) with (S (hi - S lo)) by lia. reflexivity.
Qed.

Lemma for_range_split k lo hi body s :
  lo ≤ k ≤ hi →
  for_range lo hi body s = for_range k hi body (for_range lo k body s).
Proof.
  intros Hk. unfold for_range.
  replace (hi - lo) with ((k - lo) + (hi - k)) by lia.
  rewrite seq_app, foldl_app. by replace (lo + (k - lo)) with k by lia.
Qed.

(** the state just before and just after iteration [k] *)
Lemma for_range_at k lo hi body s :
  lo ≤ k < hi →
  for_range lo hi body s
  = for_range (S k) hi body (body k (for_range lo k body s)).
Proof.
  intros Hk. rewrite (for_range_split k) by lia.
  by rewrite for_range_first by lia.
Qed.

Lemma for_range_preserves (P : St → Prop) lo hi body s :
  P s →
  (∀ i st, lo ≤ i < hi → P st → P (body i st)) →
  P (for_range lo hi body s).
Proof.
  intros Hs Hstep. destruct (decide (lo ≤ hi)) as [Hle|Hgt].
  - by apply (for_range_ind (λ _, P)).
  - rewrite for_range_empty by lia. done.
Qed.

(** a preorder that every iteration respects relates start and end *)
Lemma for_range_chain (R : St → St → Prop) lo hi body s :
  (∀ st, R st st) →
  (∀ a b c, R a b → R b c → R a c) →
  (∀ i st, lo ≤ i < hi → R st (body i st)) →
  R s (for_range lo hi body s).
Proof.
  intros Hrefl Htrans Hstep.
  apply (for_range_preserves (R s)); [apply Hrefl |].
  intros i st Hi Hst. eapply Htrans; [exact Hst | by apply Hstep].
Qed.
End Loops.

(** two runs of a loop whose iterations keep states related *)
Lemma for_range_rel {A B : Type} (R : A → B → Prop) lo hi
  (f : nat → A → A) (g : nat → B → B) a b :
  R a b →
  (∀ i x y, lo ≤ i < hi → R x y → R (f i x) (g i y)) →
  R (for_range lo hi f a) (for_range lo hi g b).
Proof.
  intros Hab Hstep. unfold for_range.
  assert (Hin : ∀ i, i ∈ seq lo (hi - lo) → lo ≤ i < hi).
  { intros i Hi. apply elem_of_seq in Hi. lia. }
  revert a b Hab Hin. generalize (seq lo (hi - lo)) as l.
  induction l as [|i l IH]; intros a b Hab Hin; simpl; [done |].
  apply IH.
  - apply Hstep; [apply Hin; left | done].
  - intros k Hk. apply Hin. by right.
Qed.

Lemma existsb_pointwise {A : Type} (f g : A → bool) (l : list A) :
  (∀ x, f x = g x) → existsb f l = existsb g l.
Proof.
  intros Hfg. induction l as [|x l IH]; simpl; [done |].
  by rewrite Hfg, IH.
Qed.

Lemma existsb_one {A : Type} (f : A → bool) (x : A) :
  existsb f [ x ] = f x.
Proof. simpl. apply orb_false_r. Qed.

(** ** Vectors of alias sets *)

Lemma alias_set_replicate n i : alias_set (replicate n ∅) i = ∅.
Proof.
  unfold alias_set. destruct (replicate n ∅ !! i) as [X|] eqn:E; [|done].
  by apply lookup_replicate in E as [-> _].
Qed.

Lemma length_alias_insert i X m : length (alias_insert i X m) = length m.
Proof. apply length_alter. Qed.

Lemma elem_of_alias_insert k a i X m :
  k ∈ alias_set (alias_insert i X m) a
  ↔ k ∈ alias_set m a ∨ (a = i ∧ i < length m ∧ k ∈ X).
Proof.
  unfold alias_set, alias_insert. destruct (decide (a = i)) as [->|Hne].
  - rewrite list_lookup_alter, decide_True by done.
    destruct (m !! i) as [Y|] eqn:E; simpl.
    + apply lookup_lt_Some in E. rewrite elem_of_union. tauto.
    + apply lookup_ge_None in E. split; [by left |].
      intros [? | (_ & ? & _)]; [done | lia].
  - rewrite list_lookup_alter_ne by done. tauto.
Qed.

Lemma alias_set_outside m i : length m ≤ i → alias_set m i = ∅.
Proof. intros Hi. unfold alias_set. by rewrite lookup_ge_None_2. Qed.

(** ** What the loops of [generateAliasMaps] keep and add *)

Section Generate.
Context `{Services : SchemaServices}.
Implicit Types s : SchemaInfo.

(** [s'] has the schema, the values and the container set of [s], and at
    least its wildcards and alias sets. *)
Record extends (s s' : SchemaInfo) : Prop := mkExtends {
  ext_schema : schema_ s' = schema_ s;
  ext_current : alias_maps_current_ s' = alias_maps_current_ s;
  ext_values : value_map_ s' = value_map_ s;
  ext_container : container_set_ s' = container_set_ s;
  ext_wildcard : wildcard_set_ s ⊆ wildcard_set_ s';
  ext_input_length :
    length (input_alias_map_ s') = length (input_alias_map_ s);
  ext_output_length :
    length (output_alias_map_ s') = length (output_alias_map_ s);
  ext_input a :
    alias_set (input_alias_map_ s) a ⊆ alias_set (input_alias_map_ s') a;
  ext_output a :
    alias_set (output_alias_map_ s) a ⊆ alias_set (output_alias_map_ s') a
}.

Lemma extends_refl s : extends s s.
Proof. by split. Qed.

Lemma extends_trans s1 s2 s3 :
  extends s1 s2 → extends s2 s3 → extends s1 s3.
Proof.
  intros E1 E2. split.
  - rewrite (ext_schema _ _ E2). apply E1.
  - rewrite (ext_current _ _ E2). apply E1.
  - rewrite (ext_values _ _ E2). apply E1.
  - rewrite (ext_container _ _ E2). apply E1.
  - etrans; [apply E1 | apply E2].
  - rewrite (ext_input_length _ _ E2). apply E1.
  - rewrite (ext_output_length _ _ E2). apply E1.
  - intros a. etrans; [apply E1 | apply E2].
  - intros a. etrans; [apply E1 | apply E2].
Qed.

Lemma extends_bound_value s s' i :
  extends s s' → bound_value s' i = bound_value s i.
Proof.
  intros E. unfold bound_value.
  by rewrite (ext_schema _ _ E), (ext_values _ _ E).
Qed.

Lemma wildcard_insert_extends a s : extends s (wildcard_insert a s).
Proof. split; simpl; try done. set_solver. Qed.

Lemma input_alias_insert_extends i j s : extends s (input_alias_insert i j s).
Proof.
  split; simpl; try done.
  - apply length_alias_insert.
  - intros a k Hk. apply elem_of_alias_insert. by left.
Qed.

Lemma fill_input_step_extends i j s : extends s (fill_input_step i j s).
Proof.
  unfold fill_input_step. case_decide.
  { apply input_alias_insert_extends. }
  destruct (bound_value s i), (bound_value s j); try apply extends_refl.
  destruct (isAliasOf _ _); [| apply extends_refl].
  assert (extends s (input_alias_insert j i (input_alias_insert i j s))).
  { eapply extends_trans; apply input_alias_insert_extends. }
  repeat case_decide; try done;
    (eapply extends_trans; [eassumption | apply wildcard_insert_extends]).
Qed.

Lemma container_step_extends i j s : extends s (container_step i j s).
Proof.
  unfold container_step. case_decide; [apply extends_refl |].
  destruct (bound_value s i), (bound_value s j); try apply extends_refl.
  destruct (subValuesCount _ _);
    [apply wildcard_insert_extends | apply extends_refl].
Qed.

Lemma fill_output_step_extends i j s : extends s (fill_output_step i j s).
Proof.
  unfold fill_output_step.
  destruct (schema_may_alias _ _ _); [| apply extends_refl].
  case_decide; split; simpl; try done; try set_solver;
    try apply length_alias_insert;
    intros a k Hk; apply elem_of_alias_insert; by left.
Qed.

Lemma nested_extends lo (lo' : nat → nat) hi hi'
  (step : nat → nat → SchemaInfo → SchemaInfo) s :
  (∀ i j st, extends st (step i j st)) →
  extends s (for_range lo hi (λ i, for_range (lo' i) hi' (step i)) s).
Proof.
  intros Hstep.
  apply (for_range_chain extends); [apply extends_refl | apply extends_trans |].
  intros i st _.
  apply (for_range_chain extends); [apply extends_refl | apply extends_trans |].
  intros j st' _. apply Hstep.
Qed.

Lemma fill_input_alias_map_extends n s : extends s (fill_input_alias_map n s).
Proof. apply nested_extends, fill_input_step_extends. Qed.

Lemma fill_container_wildcards_extends n s :
  extends s (fill_container_wildcards n s).
Proof.
  apply (nested_extends 0 (λ _, 0)), container_step_extends.
Qed.

Lemma fill_output_alias_map_extends n r s :
  extends s (fill_output_alias_map n r s).
Proof.
  apply (nested_extends 0 (λ _, 0)), fill_output_step_extends.
Qed.

(** the container loops leave both alias maps alone *)
Lemma container_step_maps i j s :
  input_alias_map_ (container_step i j s) = input_alias_map_ s
  ∧ output_alias_map_ (container_step i j s) = output_alias_map_ s.
Proof.
  unfold container_step. case_decide; [done |].
  destruct (bound_value s i), (bound_value s j); try done.
  by destruct (subValuesCount _ _).
Qed.

Lemma fill_container_wildcards_maps n s :
  input_alias_map_ (fill_container_wildcards n s) = input_alias_map_ s
  ∧ output_alias_map_ (fill_container_wildcards n s) = output_alias_map_ s.
Proof.
  unfold fill_container_wildcards.
  apply (for_range_preserves
    (λ st, input_alias_map_ st = input_alias_map_ s
           ∧ output_alias_map_ st = output_alias_map_ s)); [done |].
  intros i st _ Hst.
  apply (for_range_preserves
    (λ st, input_alias_map_ st = input_alias_map_ s
           ∧ output_alias_map_ st = output_alias_map_ s)); [done |].
  intros j st' _ [<- <-]. apply container_step_maps.
Qed.

(** the output loops leave the input alias map alone *)
Lemma fill_output_step_input i j s :
  input_alias_map_ (fill_output_step i j s) = input_alias_map_ s.
Proof.
  unfold fill_output_step. destruct (schema_may_alias _ _ _); [| done].
  by case_decide.
Qed.

Lemma fill_output_alias_map_input n r s :
  input_alias_map_ (fill_output_alias_map n r s) = input_alias_map_ s.
Proof.
  unfold fill_output_alias_map.
  apply (for_range_preserves
    (λ st, input_alias_map_ st = input_alias_map_ s)); [done |].
  intros i st _ Hst.
  apply (for_range_preserves
    (λ st, input_alias_map_ st = input_alias_map_ s)); [done |].
  intros j st' _ <-. apply fill_output_step_input.
Qed.

End Generate.

Section InputMap.
Context `{Services : SchemaServices}.
Implicit Types s : SchemaInfo.

(** a nested loop reaches every pair of its range, and what holds right
    after that iteration and survives extension holds at the end *)
Lemma nested_visit (P : SchemaInfo → Prop) (lo' : nat → nat) n n'
  (step : nat → nat → SchemaInfo → SchemaInfo) i j s :
  (∀ i j st, extends st (step i j st)) →
  i < n → lo' i ≤ j < n' →
  (∀ st, extends s st → P (step i j st)) →
  (∀ st st', P st → extends st st' → P st') →
  P (for_range 0 n (λ i, for_range (lo' i) n' (step i)) s).
Proof.
  intros Hstep Hi Hj Hat Hmono.
  rewrite (for_range_at i) by lia.
  set (before := for_range 0 i _ s).
  assert (extends s before) as Hbefore by by apply nested_extends.
  rewrite (for_range_at j (lo' i)) by lia.
  set (inner := for_range (lo' i) j _ before).
  assert (extends s inner) as Hinner.
  { eapply extends_trans; [exact Hbefore |]. unfold inner.
    apply (for_range_chain extends); [apply extends_refl | apply extends_trans |].
    intros; apply Hstep. }
  eapply Hmono; [apply Hat, Hinner |].
  eapply extends_trans; [| by apply nested_extends].
  apply (for_range_chain extends); [apply extends_refl | apply extends_trans |].
  intros; apply Hstep.
Qed.

Lemma elem_of_input_alias_insert k a i j s :
  k ∈ alias_set (input_alias_map_ (input_alias_insert i j s)) a
  ↔ k ∈ alias_set (input_alias_map_ s) a
    ∨ (a = i ∧ i < length (input_alias_map_ s) ∧ k = j).
Proof.
  unfold input_alias_insert; simpl. rewrite elem_of_alias_insert.
  by rewrite elem_of_singleton.
Qed.

(** what [fill_input_step] does to the input alias map, whatever it does
    to the wildcard set *)
Lemma fill_input_step_input i j s :
  input_alias_map_ (fill_input_step i j s)
  = if decide (i = j) then alias_insert i {[ i ]} (input_alias_map_ s)
    else match bound_value s i, bound_value s j with
         | Some vi, Some vj =>
             if isAliasOf vi vj
             then alias_insert j {[ i ]}
                    (alias_insert i {[ j ]} (input_alias_map_ s))
             else input_alias_map_ s
         | _, _ => input_alias_map_ s
         end.
Proof.
  unfold fill_input_step. case_decide; [done |].
  destruct (bound_value s i), (bound_value s j); try done.
  destruct (isAliasOf _ _); [| done].
  by repeat case_decide.
Qed.

Lemma fill_input_step_output i j s :
  output_alias_map_ (fill_input_step i j s) = output_alias_map_ s.
Proof.
  unfold fill_input_step. case_decide; [done |].
  destruct (bound_value s i), (bound_value s j); try done.
  destruct (isAliasOf _ _); [| done].
  by repeat case_decide.
Qed.

(** *** Reflexivity *)

Lemma fill_input_alias_map_refl n s i :
  length (input_alias_map_ s) = n → i < n →
  i ∈ alias_set (input_alias_map_ (fill_input_alias_map n s)) i.
Proof.
  intros Hlen Hi. unfold fill_input_alias_map.
  apply (nested_visit (λ st, i ∈ alias_set (input_alias_map_ st) i)
           (λ i, i) n n fill_input_step i i);
    [apply fill_input_step_extends | done | lia | |].
  - intros st Hst. rewrite fill_input_step_input, decide_True by done.
    apply elem_of_alias_insert. right.
    rewrite (ext_input_length _ _ Hst), elem_of_singleton. lia.
  - intros st st' Hin Hext. by apply (ext_input _ _ Hext).
Qed.

(** *** Symmetry *)

Definition symmetric (m : list (gset nat)) : Prop :=
  ∀ a b, b ∈ alias_set m a → a ∈ alias_set m b.

Lemma fill_input_step_symmetric i j s :
  i < length (input_alias_map_ s) → j < length (input_alias_map_ s) →
  symmetric (input_alias_map_ s) →
  symmetric (input_alias_map_ (fill_input_step i j s)).
Proof.
  intros Hi Hj Hsym. rewrite fill_input_step_input.
  case_decide as Hij.
  - intros a b. rewrite !elem_of_alias_insert, !elem_of_singleton.
    intros [Hab | (-> & _ & ->)]; [left; by apply Hsym | right; done].
  - destruct (bound_value s i), (bound_value s j); try done.
    destruct (isAliasOf _ _); [| done].
    intros a b.
    rewrite !elem_of_alias_insert, !length_alias_insert, !elem_of_singleton.
    intros [[Hab | (-> & _ & ->)] | (-> & _ & ->)].
    + left; left. by apply Hsym.
    + by right.
    + left; right. done.
Qed.

Lemma fill_input_alias_map_symmetric n s :
  length (input_alias_map_ s) = n →
  symmetric (input_alias_map_ s) →
  symmetric (input_alias_map_ (fill_input_alias_map n s)).
Proof.
  intros Hlen Hsym. unfold fill_input_alias_map.
  set (P := λ st : SchemaInfo,
         length (input_alias_map_ st) = n ∧ symmetric (input_alias_map_ st)).
  enough (P (for_range 0 n (λ i, for_range i n (fill_input_step i)) s))
    as [_ ?] by done.
  apply for_range_preserves; [done |].
  intros i st Hi Hst. apply for_range_preserves; [done |].
  intros j st' Hj [Hlen' Hsym']. split.
  - rewrite (ext_input_length _ _ (fill_input_step_extends i j st')). done.
  - apply fill_input_step_symmetric; [lia | lia | done].
Qed.

(** *** Bound values that alias *)

Lemma fill_input_alias_map_aliased n s i j vi vj :
  length (input_alias_map_ s) = n →
  i < j < n →
  bound_value s i = Some vi → bound_value s j = Some vj →
  isAliasOf vi vj = true →
  j ∈ alias_set (input_alias_map_ (fill_input_alias_map n s)) i.
Proof.
  intros Hlen Hij Hvi Hvj Halias. unfold fill_input_alias_map.
  apply (nested_visit (λ st, j ∈ alias_set (input_alias_map_ st) i)
           (λ i, i) n n fill_input_step i j);
    [apply fill_input_step_extends | lia | lia | |].
  - intros st Hst. rewrite fill_input_step_input, decide_False by lia.
    rewrite !(extends_bound_value _ _ _ Hst), Hvi, Hvj, Halias.
    rewrite !elem_of_alias_insert, elem_of_singleton.
    left; right. rewrite (ext_input_length _ _ Hst). split; [done | lia].
  - intros st st' Hin Hext. by apply (ext_input _ _ Hext).
Qed.

End InputMap.

(** ** What the alias maps depend on *)

Section Agree.
Context `{Services : SchemaServices}.
Implicit Types s : SchemaInfo.

(** Two states with the same schema, values and alias maps; with [w] they
    also have the same wildcard set. *)
Definition agree (w : bool) (s s' : SchemaInfo) : Prop :=
  schema_ s = schema_ s'
  ∧ value_map_ s = value_map_ s'
  ∧ input_alias_map_ s = input_alias_map_ s'
  ∧ output_alias_map_ s = output_alias_map_ s'
  ∧ (w = true → wildcard_set_ s = wildcard_set_ s').

Lemma agree_bound_value w s s' i :
  agree w s s' → bound_value s i = bound_value s' i.
Proof. intros (Hs & Hv & _). unfold bound_value. by rewrite Hs, Hv. Qed.

Lemma fill_input_step_agree w i j s s' :
  agree w s s' → agree w (fill_input_step i j s) (fill_input_step i j s').
Proof.
  intros Hag. pose proof (agree_bound_value _ _ _ i Hag) as Hbi.
  pose proof (agree_bound_value _ _ _ j Hag) as Hbj.
  destruct Hag as (Hs & Hv & Hi & Ho & Hw).
  split; [| split; [| split; [| split]]].
  - rewrite (ext_schema _ _ (fill_input_step_extends i j s)).
    by rewrite (ext_schema _ _ (fill_input_step_extends i j s')).
  - rewrite (ext_values _ _ (fill_input_step_extends i j s)).
    by rewrite (ext_values _ _ (fill_input_step_extends i j s')).
  - by rewrite !fill_input_step_input, Hbi, Hbj, Hi.
  - by rewrite !fill_input_step_output.
  - intros ->. specialize (Hw eq_refl).
    unfold fill_input_step. rewrite <- Hbi, <- Hbj.
    case_decide; [done |].
    destruct (bound_value s i), (bound_value s j); try done.
    destruct (isAliasOf _ _); [| done].
    simpl. rewrite <- Hw. by repeat case_decide; simpl; rewrite <- ?Hw.
Qed.

Lemma container_step_agree w i j s s' :
  agree w s s' → agree w (container_step i j s) (container_step i j s').
Proof.
  intros Hag. pose proof (agree_bound_value _ _ _ i Hag) as Hbi.
  pose proof (agree_bound_value _ _ _ j Hag) as Hbj.
  destruct Hag as (Hs & Hv & Hi & Ho & Hw).
  unfold container_step. rewrite <- Hbi, <- Hbj, <- Hi.
  case_decide; [done |].
  destruct (bound_value s i), (bound_value s j); try done.
  destruct (subValuesCount _ _); [| done].
  repeat split; simpl; try done. intros Hwt. by rewrite (Hw Hwt).
Qed.

Lemma fill_output_step_agree w i j s s' :
  agree w s s' → agree w (fill_output_step i j s) (fill_output_step i j s').
Proof.
  intros (Hs & Hv & Hi & Ho & Hw).
  unfold fill_output_step. rewrite <- Hs.
  destruct (schema_may_alias _ _ _); [| done].
  repeat split.
  - by repeat case_decide.
  - by repeat case_decide.
  - by repeat case_decide.
  - repeat case_decide; simpl; by rewrite Hi, Ho.
  - intros Hwt. specialize (Hw Hwt).
    rewrite <- Hw. by repeat case_decide; simpl; rewrite <- ?Hw.
Qed.

Lemma nested_agree w lo (lo' : nat → nat) hi hi'
  (step : nat → nat → SchemaInfo → SchemaInfo) s s' :
  (∀ i j st st', agree w st st' → agree w (step i j st) (step i j st')) →
  agree w s s' →
  agree w (for_range lo hi (λ i, for_range (lo' i) hi' (step i)) s)
          (for_range lo hi (λ i, for_range (lo' i) hi' (step i)) s').
Proof.
  intros Hstep Hag. apply for_range_rel; [done |].
  intros i st st' _ Hst. apply for_range_rel; [done |].
  intros j x y _ Hxy. by apply Hstep.
Qed.

Lemma reset_alias_maps_agree w s s' :
  schema_ s = schema_ s' → value_map_ s = value_map_ s' →
  (w = true → wildcard_set_ s = wildcard_set_ s') →
  agree w (reset_alias_maps s) (reset_alias_maps s').
Proof.
  intros Hs Hv Hw. unfold reset_alias_maps, agree; simpl.
  by rewrite Hs.
Qed.

Lemma generateAliasMaps_agree w s s' :
  schema_ s = schema_ s' → value_map_ s = value_map_ s' →
  (w = true → wildcard_set_ s = wildcard_set_ s') →
  agree w (generateAliasMaps s) (generateAliasMaps s').
Proof.
  intros Hs Hv Hw. unfold generateAliasMaps. rewrite <- Hs.
  apply (nested_agree w 0 (λ _, 0)); [apply fill_output_step_agree |].
  apply (nested_agree w 0 (λ _, 0)); [apply container_step_agree |].
  apply (nested_agree w 0 (λ i, i)); [apply fill_input_step_agree |].
  by apply reset_alias_maps_agree.
Qed.

End Agree.

(** ** The result of [generateAliasMaps] *)

Section Regenerated.
Context `{Services : SchemaServices}.
Implicit Types s : SchemaInfo.

Lemma generateAliasMaps_extends_reset s :
  extends (reset_alias_maps s) (generateAliasMaps s).
Proof.
  unfold generateAliasMaps.
  eapply extends_trans; [apply fill_input_alias_map_extends |].
  eapply extends_trans; [apply fill_container_wildcards_extends |].
  apply fill_output_alias_map_extends.
Qed.

Lemma generateAliasMaps_schema s : schema_ (generateAliasMaps s) = schema_ s.
Proof. apply (ext_schema _ _ (generateAliasMaps_extends_reset s)). Qed.

Lemma generateAliasMaps_values s :
  value_map_ (generateAliasMaps s) = value_map_ s.
Proof. apply (ext_values _ _ (generateAliasMaps_extends_reset s)). Qed.

Lemma generateAliasMaps_container s :
  container_set_ (generateAliasMaps s) = container_set_ s.
Proof. apply (ext_container _ _ (generateAliasMaps_extends_reset s)). Qed.

Lemma generateAliasMaps_current s :
  alias_maps_current_ (generateAliasMaps s) = true.
Proof. apply (ext_current _ _ (generateAliasMaps_extends_reset s)). Qed.

Lemma generateAliasMaps_wildcard s :
  wildcard_set_ s ⊆ wildcard_set_ (generateAliasMaps s).
Proof. apply (ext_wildcard _ _ (generateAliasMaps_extends_reset s)). Qed.

Lemma generateAliasMaps_input_length s :
  length (input_alias_map_ (generateAliasMaps s))
  = length (arguments (schema_ s)).
Proof.
  rewrite (ext_input_length _ _ (generateAliasMaps_extends_reset s)).
  apply length_replicate.
Qed.

Lemma generateAliasMaps_output_length s :
  length (output_alias_map_ (generateAliasMaps s))
  = length (returns (schema_ s)).
Proof.
  rewrite (ext_output_length _ _ (generateAliasMaps_extends_reset s)).
  apply length_replicate.
Qed.

(** the input alias map is settled by the first pair of loops *)
Lemma generateAliasMaps_input s :
  input_alias_map_ (generateAliasMaps s)
  = input_alias_map_
      (fill_input_alias_map (length (arguments (schema_ s)))
         (reset_alias_maps s)).
Proof.
  unfold generateAliasMaps. rewrite fill_output_alias_map_input.
  apply fill_container_wildcards_maps.
Qed.

Lemma generateAliasMaps_reflexive s i :
  i < length (arguments (schema_ s)) →
  i ∈ alias_set (input_alias_map_ (generateAliasMaps s)) i.
Proof.
  intros Hi. rewrite generateAliasMaps_input.
  apply fill_input_alias_map_refl; [apply length_replicate | done].
Qed.

Lemma generateAliasMaps_symmetric s :
  symmetric (input_alias_map_ (generateAliasMaps s)).
Proof.
  rewrite generateAliasMaps_input.
  apply fill_input_alias_map_symmetric; [apply length_replicate |].
  intros a b. simpl. by rewrite alias_set_replicate.
Qed.

Lemma generateAliasMaps_aliased s i j vi vj :
  i < j < length (arguments (schema_ s)) →
  bound_value s i = Some vi → bound_value s j = Some vj →
  isAliasOf vi vj = true →
  j ∈ alias_set (input_alias_map_ (generateAliasMaps s)) i.
Proof.
  intros Hij Hvi Hvj Halias. rewrite generateAliasMaps_input.
  by eapply fill_input_alias_map_aliased;
    [apply length_replicate | done | exact Hvi | exact Hvj | ].
Qed.

(** *** The output alias map *)

(** the static schema declares that some input may alias the return [j] *)
Definition declared_input (schema : FunctionSchema) (j : nat) : Prop :=
  ∃ i, i < length (arguments schema)
       ∧ schema_may_alias schema (in_ i) (out_ j) = true.

Lemma elem_of_fill_output_step k a i j s :
  k ∈ alias_set (output_alias_map_ (fill_output_step i j s)) a
  ↔ k ∈ alias_set (output_alias_map_ s) a
    ∨ (schema_may_alias (schema_ s) (in_ i) (out_ j) = true
       ∧ a = j ∧ j < length (output_alias_map_ s)
       ∧ k ∈ alias_set (input_alias_map_ s) i).
Proof.
  unfold fill_output_step.
  destruct (schema_may_alias _ _ _); [| naive_solver].
  case_decide; simpl; rewrite elem_of_alias_insert; naive_solver.
Qed.

Lemma fill_output_step_wildcard a i j s :
  a ∈ wildcard_set_ (fill_output_step i j s)
  → a ∈ wildcard_set_ s
    ∨ (a = out_ j ∧ schema_may_alias (schema_ s) (in_ i) (out_ j) = true).
Proof.
  unfold fill_output_step.
  destruct (schema_may_alias _ _ _); [| by left].
  case_decide; simpl; [| by left].
  rewrite elem_of_union, elem_of_singleton. naive_solver.
Qed.

Lemma fill_input_step_wildcard a i j s :
  a ∈ wildcard_set_ (fill_input_step i j s)
  → a ∈ wildcard_set_ s ∨ type a = input.
Proof.
  unfold fill_input_step. case_decide; [by left |].
  destruct (bound_value s i), (bound_value s j); try by left.
  destruct (isAliasOf _ _); [| by left].
  repeat case_decide; simpl; rewrite ?elem_of_union, ?elem_of_singleton;
    naive_solver.
Qed.

Lemma container_step_wildcard a i j s :
  a ∈ wildcard_set_ (container_step i j s)
  → a ∈ wildcard_set_ s ∨ type a = input.
Proof.
  unfold container_step. case_decide; [by left |].
  destruct (bound_value s i), (bound_value s j); try by left.
  destruct (subValuesCount _ _); [| by left].
  simpl. rewrite elem_of_union, elem_of_singleton. naive_solver.
Qed.

(** an invariant of every iteration of [generateAliasMaps]: returns enter
    the wildcard set and inputs enter a return's alias set only where the
    static schema declares an aliasing input *)
Definition outputs_declared (s0 s : SchemaInfo) : Prop :=
  extends (reset_alias_maps s0) s
  ∧ (∀ j, out_ j ∈ wildcard_set_ s →
          out_ j ∈ wildcard_set_ s0 ∨ declared_input (schema_ s0) j)
  ∧ (∀ j k, k ∈ alias_set (output_alias_map_ s) j →
            declared_input (schema_ s0) j).

Lemma outputs_declared_reset s0 : outputs_declared s0 (reset_alias_maps s0).
Proof.
  split; [apply extends_refl | split].
  - intros j Hj. by left.
  - intros j k. simpl. by rewrite alias_set_replicate.
Qed.

Lemma outputs_declared_nested s0 lo (lo' : nat → nat) hi hi'
  (step : nat → nat → SchemaInfo → SchemaInfo) s :
  hi ≤ length (arguments (schema_ s0)) →
  (∀ i j st, i < hi → outputs_declared s0 st →
             outputs_declared s0 (step i j st)) →
  outputs_declared s0 s →
  outputs_declared s0
    (for_range lo hi (λ i, for_range (lo' i) hi' (step i)) s).
Proof.
  intros Hhi Hstep Hs. apply for_range_preserves; [done |].
  intros i st Hi Hst. apply for_range_preserves; [done |].
  intros j st' Hj Hst'. apply Hstep; [lia | done].
Qed.

Lemma generateAliasMaps_outputs_declared s :
  outputs_declared s (generateAliasMaps s).
Proof.
  unfold generateAliasMaps, fill_output_alias_map, fill_container_wildcards,
    fill_input_alias_map.
  apply outputs_declared_nested; [done | |].
  { intros i j st Hi (Hext & Hw & Ho).
    pose proof (ext_schema _ _ Hext) as Hsch; simpl in Hsch.
    split; [| split].
    - eapply extends_trans; [exact Hext | apply fill_output_step_extends].
    - intros j' [Hin | [Heq Hdecl]]%fill_output_step_wildcard;
        [by apply Hw |].
      right. injection Heq as ->. exists i. split; [done |].
      by rewrite <- Hsch.
    - intros j' k [Hin | (Hdecl & -> & _)]%elem_of_fill_output_step;
        [by eapply Ho |].
      exists i. split; [done |]. by rewrite <- Hsch. }
  apply outputs_declared_nested; [done | |].
  { intros i j st Hi (Hext & Hw & Ho).
    split; [| split].
    - eapply extends_trans; [exact Hext | apply container_step_extends].
    - intros j' [Hin | Hty]%container_step_wildcard; [by apply Hw | done].
    - intros j' k. rewrite (proj2 (container_step_maps i j st)). apply Ho. }
  apply outputs_declared_nested; [done | |].
  { intros i j st Hi (Hext & Hw & Ho).
    split; [| split].
    - eapply extends_trans; [exact Hext | apply fill_input_step_extends].
    - intros j' [Hin | Hty]%fill_input_step_wildcard; [by apply Hw | done].
    - intros j' k. rewrite fill_input_step_output. apply Ho. }
  apply outputs_declared_reset.
Qed.

(** a declared aliasing input is found in the return's alias set *)
Lemma generateAliasMaps_output_declared s i j :
  i < length (arguments (schema_ s)) → j < length (returns (schema_ s)) →
  schema_may_alias (schema_ s) (in_ i) (out_ j) = true →
  i ∈ alias_set (output_alias_map_ (generateAliasMaps s)) j.
Proof.
  intros Hi Hj Hdecl. unfold generateAliasMaps.
  set (s2 := fill_container_wildcards _ _).
  assert (extends (reset_alias_maps s) s2) as Hs2.
  { eapply extends_trans; [apply fill_input_alias_map_extends |].
    apply fill_container_wildcards_extends. }
  assert (i ∈ alias_set (input_alias_map_ s2) i) as Hrefl.
  { unfold s2. rewrite (proj1 (fill_container_wildcards_maps _ _)).
    apply fill_input_alias_map_refl; [apply length_replicate | done]. }
  apply (nested_visit (λ st, i ∈ alias_set (output_alias_map_ st) j)
           (λ _, 0) _ _ fill_output_step i j);
    [apply fill_output_step_extends | done | lia | |].
  - intros st Hst. apply elem_of_fill_output_step. right.
    rewrite (ext_schema _ _ Hst), (ext_schema _ _ Hs2); simpl.
    split; [done | split; [done | split]].
    + rewrite (ext_output_length _ _ Hst), (ext_output_length _ _ Hs2).
      simpl. by rewrite length_replicate.
    + by apply (ext_input _ _ Hst).
  - intros st st' Hin Hext. by apply (ext_output _ _ Hext).
Qed.

End Regenerated.

(** ** Construction *)

Section Construction.
Context `{Services : SchemaServices}.
Implicit Types s : SchemaInfo.

(** the fields that classification never touches *)
Definition frame (s : SchemaInfo)
  : FunctionSchema * bool * gmap string IValue
    * list (gset nat) * list (gset nat) :=
  (schema_ s, alias_maps_current_ s, value_map_ s, input_alias_map_ s,
   output_alias_map_ s).

Lemma track_set_frame acc l :
  init_info (foldl track_set acc l).2 = init_info acc.2.
Proof.
  revert acc. induction l as [|x l IH]; intros [seen st]; simpl; [done |].
  rewrite IH. unfold track_set. by case_decide.
Qed.

Lemma init_schema_arguments_step_frame l t i acc :
  frame (init_info (init_schema_arguments_step l t i acc).2)
  = frame (init_info acc.2).
Proof.
  unfold init_schema_arguments_step.
  destruct (l !! i) as [argument|]; [| done].
  destruct (alias_info argument) as [ai|];
    [destruct (isWildcardAfter ai) |];
    destruct (is_container _); simpl; rewrite ?track_set_frame; done.
Qed.

Lemma init_schema_arguments_frame l t st :
  frame (init_info (init_schema_arguments l t st))
  = frame (init_info st).
Proof.
  unfold init_schema_arguments.
  apply (for_range_preserves
    (λ acc, frame (init_info acc.2) = frame (init_info st))); [done |].
  intros i acc _ <-. apply init_schema_arguments_step_frame.
Qed.

Lemma ensureConservativity_frame duplicates l t s :
  frame (ensureConservativity duplicates l t s) = frame s.
Proof.
  unfold ensureConservativity.
  apply (for_range_preserves (λ st, frame st = frame s)); [done |].
  intros i st _ <-. unfold ensureConservativity_step.
  destruct (l !! i) as [argument|]; [| done].
  destruct (alias_info argument) as [ai|]; [| done].
  generalize (elements (afterSets ai)) as names. intros names.
  revert st. induction names as [|x names IH]; intros st; simpl; [done |].
  rewrite IH. by case_decide.
Qed.

Lemma initSchemaInfo_frame s : frame (initSchemaInfo s).1 = frame s.
Proof.
  unfold initSchemaInfo; simpl.
  by rewrite !ensureConservativity_frame, !init_schema_arguments_frame.
Qed.

Lemma mkSchemaInfo_frame schema :
  frame (mkSchemaInfo schema) = (schema, false, ∅, [], []).
Proof. unfold mkSchemaInfo, construct. by rewrite initSchemaInfo_frame. Qed.

Lemma mkSchemaInfo_schema schema : schema_ (mkSchemaInfo schema) = schema.
Proof.
  pose proof (mkSchemaInfo_frame schema) as Hf. unfold frame in Hf.
  congruence.
Qed.

Lemma mkSchemaInfo_current schema :
  alias_maps_current_ (mkSchemaInfo schema) = false.
Proof.
  pose proof (mkSchemaInfo_frame schema) as Hf. unfold frame in Hf.
  congruence.
Qed.

Lemma mkSchemaInfo_values schema : value_map_ (mkSchemaInfo schema) = ∅.
Proof.
  pose proof (mkSchemaInfo_frame schema) as Hf. unfold frame in Hf.
  congruence.
Qed.

End Construction.

(** ** The states an object goes through *)

Section Histories.
Context `{Services : SchemaServices}.
Implicit Types s : SchemaInfo.

Lemma refresh_current s : alias_maps_current_ (refresh s) = true.
Proof.
  unfold refresh. destruct (alias_maps_current_ s) eqn:E; [done |].
  apply generateAliasMaps_current.
Qed.

Lemma refresh_idemp s : refresh (refresh s) = refresh s.
Proof. unfold refresh at 1. by rewrite refresh_current. Qed.

Lemma refresh_schema s : schema_ (refresh s) = schema_ s.
Proof.
  unfold refresh. destruct (alias_maps_current_ s); [done |].
  apply generateAliasMaps_schema.
Qed.

Lemma refresh_values s : value_map_ (refresh s) = value_map_ s.
Proof.
  unfold refresh. destruct (alias_maps_current_ s); [done |].
  apply generateAliasMaps_values.
Qed.

Lemma refresh_wildcard s : wildcard_set_ s ⊆ wildcard_set_ (refresh s).
Proof.
  unfold refresh. destruct (alias_maps_current_ s); [done |].
  apply generateAliasMaps_wildcard.
Qed.

(** A query leaves the object as it was or with its alias maps
    regenerated. *)
Definition query {A : Type} (c : M A) : Prop :=
  ∀ s, after c s = s ∨ after c s = refresh s.

Lemma query_ret {A} (a : A) : query (ret a).
Proof. intros s. by left. Qed.

Lemma query_get : query get.
Proof. intros s. by left. Qed.

Lemma query_assert cond msg : query (TORCH_INTERNAL_ASSERT cond msg).
Proof.
  intros s. left. unfold after, TORCH_INTERNAL_ASSERT. by destruct cond.
Qed.

Lemma query_ensure_current : query ensure_current.
Proof. intros s. by right. Qed.

Lemma query_bind {A B} (c : M A) (k : A → M B) :
  query c → (∀ a, query (k a)) → query (bind c k).
Proof.
  intros Hc Hk s. unfold after, bind.
  specialize (Hc s). unfold after in Hc.
  destruct (c s) as [[a | msg] s1]; simpl in *; [| done].
  specialize (Hk a s1). unfold after in Hk.
  destruct Hc as [-> | ->]; [done |].
  rewrite refresh_idemp in Hk. destruct Hk as [-> | ->]; by right.
Qed.

Lemma query_is_mutable_arg argument : query (is_mutable_arg argument).
Proof.
  unfold is_mutable_arg.
  repeat (apply query_bind; [| intros ?]);
    auto using query_get, query_assert, query_ensure_current, query_ret.
Qed.

Lemma query_is_mutable_name n : query (is_mutable_name n).
Proof.
  unfold is_mutable_name. apply query_bind; [apply query_get |].
  intros s. cbv zeta. apply query_bind; [apply query_assert |].
  intros _. apply query_is_mutable_arg.
Qed.

Lemma query_is_mutable_from indices : query (is_mutable_from indices).
Proof.
  induction indices as [|i rest IH]; simpl; [apply query_ret |].
  apply query_bind; [apply query_is_mutable_arg |].
  intros []; [apply query_ret | apply IH].
Qed.

Lemma query_is_mutable : query is_mutable.
Proof.
  apply query_bind; [apply query_get |].
  intros s. apply query_is_mutable_from.
Qed.

Lemma query_may_alias lhs rhs : query (may_alias lhs rhs).
Proof.
  unfold may_alias. apply query_bind; [apply query_get |]. intros s.
  destruct (schema_may_alias _ _ _); [apply query_ret |].
  destruct (negb _); [apply query_ret |].
  repeat (apply query_bind; [| intros ?]);
    auto using query_get, query_ensure_current, query_ret.
Qed.

Lemma query_may_contain_alias lhs rhs bidirectional :
  query (may_contain_alias lhs rhs bidirectional).
Proof.
  unfold may_contain_alias. apply query_bind; [apply query_get |]. intros s.
  destruct (schema_may_contain_alias _ _ _); [apply query_ret |].
  apply query_bind; [apply query_may_alias |].
  intros []; [apply query_ret |].
  apply query_bind; [apply query_ensure_current |]. intros _.
  apply query_bind; [apply query_get |]. intros s'.
  destruct bidirectional; apply query_ret.
Qed.

(** A binding call leaves the object as it was or with the alias maps
    marked stale; it never changes the schema. *)
Definition binding {A : Type} (c : M A) : Prop :=
  ∀ s, schema_ (after c s) = schema_ s
       ∧ (after c s = s ∨ alias_maps_current_ (after c s) = false).

Lemma binding_addArgumentValue n value : binding (addArgumentValue n value).
Proof.
  intros s. unfold after, addArgumentValue, bind, get, TORCH_INTERNAL_ASSERT.
  simpl. case_bool_decide; simpl; [| by split; [| left]].
  split; [done | by right].
Qed.

Lemma binding_addArgumentValues value_list :
  binding (addArgumentValues value_list).
Proof.
  intros s. unfold after, addArgumentValues, bind, get, TORCH_INTERNAL_ASSERT.
  simpl. case_bool_decide; simpl; [| by split; [| left]].
  apply (for_range_preserves
    (λ st, schema_ st = schema_ s
           ∧ (st = s ∨ alias_maps_current_ st = false)));
    [by split; [| left] |].
  intros i st _ [Hsch Hst]. unfold addArgumentValues_step.
  destruct (value_list !! i) as [[v|]|]; [| done | done].
  destruct (arguments (schema_ st) !! i); [| done].
  split; [done | by right].
Qed.

Lemma binding_for_each {A} (l : list A) (body : A → M unit) :
  (∀ x, binding (body x)) → binding (for_each l body).
Proof.
  intros Hbody. induction l as [|x l IH]; intros s; simpl.
  { split; [done | by left]. }
  unfold after, bind. destruct (Hbody x s) as [Hsch Hst]. unfold after in *.
  destruct (body x s) as [[[] | msg] s1]; simpl in *; [| done].
  destruct (IH s1) as [Hsch' Hst']. unfold after in *.
  split; [congruence |].
  destruct Hst' as [-> | ?]; [done | by right].
Qed.

Lemma binding_addArgumentValues_map values :
  binding (addArgumentValues_map values).
Proof. apply binding_for_each. intros x. apply binding_addArgumentValue. Qed.

(** What every reachable state satisfies: it carries the schema it was
    constructed with, and when its alias maps are marked current they are
    the result of a regeneration. *)
Definition settled (schema : FunctionSchema) (s : SchemaInfo) : Prop :=
  schema_ s = schema
  ∧ (alias_maps_current_ s = true → ∃ s0, s = generateAliasMaps s0).

Lemma settled_refresh schema s :
  settled schema s → settled schema (refresh s).
Proof.
  intros [Hsch Hcur]. split; [by rewrite refresh_schema |].
  intros _. unfold refresh. destruct (alias_maps_current_ s); [auto | eauto].
Qed.

Lemma settled_query {A} (c : M A) schema s :
  query c → settled schema s → settled schema (after c s).
Proof.
  intros Hc Hs. destruct (Hc s) as [-> | ->]; [done |].
  by apply settled_refresh.
Qed.

Lemma settled_binding {A} (c : M A) schema s :
  binding c → settled schema s → settled schema (after c s).
Proof.
  intros Hc [Hsch Hcur]. destruct (Hc s) as [Hsch' [-> | Hstale]]; [done |].
  split; [congruence |]. rewrite Hstale. done.
Qed.

Lemma reachable_settled schema s : reachable schema s → settled schema s.
Proof.
  induction 1 as [|c s _ IH].
  - split; [apply mkSchemaInfo_schema |].
    by rewrite mkSchemaInfo_current.
  - destruct c; simpl.
    + apply settled_binding; [apply binding_addArgumentValue | done].
    + apply settled_binding; [apply binding_addArgumentValues | done].
    + apply settled_binding; [apply binding_addArgumentValues_map | done].
    + apply settled_query; [apply query_is_mutable | done].
    + apply settled_query; [apply query_is_mutable_arg | done].
    + apply settled_query; [apply query_is_mutable_name | done].
    + apply settled_query; [apply query_may_alias | done].
    + apply settled_query; [apply query_may_contain_alias | done].
Qed.

(** after [refresh], a reachable state is the result of a regeneration
    from a state with the same schema, values and no more wildcards *)
Lemma settled_regenerated schema s :
  settled schema s →
  ∃ s0, refresh s = generateAliasMaps s0
        ∧ schema_ s0 = schema_ s ∧ value_map_ s0 = value_map_ s.
Proof.
  intros [_ Hcur]. unfold refresh.
  destruct (alias_maps_current_ s); [| by exists s].
  destruct (Hcur eq_refl) as [s0 ->]. exists s0.
  by rewrite generateAliasMaps_schema, generateAliasMaps_values.
Qed.

End Histories.

(** ** [may_alias] *)

Section MayAlias.
Context `{Services : SchemaServices}.
Implicit Types s : SchemaInfo.

Lemma may_alias_answer lhs rhs s :
  answer (may_alias lhs rhs) s
  = Ok (schema_may_alias (schema_ s) lhs rhs
        || types_can_alias s lhs rhs
           && may_alias_current (refresh s) lhs rhs).
Proof.
  unfold answer, may_alias, bind, get; simpl.
  destruct (schema_may_alias _ _ _); [done |].
  by destruct (types_can_alias s lhs rhs).
Qed.

Lemma types_can_alias_refresh s lhs rhs :
  types_can_alias (refresh s) lhs rhs = types_can_alias s lhs rhs.
Proof.
  unfold types_can_alias, alias_types_of. by rewrite refresh_schema.
Qed.

Lemma existsb_common (X Y : gset nat) :
  existsb (λ k, bool_decide (k ∈ Y)) (elements X) = true
  ↔ ∃ k, k ∈ X ∧ k ∈ Y.
Proof.
  rewrite existsb_exists. split.
  - intros (k & Hk & Hy). exists k.
    apply list_elem_of_In, elem_of_elements in Hk.
    by apply bool_decide_eq_true in Hy.
  - intros (k & Hk & Hy). exists k. split.
    + by apply list_elem_of_In, elem_of_elements.
    + by apply bool_decide_eq_true.
Qed.

Lemma may_alias_current_comm s lhs rhs :
  symmetric (input_alias_map_ s) →
  may_alias_current s lhs rhs = may_alias_current s rhs lhs.
Proof.
  intros Hsym. unfold may_alias_current.
  rewrite (andb_comm (bool_decide (rhs ∈ _))).
  destruct (_ && _); [done |].
  destruct (type lhs), (type rhs); try done.
  - apply bool_decide_ext. split; apply Hsym.
  - apply eq_true_iff_eq. rewrite !existsb_common. naive_solver.
Qed.

Lemma settled_symmetric schema s :
  settled schema s → symmetric (input_alias_map_ (refresh s)).
Proof.
  intros (s0 & -> & _)%settled_regenerated.
  apply generateAliasMaps_symmetric.
Qed.

Lemma settled_reflexive schema s i :
  settled schema s → i < length (arguments schema) →
  i ∈ alias_set (input_alias_map_ (refresh s)) i.
Proof.
  intros Hs Hi. pose proof Hs as (s0 & -> & Hsch & _)%settled_regenerated.
  apply generateAliasMaps_reflexive. destruct Hs as [<- _]. by rewrite Hsch.
Qed.

Lemma settled_aliased schema s i j vi vj :
  settled schema s → i < j < length (arguments schema) →
  bound_value s i = Some vi → bound_value s j = Some vj →
  isAliasOf vi vj = true →
  j ∈ alias_set (input_alias_map_ (refresh s)) i.
Proof.
  intros Hs Hij Hvi Hvj Halias.
  pose proof Hs as (s0 & -> & Hsch & Hval)%settled_regenerated.
  destruct Hs as [<- _].
  apply (generateAliasMaps_aliased s0 i j vi vj); [by rewrite Hsch | | |done].
  - unfold bound_value in *. by rewrite Hsch, Hval.
  - unfold bound_value in *. by rewrite Hsch, Hval.
Qed.

(** the returns of a regenerated state *)
Lemma settled_outputs schema s :
  settled schema s →
  (∀ j k, k ∈ alias_set (output_alias_map_ (refresh s)) j →
          declared_input schema j)
  ∧ (∀ i j, i < length (arguments schema) → j < length (returns schema) →
            schema_may_alias schema (in_ i) (out_ j) = true →
            i ∈ alias_set (output_alias_map_ (refresh s)) j)
  ∧ (∀ j, out_ j ∈ wildcard_set_ (refresh s) →
          out_ j ∈ wildcard_set_ s ∨ declared_input schema j).
Proof.
  intros [<- Hcur]. unfold refresh.
  destruct (alias_maps_current_ s) eqn:E.
  - destruct (Hcur eq_refl) as [s0 ->].
    rewrite generateAliasMaps_schema.
    destruct (generateAliasMaps_outputs_declared s0) as (_ & _ & Ho).
    split; [exact Ho | split; [| by left]].
    intros i j Hi Hj Hdecl. by apply generateAliasMaps_output_declared.
  - destruct (generateAliasMaps_outputs_declared s) as (_ & Hw & Ho).
    split; [exact Ho | split; [| exact Hw]].
    intros i j Hi Hj Hdecl. by apply generateAliasMaps_output_declared.
Qed.

(** C10: after every regeneration the input alias map has one set per
    argument, every input index is a member of its own alias set, and [j]
    is in the alias set of [i] exactly when [i] is in the alias set of
    [j]. *)
Theorem input_alias_map_reflexive_symmetric s i j :
  i < length (arguments (schema_ s)) →
  j < length (arguments (schema_ s)) →
  length (input_alias_map_ (generateAliasMaps s))
  = length (arguments (schema_ s))
  ∧ i ∈ alias_set (input_alias_map_ (generateAliasMaps s)) i
  ∧ (j ∈ alias_set (input_alias_map_ (generateAliasMaps s)) i
     ↔ i ∈ alias_set (input_alias_map_ (generateAliasMaps s)) j).
Proof.
  intros Hi Hj. split; [apply generateAliasMaps_input_length | split].
  - by apply generateAliasMaps_reflexive.
  - split; apply generateAliasMaps_symmetric.
Qed.

(** C3, amended: a regeneration recomputes both alias maps from scratch,
    so they depend only on the schema and the current values; the wildcard
    set is not reset: the regeneration starts from the wildcard set it
    finds, never removes an entry from it, and its result depends on the
    schema, the values and that earlier wildcard set. *)
Theorem regeneration_depends_on s s' :
  schema_ s = schema_ s' →
  value_map_ s = value_map_ s' →
  input_alias_map_ (generateAliasMaps s)
  = input_alias_map_ (generateAliasMaps s')
  ∧ output_alias_map_ (generateAliasMaps s)
    = output_alias_map_ (generateAliasMaps s')
  ∧ wildcard_set_ s ⊆ wildcard_set_ (generateAliasMaps s)
  ∧ (wildcard_set_ s = wildcard_set_ s' →
     wildcard_set_ (generateAliasMaps s)
     = wildcard_set_ (generateAliasMaps s')).
Proof.
  intros Hsch Hval.
  destruct (generateAliasMaps_agree false s s' Hsch Hval)
    as (_ & _ & Hin & Hout & _); [done |].
  split; [done | split; [done | split]].
  - apply generateAliasMaps_wildcard.
  - intros Hw.
    by destruct (generateAliasMaps_agree true s s' Hsch Hval)
      as (_ & _ & _ & _ & Hw'); [| apply Hw'].
Qed.

(** C5: on every reachable state [may_alias] gives the same answer for a
    pair in either order, asked afresh or one after the other, when what it
    takes from the schema (the declared aliasing and whether the types can
    alias) does not depend on the order. *)
Theorem may_alias_symmetric schema s a b :
  reachable schema s →
  valid_ref schema a → valid_ref schema b →
  schema_may_alias schema a b = schema_may_alias schema b a →
  types_can_alias s a b = types_can_alias s b a →
  answer (may_alias a b) s = answer (may_alias b a) s
  ∧ answer (may_alias b a) (after (may_alias a b) s)
    = answer (may_alias a b) s.
Proof.
  intros Hs%reachable_settled _ _ Hdecl Htypes.
  pose proof Hs as [Hsch _].
  assert (answer (may_alias a b) s = answer (may_alias b a) s) as Heq.
  { rewrite !may_alias_answer, Hsch, Hdecl, Htypes.
    by rewrite (may_alias_current_comm _ a b (settled_symmetric _ _ Hs)). }
  split; [done |]. rewrite Heq.
  destruct (query_may_alias a b s) as [-> | ->]; [done |].
  rewrite !may_alias_answer, refresh_idemp, refresh_schema.
  by rewrite types_can_alias_refresh.
Qed.

(** C4, amended: on every reachable state, [may_alias x x] for an argument
    [x] is true exactly when the schema declares it or the types of [x]
    can alias; for a return [x] it is true exactly when the schema declares
    it, or the types of [x] can alias and [x] is in the wildcard set or
    the schema declares that some argument may alias [x]. *)
Theorem may_alias_self schema s x :
  reachable schema s →
  valid_ref schema x →
  answer (may_alias x x) s
  = Ok (schema_may_alias schema x x
        || types_can_alias s x x
           && match type x with
              | input => true
              | output =>
                  bool_decide (x ∈ wildcard_set_ s)
                  || existsb (λ i, schema_may_alias schema (in_ i) x)
                       (seq 0 (length (arguments schema)))
              end).
Proof.
  intros Hs%reachable_settled Hx. pose proof Hs as [Hsch _].
  rewrite may_alias_answer, Hsch. do 3 f_equal.
  destruct x as [[] k]; unfold valid_ref in Hx; simpl in *.
  - unfold may_alias_current; simpl.
    rewrite (bool_decide_eq_true_2 (k ∈ _));
      [by destruct (_ && _) | by eapply settled_reflexive].
  - destruct (settled_outputs _ _ Hs) as (Ho & Hdecl & Hw).
    apply eq_true_iff_eq. unfold may_alias_current; simpl.
    rewrite orb_true_iff, bool_decide_eq_true, existsb_exists.
    split.
    + destruct (bool_decide (_ ∈ wildcard_set_ (refresh s))) eqn:E; simpl.
      * intros _. apply bool_decide_eq_true in E.
        destruct (Hw k E) as [? | (i & Hi & Hd)]; [by left | right].
        exists i. split; [| done]. apply in_seq. lia.
      * intros (i & Hi & _)%existsb_common.
        destruct (Ho k i Hi) as (i' & Hi' & Hd). right.
        exists i'. split; [| done]. apply in_seq. lia.
    + intros [Hin | (i & Hi%in_seq & Hd)].
      * apply refresh_wildcard in Hin.
        by rewrite (bool_decide_eq_true_2 _ Hin).
      * destruct (_ && _); [done |].
        apply existsb_common. exists i.
        assert (i ∈ alias_set (output_alias_map_ (refresh s)) k);
          [apply Hdecl; [lia | done | done] | done].
Qed.

(** C6, amended: on every reachable state, so also right after a binding
    call and whether or not the alias maps had been computed before it,
    [may_alias] is true for two arguments whose types can alias and that
    are bound to values that alias each other; unless the schema itself
    declares the pair to alias, the query leaves the alias maps current.
    When the types of the two arguments cannot alias, [may_alias] reads
    neither the bound values nor the alias maps: it returns what the
    static check [schema_.may_alias] returns for the pair, and leaves the
    object as it was. *)
Theorem may_alias_bound_aliases schema s i j :
  reachable schema s →
  i < length (arguments schema) → j < length (arguments schema) →
  (types_can_alias s (in_ i) (in_ j) = true →
   ∀ vi vj,
     bound_value s i = Some vi → bound_value s j = Some vj →
     isAliasOf vi vj = true → isAliasOf vj vi = true →
     answer (may_alias (in_ i) (in_ j)) s = Ok true
     ∧ (schema_may_alias schema (in_ i) (in_ j) = false →
        alias_maps_current_ (after (may_alias (in_ i) (in_ j)) s) = true))
  ∧ (types_can_alias s (in_ i) (in_ j) = false →
     answer (may_alias (in_ i) (in_ j)) s
     = Ok (schema_may_alias schema (in_ i) (in_ j))
     ∧ after (may_alias (in_ i) (in_ j)) s = s).
Proof.
  intros Hs%reachable_settled Hi Hj.
  pose proof Hs as [Hsch _]. split.
  - intros Htypes vi vj Hvi Hvj Hij Hji. split.
    + rewrite may_alias_answer, Htypes. f_equal.
      apply orb_true_iff. right. simpl.
      unfold may_alias_current; simpl. destruct (_ && _); [done |].
      apply bool_decide_eq_true.
      destruct (Nat.lt_total i j) as [Hlt | [-> | Hgt]].
      * by apply (settled_aliased schema s i j vi vj).
      * by eapply settled_reflexive.
      * apply (settled_symmetric _ _ Hs).
        by apply (settled_aliased schema s j i vj vi).
    + intros Hdecl. unfold after, may_alias, bind, get; simpl.
      rewrite Hsch, Hdecl, Htypes; simpl. apply refresh_current.
  - intros Htypes. split.
    + rewrite may_alias_answer, Hsch, Htypes. simpl.
      by rewrite orb_false_r.
    + unfold after, may_alias, bind, get; simpl. rewrite Htypes.
      by destruct (schema_may_alias _ _ _).
Qed.

End MayAlias.

(** ** Contract violations *)

Section Contracts.
Context `{Services : SchemaServices}.
Implicit Types s : SchemaInfo.

(** the call ran into an assertion *)
Definition failed {A : Type} (r : Result A) : Prop :=
  match r with
  | Ok _ => False
  | AssertFail _ => True
  end.

(** [n] is the name of an argument of the schema *)
Definition declared_name (schema : FunctionSchema) (n : string) : Prop :=
  n ∈ arg_name <$> arguments schema.

Lemma argumentIndexWithName_from_None l n k :
  argumentIndexWithName_from l n k = None ↔ n ∉ arg_name <$> l.
Proof.
  revert k. induction l as [|a l IH]; intros k; simpl.
  - split; [intros _; apply not_elem_of_nil | done].
  - rewrite not_elem_of_cons. case_bool_decide as Hn.
    + split; [done | intros [? _]; congruence].
    + rewrite IH.
      split; [intros ?; split; [congruence | done] | by intros [_ ?]].
Qed.

Lemma argumentIndexWithName_from_Some l n k i :
  argumentIndexWithName_from l n k = Some i →
  k ≤ i < k + length l ∧ arg_name <$> l !! (i - k) = Some n.
Proof.
  revert k. induction l as [|a l IH]; intros k; simpl; [done |].
  case_bool_decide as Hn.
  - intros [= <-]. rewrite Nat.sub_diag. simpl. split; [lia | by f_equal].
  - intros [Hk Hl]%IH. split; [lia |].
    by replace (i - k) with (S (i - S k)) by lia.
Qed.

Lemma argumentIndexWithName_declared schema n :
  argumentIndexWithName schema n ≠ None ↔ declared_name schema n.
Proof.
  unfold argumentIndexWithName, declared_name.
  rewrite argumentIndexWithName_from_None.
  split; [apply dec_stable | by intros ? ?].
Qed.

Lemma argumentIndexWithName_lt schema n i :
  argumentIndexWithName schema n = Some i → i < length (arguments schema).
Proof. intros [? _]%argumentIndexWithName_from_Some. lia. Qed.

Lemma addArgumentValue_run n value s :
  addArgumentValue n value s
  = if bool_decide (argumentIndexWithName (schema_ s) n ≠ None)
    then (Ok tt,
          set_alias_maps_current false
            (set_value_map (<[ n := value ]> (value_map_ s)) s))
    else (AssertFail ("Schema has no argument named " +:+ n), s).
Proof.
  unfold addArgumentValue, bind, get, put, TORCH_INTERNAL_ASSERT.
  by case_bool_decide.
Qed.

Lemma for_each_addArgumentValue_failed (l : list (string * IValue)) s :
  failed (answer
            (for_each l (λ key_pair,
                           addArgumentValue key_pair.1 key_pair.2)) s)
  ↔ ∃ key_pair, key_pair ∈ l ∧ ¬ declared_name (schema_ s) key_pair.1.
Proof.
  revert s. induction l as [|[n v] l IH]; intros s; simpl.
  { split; [done | by intros (? & ?%elem_of_nil & _)]. }
  unfold answer, bind. rewrite addArgumentValue_run; simpl.
  case_bool_decide as Hn; simpl.
  - apply argumentIndexWithName_declared in Hn.
    specialize (IH (set_alias_maps_current false
      (set_value_map (<[ n := v ]> (value_map_ s)) s))).
    unfold answer in IH. rewrite IH; simpl. split.
    + intros (kv & Hin & Hkv). exists kv. split; [by right | done].
    + intros (kv & [-> | Hin]%elem_of_cons & Hkv); [done |]. by exists kv.
  - split; [intros _ | done]. exists (n, v). split; [left |].
    simpl. rewrite <- argumentIndexWithName_declared. by intros ?.
Qed.

Lemma is_mutable_arg_run argument s :
  is_mutable_arg argument s
  = if bool_decide
         (index argument
          < length (getCorrectList (schema_ s) (type argument)))
    then (Ok (existsb (mutable_through (refresh s))
                (elements
                   (alias_set (correct_map (refresh s) (type argument))
                      (index argument)))),
          refresh s)
    else (AssertFail "Invalid index for schema.", s).
Proof.
  unfold is_mutable_arg, bind, get, TORCH_INTERNAL_ASSERT, ensure_current.
  by case_bool_decide.
Qed.

Lemma is_mutable_name_run n s :
  is_mutable_name n s
  = match argumentIndexWithName (schema_ s) n with
    | Some i => is_mutable_arg (in_ i) s
    | None => (AssertFail ("Schema has no argument named " +:+ n), s)
    end.
Proof.
  unfold is_mutable_name, bind, get, TORCH_INTERNAL_ASSERT; simpl.
  destruct (argumentIndexWithName (schema_ s) n) as [i|] eqn:E; simpl;
    try case_bool_decide; try done; congruence.
Qed.

(** C9: each contract violation ends in a failed assertion, and only a
    contract violation does: binding a value (alone or from a map) under a
    name that no argument of the schema has, asking [is_mutable] for such a
    name or for a reference whose index is outside the list of its role,
    and binding a positional list longer than the argument list.  A single
    failed call leaves the object untouched. *)
Theorem assertions_guard_contract s :
  (∀ n value,
     (failed (answer (addArgumentValue n value) s)
      ↔ ¬ declared_name (schema_ s) n)
     ∧ (failed (answer (addArgumentValue n value) s) →
        after (addArgumentValue n value) s = s))
  ∧ (∀ values,
       failed (answer (addArgumentValues_map values) s)
       ↔ ∃ n value, values !! n = Some value
                    ∧ ¬ declared_name (schema_ s) n)
  ∧ (∀ value_list,
       (failed (answer (addArgumentValues value_list) s)
        ↔ length (arguments (schema_ s)) < length value_list)
       ∧ (failed (answer (addArgumentValues value_list) s) →
          after (addArgumentValues value_list) s = s))
  ∧ (∀ n,
       (failed (answer (is_mutable_name n) s)
        ↔ ¬ declared_name (schema_ s) n)
       ∧ (failed (answer (is_mutable_name n) s) →
          after (is_mutable_name n) s = s))
  ∧ (∀ argument,
       (failed (answer (is_mutable_arg argument) s)
        ↔ ¬ valid_ref (schema_ s) argument)
       ∧ (failed (answer (is_mutable_arg argument) s) →
          after (is_mutable_arg argument) s = s)).
Proof.
  split; [| split; [| split; [| split]]].
  - intros n value. unfold answer, after. rewrite addArgumentValue_run.
    rewrite <- argumentIndexWithName_declared.
    case_bool_decide; simpl; [split; [tauto | done] | tauto].
  - intros values. unfold addArgumentValues_map.
    rewrite for_each_addArgumentValue_failed. split.
    + intros ([n value] & Hin%elem_of_map_to_list & Hn). by exists n, value.
    + intros (n & value & Hin & Hn). exists (n, value).
      split; [by apply elem_of_map_to_list | done].
  - intros value_list.
    unfold answer, after, addArgumentValues, bind, get, TORCH_INTERNAL_ASSERT.
    simpl. case_bool_decide; simpl; [split; [| done] | split; [| done]].
    + split; [done | lia].
    + split; [lia | done].
  - intros n. unfold answer, after. rewrite is_mutable_name_run.
    rewrite <- argumentIndexWithName_declared.
    destruct (argumentIndexWithName (schema_ s) n) as [i|] eqn:E; simpl.
    + rewrite is_mutable_arg_run; simpl.
      rewrite bool_decide_eq_true_2
        by by eapply argumentIndexWithName_lt.
      simpl. split; [split; [done | by intros []] | done].
    + split; [split; [by intros _ [] | done] | done].
  - intros argument. unfold answer, after, valid_ref.
    rewrite is_mutable_arg_run.
    case_bool_decide; simpl; [split; [tauto | done] | tauto].
Qed.

End Contracts.

(** ** [is_mutable] and [is_nondeterministic] *)

Section Mutability.
Context `{Services : SchemaServices}.
Implicit Types s : SchemaInfo.

Lemma mutable_through_ext s s' k :
  schema_ s = schema_ s' → value_map_ s = value_map_ s' →
  mutable_through s k = mutable_through s' k.
Proof.
  intros Hsch Hval.
  unfold mutable_through, flag_on, hasInputArgumentNamed, count, bound_true.
  by rewrite Hsch, Hval.
Qed.

Lemma mutable_through_special s k :
  (let n := from_option arg_name "" (arguments (schema_ s) !! k) in
   bool_decide (n = "running_mean") || bool_decide (n = "running_var"))
  && is_training_op (schema_ s) = true →
  mutable_through s k
  = flag_on s "training" || flag_on s "train" || flag_on s "use_input_stats".
Proof. unfold mutable_through. cbv zeta. by intros ->. Qed.

Lemma hasInputArgumentNamed_declared s n :
  declared_name (schema_ s) n → hasInputArgumentNamed s n = true.
Proof.
  intros (arg & -> & Hin)%list_elem_of_fmap.
  apply existsb_exists. exists arg.
  split; [by apply list_elem_of_In | by apply bool_decide_eq_true].
Qed.

Lemma is_training_op_table schema :
  schema ∈ getTrainingOps → is_training_op schema = true.
Proof.
  intros Hin. apply existsb_exists. exists schema.
  split; [by apply list_elem_of_In | by apply bool_decide_eq_true].
Qed.

(** while a declared flag is not bound, the running statistics of a
    normalization operator count as mutable, whatever else is bound *)
Lemma is_mutable_name_unbound_flag schema s flag stat :
  reachable schema s →
  schema ∈ getTrainingOps →
  flag ∈ [ "training"; "train"; "use_input_stats" ] →
  declared_name schema flag →
  stat ∈ [ "running_mean"; "running_var" ] →
  declared_name schema stat →
  value_map_ s !! flag = None →
  answer (is_mutable_name stat) s = Ok true.
Proof.
  intros Hs%reachable_settled Hop Hflag Hdecl Hstat Hstat_decl Hunbound.
  pose proof Hs as [Hsch _].
  apply argumentIndexWithName_declared in Hstat_decl.
  destruct (argumentIndexWithName schema stat) as [k|] eqn:Hk; [| done].
  pose proof (argumentIndexWithName_lt _ _ _ Hk) as Hlt.
  pose proof Hk as [_ Hname]%argumentIndexWithName_from_Some.
  rewrite Nat.sub_0_r in Hname.
  destruct (arguments schema !! k) as [arg|] eqn:Harg; [| done].
  injection Hname as Hname.
  unfold answer. rewrite is_mutable_name_run, Hsch, Hk.
  rewrite is_mutable_arg_run. simpl. rewrite Hsch.
  rewrite bool_decide_eq_true_2 by done. simpl. f_equal.
  apply existsb_exists. exists k. split.
  { apply list_elem_of_In, elem_of_elements. by eapply settled_reflexive. }
  rewrite mutable_through_special.
  - assert (flag_on (refresh s) flag = true) as Hon.
    { unfold flag_on, count. rewrite refresh_values, Hunbound.
      rewrite hasInputArgumentNamed_declared
        by by rewrite refresh_schema, Hsch.
      by rewrite bool_decide_eq_false_2 by by intros [? ?]. }
    repeat (apply elem_of_cons in Hflag as [-> | Hflag]);
      [.. | by apply elem_of_nil in Hflag];
      rewrite Hon; by rewrite ?orb_true_r.
  - rewrite refresh_schema, Hsch, Harg. cbv zeta. simpl. rewrite Hname.
    rewrite (is_training_op_table _ Hop), andb_true_r.
    repeat (apply elem_of_cons in Hstat as [-> | Hstat]);
      [.. | by apply elem_of_nil in Hstat]; done.
Qed.

End Mutability.

(** ** Classification *)

Section Classification.
Context `{Services : SchemaServices}.
Implicit Types (s : SchemaInfo) (a : string).

(** the entry carries an annotation whose after-set holds the name [a] *)
Definition mentions (a : string) (arg : Argument) : bool :=
  match alias_info arg with
  | Some ai => bool_decide (a ∈ afterSets ai)
  | None => false
  end.

(** the entry mentions [a] and is not marked wildcard-after *)
Definition tracks (a : string) (arg : Argument) : bool :=
  match alias_info arg with
  | Some ai => negb (isWildcardAfter ai) && bool_decide (a ∈ afterSets ai)
  | None => false
  end.

(** in how many entries of a list the name is tracked *)
Definition occurrences (a : string) (l : list Argument) : nat :=
  length (List.filter (tracks a) l).

(** how many of the warnings are about the name [a] *)
Definition warnings_about (a : string) (log : list string) : nat :=
  length (List.filter (λ x, bool_decide (x = a)) log).

(** what the loop of [init_schema_arguments] knows about one name: whether
    it is in [seen], whether it is in [duplicates], and how often it was
    warned about *)
Definition view (a : string) (acc : gset string * InitState)
  : bool * bool * nat :=
  (bool_decide (a ∈ acc.1), bool_decide (a ∈ init_duplicates acc.2),
   warnings_about a (init_warnings acc.2)).

(** one more tracked occurrence of the name *)
Definition bump (v : bool * bool * nat) : bool * bool * nat :=
  let '(seen, dup, warned) := v in
  (true, dup || seen, warned + (if seen then 1 else 0)).

Lemma warnings_about_snoc a log x :
  warnings_about a (log ++ [ x ])
  = warnings_about a log + (if bool_decide (x = a) then 1 else 0).
Proof.
  unfold warnings_about. rewrite List.filter_app, length_app. simpl.
  by destruct (bool_decide (x = a)).
Qed.

Lemma track_set_view_same a acc : view a (track_set acc a) = bump (view a acc).
Proof.
  destruct acc as [seen st]. unfold track_set, view, bump; simpl.
  case_decide as Hseen; simpl.
  - rewrite (bool_decide_eq_true_2 (a ∈ seen)) by done.
    rewrite warnings_about_snoc, (bool_decide_eq_true_2 (a = a)) by done.
    rewrite (bool_decide_eq_true_2 (a ∈ {[a]} ∪ _)) by set_solver.
    by rewrite orb_true_r.
  - rewrite (bool_decide_eq_false_2 (a ∈ seen)) by done.
    rewrite (bool_decide_eq_true_2 (a ∈ {[a]} ∪ _)) by set_solver.
    by rewrite orb_false_r, Nat.add_0_r.
Qed.

Lemma track_set_view_other a x acc :
  x ≠ a → view a (track_set acc x) = view a acc.
Proof.
  intros Hx. destruct acc as [seen st]. unfold track_set, view; simpl.
  case_decide as Hseen; simpl.
  - rewrite warnings_about_snoc, (bool_decide_eq_false_2 (x = a)) by done.
    rewrite Nat.add_0_r. do 2 f_equal. apply bool_decide_ext. set_solver.
  - do 2 f_equal. apply bool_decide_ext. set_solver.
Qed.

Lemma track_sets_view a names acc :
  NoDup names →
  view a (foldl track_set acc names)
  = if bool_decide (a ∈ names) then bump (view a acc) else view a acc.
Proof.
  intros Hnodup. revert acc.
  induction Hnodup as [|x names Hx _ IH]; intros acc; simpl; [done |].
  rewrite IH. destruct (decide (x = a)) as [-> | Hne].
  - rewrite (bool_decide_eq_false_2 (a ∈ names)) by done.
    rewrite (bool_decide_eq_true_2 (a ∈ a :: names)) by left.
    apply track_set_view_same.
  - rewrite (track_set_view_other a x) by done.
    destruct (decide (a ∈ names)) as [Hin | Hnin].
    + rewrite (bool_decide_eq_true_2 (a ∈ names)) by done.
      by rewrite (bool_decide_eq_true_2 (a ∈ x :: names)) by by right.
    + rewrite (bool_decide_eq_false_2 (a ∈ names)) by done.
      rewrite (bool_decide_eq_false_2 (a ∈ x :: names)); [done |].
      intros [-> | ?]%elem_of_cons; done.
Qed.

Lemma init_schema_arguments_step_view a l t i acc :
  view a (init_schema_arguments_step l t i acc)
  = match l !! i with
    | Some arg => if tracks a arg then bump (view a acc) else view a acc
    | None => view a acc
    end.
Proof.
  unfold init_schema_arguments_step, tracks.
  destruct (l !! i) as [arg|]; [| done].
  assert (∀ acc1, view a
            (if is_container (arg_type arg)
             then (acc1.1, insert_container (mkSchemaArgument t i) acc1.2)
             else acc1) = view a acc1) as ->.
  { intros acc1. by destruct (is_container _). }
  destruct (alias_info arg) as [ai|]; [| done].
  destruct (isWildcardAfter ai); simpl; [done |].
  rewrite track_sets_view by apply NoDup_elements.
  destruct (decide (a ∈ afterSets ai)) as [Hin | Hnin].
  - rewrite (bool_decide_eq_true_2 (a ∈ afterSets ai)) by done.
    by rewrite bool_decide_eq_true_2 by by apply elem_of_elements.
  - rewrite (bool_decide_eq_false_2 (a ∈ afterSets ai)) by done.
    by rewrite bool_decide_eq_false_2 by by rewrite elem_of_elements.
Qed.

Lemma occurrences_take_S a l i arg :
  l !! i = Some arg →
  occurrences a (take (S i) l)
  = occurrences a (take i l) + (if tracks a arg then 1 else 0).
Proof.
  intros Hi. unfold occurrences. rewrite (take_S_r _ _ _ Hi).
  rewrite List.filter_app, length_app. simpl. by destruct (tracks a arg).
Qed.

(** the loop of [init_schema_arguments], seen from one name *)
Lemma init_schema_arguments_view a l t acc :
  view a (for_range 0 (length l) (init_schema_arguments_step l t) acc)
  = Nat.iter (occurrences a l) bump (view a acc).
Proof.
  replace (occurrences a l) with (occurrences a (take (length l) l))
    by by rewrite firstn_all.
  apply (for_range_ind
    (λ k acc', view a acc'
               = Nat.iter (occurrences a (take k l)) bump (view a acc)));
    [lia | done |].
  intros i acc' [_ Hi] IH. rewrite init_schema_arguments_step_view.
  destruct (lookup_lt_is_Some_2 l i Hi) as [arg Harg]. rewrite Harg.
  rewrite (occurrences_take_S _ _ _ _ Harg), IH.
  destruct (tracks a arg); [| by rewrite Nat.add_0_r].
  by rewrite Nat.add_1_r, Nat.iter_succ.
Qed.

Lemma iter_bump m dup warned :
  Nat.iter m bump (false, dup, warned)
  = (bool_decide (1 ≤ m), dup || bool_decide (2 ≤ m), warned + (m - 1)).
Proof.
  induction m as [|m IH].
  - rewrite !bool_decide_eq_false_2 by lia.
    simpl. by rewrite orb_false_r, Nat.add_0_r.
  - rewrite Nat.iter_succ, IH. unfold bump.
    repeat case_bool_decide; try lia; destruct dup; simpl;
      f_equal; lia.
Qed.

(** what one run of [init_schema_arguments] does to [duplicates] and to the
    warnings *)
Lemma init_schema_arguments_duplicates a l t st :
  (a ∈ init_duplicates (init_schema_arguments l t st)
   ↔ a ∈ init_duplicates st ∨ 2 ≤ occurrences a l)
  ∧ warnings_about a (init_warnings (init_schema_arguments l t st))
    = warnings_about a (init_warnings st) + (occurrences a l - 1).
Proof.
  pose proof (init_schema_arguments_view a l t (∅, st)) as Hview.
  unfold view at 2 in Hview; simpl in Hview.
  rewrite (bool_decide_eq_false_2 (a ∈ ∅)) in Hview by set_solver.
  rewrite iter_bump in Hview. unfold view in Hview.
  unfold init_schema_arguments.
  injection Hview as _ Hdup Hwarn. split; [| done].
  etrans; [symmetry; apply bool_decide_eq_true |].
  rewrite Hdup, orb_true_iff. by rewrite !bool_decide_eq_true.
Qed.

(** two entries that track the name make two occurrences *)
Lemma occurrences_one a l i arg :
  l !! i = Some arg → tracks a arg = true → 1 ≤ occurrences a l.
Proof.
  intros Hi Ha. unfold occurrences.
  assert (In arg (List.filter (tracks a) l)) as Hin.
  { apply filter_In. split; [| done].
    apply list_elem_of_In, list_elem_of_lookup. by exists i. }
  destruct (List.filter (tracks a) l); [done | simpl; lia].
Qed.

Lemma occurrences_two a l i j arg_i arg_j :
  i < j →
  l !! i = Some arg_i → tracks a arg_i = true →
  l !! j = Some arg_j → tracks a arg_j = true →
  2 ≤ occurrences a l.
Proof.
  intros Hij Hi Hai Hj Haj.
  rewrite <- (take_drop_middle l i arg_i Hi). unfold occurrences.
  rewrite List.filter_app, length_app. simpl. rewrite Hai. simpl.
  enough (1 ≤ occurrences a (drop (S i) l)) by (unfold occurrences in *; lia).
  apply (occurrences_one a _ (j - S i) arg_j); [| done].
  rewrite lookup_drop. by replace (S i + (j - S i)) with j by lia.
Qed.

(** the inner loop of [ensureConservativity] for the entry [x] *)
Lemma ensure_entry_wildcard (duplicates : gset string) x names s :
  wildcard_set_ s
  ⊆ wildcard_set_
      (foldl (λ s' set, if decide (set ∈ duplicates)
                        then wildcard_insert x s' else s') s names)
  ∧ ((∃ a, a ∈ names ∧ a ∈ duplicates) →
     x ∈ wildcard_set_
           (foldl (λ s' set, if decide (set ∈ duplicates)
                             then wildcard_insert x s' else s') s names)).
Proof.
  revert s. induction names as [|n names IH]; intros s; simpl.
  { split; [done | by intros (? & ?%elem_of_nil & _)]. }
  destruct (IH (if decide (n ∈ duplicates)
                then wildcard_insert x s else s)) as [Hmono Hhit].
  assert (wildcard_set_ s
          ⊆ wildcard_set_ (if decide (n ∈ duplicates)
                           then wildcard_insert x s else s)) as Hstep.
  { case_decide; simpl; set_solver. }
  split; [set_solver |].
  intros (a & [-> | Hin]%elem_of_cons & Hdup).
  - apply Hmono. rewrite decide_True by done. simpl. set_solver.
  - apply Hhit. by exists a.
Qed.

Lemma ensureConservativity_step_wildcard duplicates l t i s :
  wildcard_set_ s
  ⊆ wildcard_set_ (ensureConservativity_step duplicates l t i s).
Proof.
  unfold ensureConservativity_step.
  destruct (l !! i) as [arg|]; [| done].
  destruct (alias_info arg) as [ai|]; [| done].
  apply ensure_entry_wildcard.
Qed.

Lemma ensureConservativity_wildcard duplicates l t s :
  wildcard_set_ s ⊆ wildcard_set_ (ensureConservativity duplicates l t s).
Proof.
  unfold ensureConservativity.
  apply (for_range_chain (λ x y, wildcard_set_ x ⊆ wildcard_set_ y));
    [done | intros ??? ? ?; by etrans |].
  intros i st _. apply ensureConservativity_step_wildcard.
Qed.

Lemma ensureConservativity_hit duplicates l t s a k arg :
  l !! k = Some arg → mentions a arg = true → a ∈ duplicates →
  mkSchemaArgument t k ∈ wildcard_set_ (ensureConservativity duplicates l t s).
Proof.
  intros Hk Hmention Hdup. unfold ensureConservativity.
  rewrite (for_range_at k) by (apply lookup_lt_Some in Hk; lia).
  set (before := for_range 0 k _ s).
  assert (mkSchemaArgument t k
          ∈ wildcard_set_ (ensureConservativity_step duplicates l t k before))
    as Hin.
  { unfold ensureConservativity_step. rewrite Hk.
    unfold mentions in Hmention.
    destruct (alias_info arg) as [ai|]; [| done].
    apply ensure_entry_wildcard. exists a. split; [| done].
    apply elem_of_elements. by apply bool_decide_eq_true in Hmention. }
  revert Hin. generalize (ensureConservativity_step duplicates l t k before).
  intros s' Hin.
  assert (wildcard_set_ s'
          ⊆ wildcard_set_
              (for_range (S k) (length l)
                 (ensureConservativity_step duplicates l t) s')) as Hrest.
  { apply (for_range_chain (λ x y, wildcard_set_ x ⊆ wildcard_set_ y));
      [done | intros ??? ? ?; by etrans |].
    intros i st _. apply ensureConservativity_step_wildcard. }
  by apply Hrest.
Qed.

(** C7, amended: if an alias-set name is in the after-sets of two entries
    of one list (arguments or returns), neither of them marked
    wildcard-after, then after classification every entry of either list
    whose after-set holds the name is in the wildcard set.  A warning is
    issued at every such occurrence of the name after the first one in its
    list: as many warnings as the name has occurrences beyond the first in
    the argument list, plus the same for the return list. *)
Theorem duplicate_names_become_wildcards schema a t i j arg_i arg_j :
  i ≠ j →
  getCorrectList schema t !! i = Some arg_i → tracks a arg_i = true →
  getCorrectList schema t !! j = Some arg_j → tracks a arg_j = true →
  (∀ t' k arg,
     getCorrectList schema t' !! k = Some arg → mentions a arg = true →
     mkSchemaArgument t' k ∈ wildcard_set_ (mkSchemaInfo schema))
  ∧ warnings_about a (construct schema).2
    = (occurrences a (arguments schema) - 1)
      + (occurrences a (returns schema) - 1).
Proof.
  intros Hij Hi Hai Hj Haj.
  assert (2 ≤ occurrences a (getCorrectList schema t)) as Htwo.
  { destruct (Nat.lt_total i j) as [? | [? | ?]]; [| done |].
    - by apply (occurrences_two a _ i j arg_i arg_j).
    - by apply (occurrences_two a _ j i arg_j arg_i). }
  unfold mkSchemaInfo, construct, initSchemaInfo. simpl.
  set (st0 := mkInitState _ ∅ []).
  set (st1 := init_schema_arguments (arguments schema) input st0).
  set (st2 := init_schema_arguments (returns schema) output st1).
  destruct (init_schema_arguments_duplicates a (arguments schema) input st0)
    as [Hd1 Hw1].
  destruct (init_schema_arguments_duplicates a (returns schema) output st1)
    as [Hd2 Hw2].
  fold st1 in Hd1, Hw1. fold st2 in Hd2, Hw2.
  assert (a ∈ init_duplicates st2) as Hdup.
  { apply Hd2. destruct t; simpl in Htwo; [left; apply Hd1 |]; by right. }
  split.
  - intros [] k arg Hk Hmention; simpl in Hk.
    + apply ensureConservativity_wildcard.
      by eapply ensureConservativity_hit.
    + by eapply ensureConservativity_hit.
  - rewrite Hw2, Hw1. done.
Qed.

End Classification.

(** ** [is_nondeterministic] *)

Section Nondeterminism.
Context `{Services : SchemaServices}.
Implicit Types s : SchemaInfo.

(** what the dispatcher reports for a schema: the operator is found under
    the name and overload name of the schema and carries the tag
    [nondeterministic_seeded] *)
Definition tagged_nondeterministic (schema : FunctionSchema) : bool :=
  match findOp (name schema) (overload_name schema) with
  | Some op => hasTag_nondeterministic_seeded op
  | None => false
  end.

(** C8: [is_nondeterministic] returns false for the dropout schema with
    [train] bound to false; in every other case (another schema, [train]
    not bound, or [train] bound to true) it returns what the dispatcher
    reports for the name and overload name of the schema. *)
Theorem is_nondeterministic_cases s :
  (schema_ s = dropout_schema →
   (∃ v, value_map_ s !! "train" = Some v ∧ toBool v = false) →
   is_nondeterministic s = false)
  ∧ (schema_ s ≠ dropout_schema
     ∨ value_map_ s !! "train" = None
     ∨ (∃ v, value_map_ s !! "train" = Some v ∧ toBool v = true) →
     is_nondeterministic s = tagged_nondeterministic (schema_ s)).
Proof.
  unfold is_nondeterministic, tagged_nondeterministic, count, bound_true.
  split.
  - intros -> (v & -> & ->). by rewrite !bool_decide_eq_true_2.
  - intros [Hsch | [-> | (v & -> & ->)]].
    + by rewrite bool_decide_eq_false_2.
    + rewrite (bool_decide_eq_false_2 (is_Some None)) by by intros [? ?].
      by rewrite andb_false_r.
    + by rewrite andb_false_r.
Qed.

End Nondeterminism.

(** * Further properties of the analysis *)

(** ** The alias maps, exactly *)

Section ExactMaps.
Context `{Services : SchemaServices}.
Implicit Types s : SchemaInfo.

(** the values bound to the arguments [i] and [j] alias, asked as
    [generateAliasMaps] asks: both are bound and
    [value(i).isAliasOf(value(j))] *)
Definition values_alias (s : SchemaInfo) (i j : nat) : bool :=
  match bound_value s i, bound_value s j with
  | Some vi, Some vj => isAliasOf vi vj
  | _, _ => false
  end.

Lemma values_alias_same_values s s' i j :
  schema_ s' = schema_ s → value_map_ s' = value_map_ s →
  values_alias s' i j = values_alias s i j.
Proof.
  intros Hsch Hval. unfold values_alias, bound_value. by rewrite Hsch, Hval.
Qed.

Lemma values_alias_extends s s' i j :
  extends s s' → values_alias s' i j = values_alias s i j.
Proof.
  intros E. apply values_alias_same_values; [apply E | apply E].
Qed.

Lemma nested_preserves (P : SchemaInfo → Prop) lo (lo' : nat → nat) hi hi'
  (step : nat → nat → SchemaInfo → SchemaInfo) s :
  P s →
  (∀ i j st, lo ≤ i < hi → lo' i ≤ j < hi' → P st → P (step i j st)) →
  P (for_range lo hi (λ i, for_range (lo' i) hi' (step i)) s).
Proof.
  intros Hs Hstep. apply for_range_preserves; [done |].
  intros i st Hi Hst. apply for_range_preserves; [done |].
  intros j st' Hj Hst'. by apply Hstep.
Qed.

(** a nested loop reaches the pair [(i, j)] in a state that extends the
    first one and satisfies every invariant of the iterations *)
Lemma nested_visit_with (Q P : SchemaInfo → Prop) (lo' : nat → nat) n n'
  (step : nat → nat → SchemaInfo → SchemaInfo) i j s :
  (∀ i j st, extends st (step i j st)) →
  (∀ i j st, Q st → Q (step i j st)) →
  Q s →
  i < n → lo' i ≤ j < n' →
  (∀ st, extends s st → Q st → P (step i j st)) →
  (∀ st st', P st → extends st st' → P st') →
  P (for_range 0 n (λ i, for_range (lo' i) n' (step i)) s).
Proof.
  intros Hstep HQ Hs Hi Hj Hat Hmono.
  rewrite (for_range_at i) by lia.
  set (before := for_range 0 i _ s).
  assert (extends s before ∧ Q before) as [Hbefore HQbefore].
  { unfold before.
    apply (nested_preserves (λ st, extends s st ∧ Q st));
      [split; [apply extends_refl | done] |].
    intros i' j' st _ _ [Hext Hq].
    split; [eapply extends_trans; [exact Hext | apply Hstep] | by apply HQ]. }
  rewrite (for_range_at j (lo' i)) by lia.
  set (inner := for_range (lo' i) j _ before).
  assert (extends s inner ∧ Q inner) as [Hinner HQinner].
  { unfold inner.
    apply (for_range_preserves (λ st, extends s st ∧ Q st)); [done |].
    intros j' st _ [Hext Hq].
    split; [eapply extends_trans; [exact Hext | apply Hstep] | by apply HQ]. }
  eapply Hmono; [by apply Hat |].
  eapply extends_trans; [| by apply nested_extends].
  apply (for_range_chain extends); [apply extends_refl | apply extends_trans |].
  intros; apply Hstep.
Qed.

Lemma fill_input_step_input_alias i j s :
  input_alias_map_ (fill_input_step i j s)
  = if decide (i = j) then alias_insert i {[ i ]} (input_alias_map_ s)
    else if values_alias s i j
         then alias_insert j {[ i ]}
                (alias_insert i {[ j ]} (input_alias_map_ s))
         else input_alias_map_ s.
Proof.
  rewrite fill_input_step_input. unfold values_alias. case_decide; [done |].
  by destruct (bound_value s i), (bound_value s j).
Qed.

(** what the input alias map may hold while it is filled for [s] *)
Definition input_sound (s st : SchemaInfo) : Prop :=
  extends (reset_alias_maps s) st
  ∧ ∀ i j, j ∈ alias_set (input_alias_map_ st) i →
           i < length (arguments (schema_ s))
           ∧ j < length (arguments (schema_ s))
           ∧ (i = j ∨ values_alias s (i `min` j) (i `max` j) = true).

Lemma fill_input_step_sound s a b st :
  a ≤ b → b < length (arguments (schema_ s)) →
  input_sound s st → input_sound s (fill_input_step a b st).
Proof.
  intros Hab Hb [Hext Hin]. split.
  { eapply extends_trans; [exact Hext | apply fill_input_step_extends]. }
  intros i j. rewrite fill_input_step_input_alias.
  assert (values_alias st a b = values_alias s a b) as ->.
  { rewrite (values_alias_extends _ _ _ _ Hext).
    by apply values_alias_same_values. }
  case_decide as Heq.
  - rewrite elem_of_alias_insert, elem_of_singleton.
    intros [Hold | (-> & _ & ->)]; [by apply Hin |].
    split; [lia | split; [lia | by left]].
  - destruct (values_alias s a b) eqn:Hal; [| by apply Hin].
    rewrite !elem_of_alias_insert, !elem_of_singleton.
    intros [[Hold | (-> & _ & ->)] | (-> & _ & ->)]; [by apply Hin | |].
    + split; [lia | split; [lia | right]].
      by rewrite Nat.min_l, Nat.max_r by lia.
    + split; [lia | split; [lia | right]].
      by rewrite Nat.min_r, Nat.max_l by lia.
Qed.

Lemma generateAliasMaps_input_sound s i j :
  j ∈ alias_set (input_alias_map_ (generateAliasMaps s)) i →
  i < length (arguments (schema_ s))
  ∧ j < length (arguments (schema_ s))
  ∧ (i = j ∨ values_alias s (i `min` j) (i `max` j) = true).
Proof.
  rewrite generateAliasMaps_input. unfold fill_input_alias_map.
  revert i j.
  enough (input_sound s
            (for_range 0 (length (arguments (schema_ (reset_alias_maps s))))
               (λ i, for_range i
                       (length (arguments (schema_ (reset_alias_maps s))))
                       (fill_input_step i))
               (reset_alias_maps s))) as [_ Hin] by exact Hin.
  apply (nested_preserves (input_sound s)).
  - split; [apply extends_refl |]. intros i j. simpl.
    by rewrite alias_set_replicate.
  - intros a b st _ [Hab Hb] Hst. apply fill_input_step_sound; done.
Qed.

Lemma values_alias_Some s i j :
  values_alias s i j = true →
  ∃ vi vj, bound_value s i = Some vi ∧ bound_value s j = Some vj
           ∧ isAliasOf vi vj = true.
Proof.
  unfold values_alias.
  destruct (bound_value s i) as [vi|], (bound_value s j) as [vj|]; try done.
  intros Hal. by exists vi, vj.
Qed.

Lemma generateAliasMaps_input_complete s i j :
  i < length (arguments (schema_ s))
  ∧ j < length (arguments (schema_ s))
  ∧ (i = j ∨ values_alias s (i `min` j) (i `max` j) = true) →
  j ∈ alias_set (input_alias_map_ (generateAliasMaps s)) i.
Proof.
  intros (Hi & Hj & [<- | Hal]); [by apply generateAliasMaps_reflexive |].
  apply values_alias_Some in Hal as (vi & vj & Hvi & Hvj & Hal).
  destruct (Nat.lt_total i j) as [Hlt | [-> | Hgt]].
  - rewrite Nat.min_l in Hvi by lia. rewrite Nat.max_r in Hvj by lia.
    by apply (generateAliasMaps_aliased s i j vi vj).
  - by apply generateAliasMaps_reflexive.
  - rewrite Nat.min_r in Hvi by lia. rewrite Nat.max_l in Hvj by lia.
    apply generateAliasMaps_symmetric.
    by apply (generateAliasMaps_aliased s j i vi vj).
Qed.

(** X1: after a regeneration, [j] is in the alias set of the argument [i]
    exactly when both are argument indices and either [i = j] or the two
    arguments are bound to values of which the one with the smaller index
    reports [isAliasOf] the other. *)
Theorem input_alias_map_exact s i j :
  j ∈ alias_set (input_alias_map_ (generateAliasMaps s)) i
  ↔ i < length (arguments (schema_ s))
    ∧ j < length (arguments (schema_ s))
    ∧ (i = j ∨ values_alias s (i `min` j) (i `max` j) = true).
Proof.
  split;
    [apply generateAliasMaps_input_sound
    | apply generateAliasMaps_input_complete].
Qed.

(** *** The output alias map *)

Definition output_sound (s st : SchemaInfo) : Prop :=
  extends (reset_alias_maps s) st
  ∧ ∀ j k, k ∈ alias_set (output_alias_map_ st) j →
           j < length (returns (schema_ s))
           ∧ ∃ i, i < length (arguments (schema_ s))
                  ∧ schema_may_alias (schema_ s) (in_ i) (out_ j) = true
                  ∧ k ∈ alias_set (input_alias_map_ st) i.

Lemma generateAliasMaps_output_sound s : output_sound s (generateAliasMaps s).
Proof.
  unfold generateAliasMaps, fill_output_alias_map.
  set (s2 := fill_container_wildcards _ _).
  assert (extends (reset_alias_maps s) s2) as Hs2.
  { eapply extends_trans; [apply fill_input_alias_map_extends |].
    apply fill_container_wildcards_extends. }
  apply (nested_preserves (output_sound s)).
  - split; [done |]. intros j k. unfold s2.
    rewrite (proj2 (fill_container_wildcards_maps _ _)).
    unfold fill_input_alias_map.
    assert (output_alias_map_
              (for_range 0 (length (arguments (schema_ s)))
                 (λ i, for_range i (length (arguments (schema_ s)))
                         (fill_input_step i)) (reset_alias_maps s))
            = output_alias_map_ (reset_alias_maps s)) as ->.
    { apply (nested_preserves
        (λ st, output_alias_map_ st
               = output_alias_map_ (reset_alias_maps s))); [done |].
      intros a b st _ _ <-. apply fill_input_step_output. }
    simpl. by rewrite alias_set_replicate.
  - intros i j st [_ Hi] [_ Hj] [Hext Hout].
    pose proof (ext_schema _ _ Hext) as Hsch. simpl in Hsch.
    split.
    { eapply extends_trans; [exact Hext | apply fill_output_step_extends]. }
    intros j' k. rewrite elem_of_fill_output_step, fill_output_step_input.
    intros [Hold | (Hdecl & -> & Hlen & Hk)]; [by apply Hout |].
    rewrite Hsch in Hdecl. split; [done |]. by exists i.
Qed.

Lemma generateAliasMaps_output_complete s j k :
  (j < length (returns (schema_ s))
   ∧ ∃ i, i < length (arguments (schema_ s))
          ∧ schema_may_alias (schema_ s) (in_ i) (out_ j) = true
          ∧ k ∈ alias_set (input_alias_map_ (generateAliasMaps s)) i) →
  k ∈ alias_set (output_alias_map_ (generateAliasMaps s)) j.
Proof.
  intros (Hj & i & Hi & Hdecl & Hk). revert Hk.
  unfold generateAliasMaps. rewrite fill_output_alias_map_input.
  set (s2 := fill_container_wildcards _ _). intros Hk.
  assert (extends (reset_alias_maps s) s2) as Hs2.
  { eapply extends_trans; [apply fill_input_alias_map_extends |].
    apply fill_container_wildcards_extends. }
  apply (nested_visit (λ st, k ∈ alias_set (output_alias_map_ st) j)
           (λ _, 0) _ _ fill_output_step i j);
    [apply fill_output_step_extends | done | lia | |].
  - intros st Hst. apply elem_of_fill_output_step. right.
    rewrite (ext_schema _ _ Hst), (ext_schema _ _ Hs2); simpl.
    split; [done | split; [done | split]].
    + rewrite (ext_output_length _ _ Hst), (ext_output_length _ _ Hs2).
      simpl. by rewrite length_replicate.
    + by apply (ext_input _ _ Hst).
  - intros st st' Hin Hext. by apply (ext_output _ _ Hext).
Qed.

(** X2: after a regeneration, the argument index [k] is in the alias set of
    the return [j] exactly when [j] is a return index and [k] is in the
    alias set of some argument that the schema declares may alias the
    return [j]. *)
Theorem output_alias_map_exact s j k :
  k ∈ alias_set (output_alias_map_ (generateAliasMaps s)) j
  ↔ j < length (returns (schema_ s))
    ∧ ∃ i, i < length (arguments (schema_ s))
           ∧ schema_may_alias (schema_ s) (in_ i) (out_ j) = true
           ∧ k ∈ alias_set (input_alias_map_ (generateAliasMaps s)) i.
Proof.
  split;
    [apply generateAliasMaps_output_sound
    | apply generateAliasMaps_output_complete].
Qed.

End ExactMaps.

(** ** How a regeneration extends the wildcard set *)

Section Wildcards.
Context `{Services : SchemaServices}.
Implicit Types s : SchemaInfo.

Lemma bound_value_reset s i :
  bound_value (reset_alias_maps s) i = bound_value s i.
Proof. done. Qed.

Lemma generateAliasMaps_after_input s :
  extends (fill_input_alias_map (length (arguments (schema_ s)))
             (reset_alias_maps s))
          (generateAliasMaps s).
Proof.
  unfold generateAliasMaps.
  eapply extends_trans; [apply fill_container_wildcards_extends |].
  apply fill_output_alias_map_extends.
Qed.

(** X3: if two arguments are bound to values that alias and one of them is
    in the wildcard set when a regeneration starts, both are in the
    wildcard set when it ends. *)
Theorem aliasing_a_wildcard_makes_a_wildcard s i j :
  i < j < length (arguments (schema_ s)) →
  values_alias s i j = true →
  in_ i ∈ wildcard_set_ s ∨ in_ j ∈ wildcard_set_ s →
  in_ i ∈ wildcard_set_ (generateAliasMaps s)
  ∧ in_ j ∈ wildcard_set_ (generateAliasMaps s).
Proof.
  intros Hij Hal Hw.
  enough (in_ i ∈ wildcard_set_
                    (fill_input_alias_map (length (arguments (schema_ s)))
                       (reset_alias_maps s))
          ∧ in_ j ∈ wildcard_set_
                      (fill_input_alias_map (length (arguments (schema_ s)))
                         (reset_alias_maps s))) as [Hi Hj].
  { split; by apply (ext_wildcard _ _ (generateAliasMaps_after_input s)). }
  unfold fill_input_alias_map.
  apply (nested_visit
           (λ st, in_ i ∈ wildcard_set_ st ∧ in_ j ∈ wildcard_set_ st)
           (λ i, i) _ _ fill_input_step i j);
    [apply fill_input_step_extends | lia | lia | |].
  - intros st Hst. unfold fill_input_step. rewrite decide_False by lia.
    apply values_alias_Some in Hal as (vi & vj & Hvi & Hvj & Hal).
    rewrite !(extends_bound_value _ _ _ Hst), !bound_value_reset.
    rewrite Hvi, Hvj, Hal. cbv zeta.
    assert (in_ i ∈ wildcard_set_ st ∨ in_ j ∈ wildcard_set_ st) as Hst_w.
    { destruct Hw; [left | right]; by apply (ext_wildcard _ _ Hst). }
    repeat case_decide; simpl in *;
      rewrite ?elem_of_union, ?elem_of_singleton; tauto.
  - intros st st' [Hi Hj] Hext.
    split; by apply (ext_wildcard _ _ Hext).
Qed.

(** the second pair of loops makes a held value a wildcard unless the
    first pair found the two values to alias *)
Lemma generateAliasMaps_held s i j vi vj :
  i < length (arguments (schema_ s)) →
  j < length (arguments (schema_ s)) →
  j ∉ alias_set (input_alias_map_ (generateAliasMaps s)) i →
  bound_value s i = Some vi → bound_value s j = Some vj →
  subValuesCount vi vj = true →
  in_ j ∈ wildcard_set_ (generateAliasMaps s).
Proof.
  intros Hi Hj Hnot Hvi Hvj Hsub.
  rewrite generateAliasMaps_input in Hnot.
  unfold generateAliasMaps.
  apply (ext_wildcard _ _ (fill_output_alias_map_extends _ _ _)).
  set (s1 := fill_input_alias_map _ _) in *.
  assert (extends (reset_alias_maps s) s1) as Hs1
    by apply fill_input_alias_map_extends.
  unfold fill_container_wildcards.
  apply (nested_visit_with
           (λ st, input_alias_map_ st = input_alias_map_ s1)
           (λ st, in_ j ∈ wildcard_set_ st) (λ _, 0) _ _ container_step i j);
    [apply container_step_extends | | done | done | lia | |].
  - intros a b st <-. apply container_step_maps.
  - intros st Hst Hmap. unfold container_step.
    rewrite Hmap, decide_False by done.
    rewrite !(extends_bound_value _ _ _ Hst), !(extends_bound_value _ _ _ Hs1).
    rewrite !bound_value_reset, Hvi, Hvj, Hsub. simpl.
    rewrite elem_of_union, elem_of_singleton. by left.
  - intros st st' Hin Hext. by apply (ext_wildcard _ _ Hext).
Qed.

(** X4: if the value bound to the argument [i] holds the value bound to
    another argument [j] among its sub-values, and the two values do not
    alias, the argument [j] is in the wildcard set after a regeneration. *)
Theorem held_value_becomes_wildcard s i j vi vj :
  i < length (arguments (schema_ s)) →
  j < length (arguments (schema_ s)) →
  i ≠ j →
  bound_value s i = Some vi → bound_value s j = Some vj →
  values_alias s (i `min` j) (i `max` j) = false →
  subValuesCount vi vj = true →
  in_ j ∈ wildcard_set_ (generateAliasMaps s).
Proof.
  intros Hi Hj Hne Hvi Hvj Hnal Hsub.
  apply (generateAliasMaps_held s i j vi vj); try done.
  intros (_ & _ & [? | Hal])%generateAliasMaps_input_sound; [done |].
  by rewrite Hal in Hnal.
Qed.

Lemma fill_output_step_inputs a i j s :
  type a = input →
  a ∈ wildcard_set_ (fill_output_step i j s) → a ∈ wildcard_set_ s.
Proof.
  intros Ha [Hin | [-> _]]%fill_output_step_wildcard; done.
Qed.

(** X5: after a regeneration, a return that the schema declares may alias
    an argument in the wildcard set is in the wildcard set itself. *)
Theorem return_of_a_wildcard_is_a_wildcard s i j :
  i < length (arguments (schema_ s)) →
  j < length (returns (schema_ s)) →
  schema_may_alias (schema_ s) (in_ i) (out_ j) = true →
  in_ i ∈ wildcard_set_ (generateAliasMaps s) →
  out_ j ∈ wildcard_set_ (generateAliasMaps s).
Proof.
  intros Hi Hj Hdecl. unfold generateAliasMaps, fill_output_alias_map.
  set (s2 := fill_container_wildcards _ _).
  assert (schema_ s2 = schema_ s) as Hsch.
  { unfold s2.
    rewrite (ext_schema _ _ (fill_container_wildcards_extends _ _)).
    by rewrite (ext_schema _ _ (fill_input_alias_map_extends _ _)). }
  intros Hin.
  assert (in_ i ∈ wildcard_set_ s2) as Hin2.
  { revert Hin.
    apply (nested_preserves
      (λ st, in_ i ∈ wildcard_set_ st → in_ i ∈ wildcard_set_ s2));
      [done |].
    intros a b st _ _ Hst Hab. apply Hst.
    by apply (fill_output_step_inputs _ a b). }
  apply (nested_visit (λ st, out_ j ∈ wildcard_set_ st)
           (λ _, 0) _ _ fill_output_step i j);
    [apply fill_output_step_extends | done | lia | |].
  - intros st Hst. unfold fill_output_step.
    rewrite (ext_schema _ _ Hst), Hsch, Hdecl.
    rewrite decide_True by by apply (ext_wildcard _ _ Hst).
    simpl. rewrite elem_of_union, elem_of_singleton. by left.
  - intros st st' Hw Hext. by apply (ext_wildcard _ _ Hext).
Qed.

End Wildcards.

(** ** Classification, exactly *)

Section ClassificationExact.
Context `{Services : SchemaServices}.
Implicit Types (s : SchemaInfo) (x : SchemaArgument).

(** the entry carries an annotation marked wildcard-after *)
Definition wildcard_after (arg : Argument) : bool :=
  match alias_info arg with
  | Some ai => isWildcardAfter ai
  | None => false
  end.

(** the entry [x] of the list [l] of role [t] satisfies [p] *)
Definition entry_where (p : Argument → bool) (l : list Argument)
  (t : SchemaArgType) (x : SchemaArgument) : Prop :=
  type x = t ∧ ∃ arg, l !! index x = Some arg ∧ p arg = true.

Lemma init_schema_arguments_step_sets l t i acc arg :
  l !! i = Some arg →
  wildcard_set_ (init_info (init_schema_arguments_step l t i acc).2)
  = (if wildcard_after arg then {[ mkSchemaArgument t i ]} else ∅)
    ∪ wildcard_set_ (init_info acc.2)
  ∧ container_set_ (init_info (init_schema_arguments_step l t i acc).2)
    = (if is_container (arg_type arg) then {[ mkSchemaArgument t i ]} else ∅)
      ∪ container_set_ (init_info acc.2).
Proof.
  intros Hi. unfold init_schema_arguments_step, wildcard_after. rewrite Hi.
  destruct (alias_info arg) as [ai|];
    [destruct (isWildcardAfter ai) |];
    destruct (is_container _); simpl; rewrite ?track_set_frame;
    split; set_solver.
Qed.

Lemma init_schema_arguments_sets l t st x :
  (x ∈ wildcard_set_ (init_info (init_schema_arguments l t st))
   ↔ x ∈ wildcard_set_ (init_info st) ∨ entry_where wildcard_after l t x)
  ∧ (x ∈ container_set_ (init_info (init_schema_arguments l t st))
     ↔ x ∈ container_set_ (init_info st)
       ∨ entry_where (λ arg, is_container (arg_type arg)) l t x).
Proof.
  unfold init_schema_arguments.
  set (P := λ (k : nat) (acc : gset string * InitState),
    (x ∈ wildcard_set_ (init_info acc.2)
     ↔ x ∈ wildcard_set_ (init_info st)
       ∨ (index x < k ∧ entry_where wildcard_after l t x))
    ∧ (x ∈ container_set_ (init_info acc.2)
       ↔ x ∈ container_set_ (init_info st)
         ∨ (index x < k
            ∧ entry_where (λ arg, is_container (arg_type arg)) l t x))).
  assert (P (length l)
            (for_range 0 (length l) (init_schema_arguments_step l t) (∅, st)))
    as [Hw Hc].
  { apply for_range_ind; [lia | | ].
    - split; simpl; (split; [by left | intros [? | [? _]]; [done | lia]]).
    - intros i acc [_ Hi] [Hw Hc].
      destruct (lookup_lt_is_Some_2 l i Hi) as [arg Harg].
      destruct (init_schema_arguments_step_sets l t i acc arg Harg)
        as [Ew Ec].
      split.
      + rewrite Ew, elem_of_union, Hw. unfold entry_where.
        destruct x as [tx ix]; simpl.
        destruct (wildcard_after arg) eqn:Hwa.
        * rewrite elem_of_singleton. split.
          -- intros [[= -> ->] | [? | (? & ?)]];
               [right; split; [lia | split; [done | by exists arg]]
               | by left | right; split; [lia | done]].
          -- intros [? | (Hlt & Hx)]; [right; by left |].
             destruct (decide (ix = i)) as [-> | ?];
               [left; by destruct Hx as [-> _]
               | right; right; split; [lia | done]].
        * rewrite elem_of_empty. split.
          -- intros [[] | [? | (? & ?)]];
               [by left | right; split; [lia | done]].
          -- intros [? | (Hlt & Hx)]; [right; by left |].
             right; right. split; [| done].
             destruct (decide (ix = i)) as [-> | ?]; [| lia].
             destruct Hx as (_ & arg' & Harg' & Hp).
             rewrite Harg in Harg'. injection Harg' as <-. congruence.
      + rewrite Ec, elem_of_union, Hc. unfold entry_where.
        destruct x as [tx ix]; simpl.
        destruct (is_container (arg_type arg)) eqn:Hca.
        * rewrite elem_of_singleton. split.
          -- intros [[= -> ->] | [? | (? & ?)]];
               [right; split; [lia | split; [done | by exists arg]]
               | by left | right; split; [lia | done]].
          -- intros [? | (Hlt & Hx)]; [right; by left |].
             destruct (decide (ix = i)) as [-> | ?];
               [left; by destruct Hx as [-> _]
               | right; right; split; [lia | done]].
        * rewrite elem_of_empty. split.
          -- intros [[] | [? | (? & ?)]];
               [by left | right; split; [lia | done]].
          -- intros [? | (Hlt & Hx)]; [right; by left |].
             right; right. split; [| done].
             destruct (decide (ix = i)) as [-> | ?]; [| lia].
             destruct Hx as (_ & arg' & Harg' & Hp).
             rewrite Harg in Harg'. injection Harg' as <-. congruence. }
  assert (∀ p, entry_where p l t x → index x < length l) as Hlt.
  { intros p (_ & arg & Harg & _). by eapply lookup_lt_Some. }
  split; [rewrite Hw | rewrite Hc];
    (split; (intros [? | ?]; [by left | right])); try tauto;
    (split; [by eapply Hlt | done]).
Qed.

(** the entry mentions a name that is in [duplicates] *)
Definition mentions_one_of (duplicates : gset string) (arg : Argument)
  : bool :=
  match alias_info arg with
  | Some ai =>
      existsb (λ n, bool_decide (n ∈ duplicates)) (elements (afterSets ai))
  | None => false
  end.

Lemma existsb_one_of (duplicates : gset string) (names : list string) :
  existsb (λ n, bool_decide (n ∈ duplicates)) names = true
  ↔ ∃ n, n ∈ names ∧ n ∈ duplicates.
Proof.
  rewrite existsb_exists. split.
  - intros (n & Hn%list_elem_of_In & Hd%bool_decide_eq_true). by exists n.
  - intros (n & Hn & Hd). exists n.
    split; [by apply list_elem_of_In | by apply bool_decide_eq_true].
Qed.

Lemma ensure_entry_exact (duplicates : gset string) x y names s :
  y ∈ wildcard_set_
        (foldl (λ s' set, if decide (set ∈ duplicates)
                          then wildcard_insert x s' else s') s names)
  ↔ y ∈ wildcard_set_ s ∨ (y = x ∧ ∃ n, n ∈ names ∧ n ∈ duplicates).
Proof.
  revert s. induction names as [|n names IH]; intros s; simpl.
  { split; [by left | intros [? | (_ & ? & ?%elem_of_nil & _)]; done]. }
  rewrite IH. case_decide as Hn; simpl.
  - rewrite elem_of_union, elem_of_singleton. split.
    + intros [[-> | ?] | (-> & m & Hm & Hd)].
      * right. split; [done |]. exists n. split; [left | done].
      * by left.
      * right. split; [done |]. exists m. split; [by right | done].
    + intros [? | (-> & _)]; [left; by right | left; by left].
  - split.
    + intros [? | (-> & m & Hm & Hd)]; [by left |].
      right. split; [done |]. exists m. split; [by right | done].
    + intros [? | (-> & m & [-> | Hm]%elem_of_cons & Hd)];
        [by left | done |].
      right. split; [done |]. by exists m.
Qed.

Lemma ensureConservativity_step_container duplicates l t i s :
  container_set_ (ensureConservativity_step duplicates l t i s)
  = container_set_ s.
Proof.
  unfold ensureConservativity_step.
  destruct (l !! i) as [arg|]; [| done].
  destruct (alias_info arg) as [ai|]; [| done].
  generalize (elements (afterSets ai)) as names. intros names. revert s.
  induction names as [|n names IH]; intros s; simpl; [done |].
  rewrite IH. by case_decide.
Qed.

Lemma ensureConservativity_exact duplicates l t s x :
  (x ∈ wildcard_set_ (ensureConservativity duplicates l t s)
   ↔ x ∈ wildcard_set_ s ∨ entry_where (mentions_one_of duplicates) l t x)
  ∧ container_set_ (ensureConservativity duplicates l t s)
    = container_set_ s.
Proof.
  unfold ensureConservativity.
  set (P := λ (k : nat) (st : SchemaInfo),
    (x ∈ wildcard_set_ st
     ↔ x ∈ wildcard_set_ s
       ∨ (index x < k ∧ entry_where (mentions_one_of duplicates) l t x))
    ∧ container_set_ st = container_set_ s).
  assert (P (length l)
            (for_range 0 (length l)
               (ensureConservativity_step duplicates l t) s)) as [Hw Hc].
  { apply for_range_ind; [lia | | ].
    - split; [| done]. split; [by left | intros [? | [? _]]; [done | lia]].
    - intros i st [_ Hi] [Hw Hc].
      split; [| by rewrite ensureConservativity_step_container].
      destruct (lookup_lt_is_Some_2 l i Hi) as [arg Harg].
      assert (x ∈ wildcard_set_ (ensureConservativity_step duplicates l t i st)
              ↔ x ∈ wildcard_set_ st
                ∨ (x = mkSchemaArgument t i
                   ∧ mentions_one_of duplicates arg = true)) as ->.
      { unfold ensureConservativity_step, mentions_one_of. rewrite Harg.
        destruct (alias_info arg) as [ai|]; [| naive_solver].
        rewrite ensure_entry_exact, existsb_one_of. done. }
      rewrite Hw. unfold entry_where. destruct x as [tx ix]; simpl.
      split.
      + intros [[? | (? & ?)] | ([= -> ->] & Hm)].
        * by left.
        * right. split; [lia | done].
        * right. split; [lia | split; [done | by exists arg]].
      + intros [? | (Hlt & Hx)]; [left; by left |].
        destruct (decide (ix = i)) as [-> | ?].
        * right. destruct Hx as (-> & arg' & Harg' & Hp).
          rewrite Harg in Harg'. injection Harg' as <-. done.
        * left; right. split; [lia | done]. }
  split; [| done]. rewrite Hw.
  split; (intros [? | ?]; [by left | right]); [tauto |].
  split; [| done]. destruct H as (_ & arg & Harg & _).
  by eapply lookup_lt_Some.
Qed.

(** X6: after construction, an entry is in the container set exactly when
    the contained types of its type are a non-empty set. *)
Theorem container_set_exact schema x :
  x ∈ container_set_ (mkSchemaInfo schema)
  ↔ ∃ arg, getCorrectList schema (type x) !! index x = Some arg
           ∧ is_container (arg_type arg) = true.
Proof.
  unfold mkSchemaInfo, construct, initSchemaInfo. simpl.
  rewrite (proj2 (ensureConservativity_exact _ _ _ _ x)).
  rewrite (proj2 (ensureConservativity_exact _ _ _ _ x)).
  rewrite (proj2 (init_schema_arguments_sets _ _ _ x)).
  rewrite (proj2 (init_schema_arguments_sets _ _ _ x)). simpl.
  unfold entry_where. destruct x as [[] i]; simpl; split.
  - intros [[[]%elem_of_empty | (_ & ?)] | (? & _)]; done.
  - intros ?. left; right. done.
  - intros [[[]%elem_of_empty | (? & _)] | (_ & ?)]; done.
  - intros ?. by right.
Qed.

(** X7: after construction, an entry is in the wildcard set exactly when it
    carries an annotation that is marked wildcard-after, or whose after-set
    holds a name that is tracked in two or more entries of the argument
    list or in two or more entries of the return list. *)
Theorem wildcard_set_exact schema x :
  x ∈ wildcard_set_ (mkSchemaInfo schema)
  ↔ ∃ arg ai,
      getCorrectList schema (type x) !! index x = Some arg
      ∧ alias_info arg = Some ai
      ∧ (isWildcardAfter ai = true
         ∨ ∃ n, n ∈ afterSets ai
                ∧ (2 ≤ occurrences n (arguments schema)
                   ∨ 2 ≤ occurrences n (returns schema))).
Proof.
  unfold mkSchemaInfo, construct, initSchemaInfo. simpl.
  set (st0 := mkInitState _ ∅ []).
  set (st1 := init_schema_arguments (arguments schema) input st0).
  set (st2 := init_schema_arguments (returns schema) output st1).
  assert (∀ n, n ∈ init_duplicates st2
               ↔ 2 ≤ occurrences n (arguments schema)
                 ∨ 2 ≤ occurrences n (returns schema)) as Hdup.
  { intros n. unfold st2.
    rewrite (proj1 (init_schema_arguments_duplicates n _ output st1)).
    unfold st1.
    rewrite (proj1 (init_schema_arguments_duplicates n _ input st0)).
    simpl. rewrite elem_of_empty. tauto. }
  assert (∀ arg, mentions_one_of (init_duplicates st2) arg = true
                 ↔ ∃ ai, alias_info arg = Some ai
                         ∧ ∃ n, n ∈ afterSets ai
                                ∧ (2 ≤ occurrences n (arguments schema)
                                   ∨ 2 ≤ occurrences n (returns schema)))
    as Hment.
  { intros arg. unfold mentions_one_of.
    destruct (alias_info arg) as [ai|]; [| naive_solver].
    rewrite existsb_one_of. split.
    - intros (n & Hn%elem_of_elements & Hd%Hdup). exists ai. naive_solver.
    - intros (? & [= <-] & n & Hn & Hd). exists n.
      split; [by apply elem_of_elements | by apply Hdup]. }
  assert (∀ arg, wildcard_after arg = true
                 ↔ ∃ ai, alias_info arg = Some ai ∧ isWildcardAfter ai = true)
    as Hwa.
  { intros arg. unfold wildcard_after.
    destruct (alias_info arg) as [ai|]; naive_solver. }
  rewrite (proj1 (ensureConservativity_exact _ _ _ _ x)).
  rewrite (proj1 (ensureConservativity_exact _ _ _ _ x)).
  pose proof (proj1 (init_schema_arguments_sets (returns schema) output
                       st1 x)) as H2.
  pose proof (proj1 (init_schema_arguments_sets (arguments schema) input
                       st0 x)) as H1.
  fold st1 in H1, H2. fold st2 in H2. rewrite H2, H1. simpl.
  rewrite elem_of_empty. unfold entry_where.
  destruct x as [[] i]; simpl; split.
  - intros [[[[[] | (_ & arg & Harg & (ai & ? & ?)%Hwa)] | (? & _)]
            | (_ & arg & Harg & (ai & ? & ?)%Hment)] | (? & _)]; try done;
      exists arg, ai; naive_solver.
  - intros (arg & ai & Harg & Hai & [Hw | Hn]).
    + left; left; left; right. split; [done |]. exists arg.
      split; [done |]. apply Hwa. eauto.
    + left; right. split; [done |]. exists arg.
      split; [done |]. apply Hment. eauto.
  - intros [[[[[] | (? & _)] | (_ & arg & Harg & (ai & ? & ?)%Hwa)]
            | (? & _)] | (_ & arg & Harg & (ai & ? & ?)%Hment)]; try done;
      exists arg, ai; naive_solver.
  - intros (arg & ai & Harg & Hai & [Hw | Hn]).
    + left; left; right. split; [done |]. exists arg.
      split; [done |]. apply Hwa. eauto.
    + right. split; [done |]. exists arg.
      split; [done |]. apply Hment. eauto.
Qed.

End ClassificationExact.

(** ** What a call leaves alone *)

Section Frames.
Context `{Services : SchemaServices}.
Implicit Types s : SchemaInfo.

(** everything but the bound values and the staleness mark *)
Definition derived (s : SchemaInfo)
  : FunctionSchema * gset SchemaArgument * gset SchemaArgument
    * list (gset nat) * list (gset nat) :=
  (schema_ s, wildcard_set_ s, container_set_ s, input_alias_map_ s,
   output_alias_map_ s).

(** a computation that touches nothing but the values and the mark *)
Definition binds_only {A : Type} (c : M A) : Prop :=
  ∀ s, derived (after c s) = derived s.

Lemma binds_only_addArgumentValue n value :
  binds_only (addArgumentValue n value).
Proof.
  intros s. unfold after. rewrite addArgumentValue_run.
  by case_bool_decide.
Qed.

Lemma binds_only_addArgumentValues value_list :
  binds_only (addArgumentValues value_list).
Proof.
  intros s. unfold after, addArgumentValues, bind, get, TORCH_INTERNAL_ASSERT.
  simpl. case_bool_decide; simpl; [| done].
  apply (for_range_preserves (λ st, derived st = derived s)); [done |].
  intros i st _ <-. unfold addArgumentValues_step.
  destruct (value_list !! i) as [[v|]|]; [| done | done].
  by destruct (arguments (schema_ st) !! i).
Qed.

Lemma binds_only_for_each {A} (l : list A) (body : A → M unit) :
  (∀ x, binds_only (body x)) → binds_only (for_each l body).
Proof.
  intros Hbody. induction l as [|x l IH]; intros s; simpl; [done |].
  unfold after, bind. specialize (Hbody x s). unfold after in Hbody.
  destruct (body x s) as [[[] | msg] s1]; simpl in *; [| done].
  rewrite <- Hbody. apply IH.
Qed.

Lemma binds_only_addArgumentValues_map values :
  binds_only (addArgumentValues_map values).
Proof.
  apply binds_only_for_each. intros x. apply binds_only_addArgumentValue.
Qed.

Lemma refresh_container s : container_set_ (refresh s) = container_set_ s.
Proof.
  unfold refresh. destruct (alias_maps_current_ s); [done |].
  apply generateAliasMaps_container.
Qed.

Lemma refresh_when_current s : alias_maps_current_ s = true → refresh s = s.
Proof. intros Hcur. unfold refresh. by rewrite Hcur. Qed.

(** the calls that bind values; the others are queries *)
Definition is_binding_call (c : Call) : bool :=
  match c with
  | call_addArgumentValue _ _ | call_addArgumentValues _
  | call_addArgumentValues_map _ => true
  | _ => false
  end.

Lemma perform_query c s :
  is_binding_call c = false → perform c s = s ∨ perform c s = refresh s.
Proof.
  destruct c; simpl; try done; intros _.
  - apply query_is_mutable.
  - apply query_is_mutable_arg.
  - apply query_is_mutable_name.
  - apply query_may_alias.
  - apply query_may_contain_alias.
Qed.

Lemma perform_binding c s :
  is_binding_call c = true → derived (perform c s) = derived s.
Proof.
  destruct c; simpl; try done; intros _.
  - apply binds_only_addArgumentValue.
  - apply binds_only_addArgumentValues.
  - apply binds_only_addArgumentValues_map.
Qed.

Lemma perform_container c s : container_set_ (perform c s) = container_set_ s.
Proof.
  destruct (is_binding_call c) eqn:Hc.
  - pose proof (perform_binding c s Hc) as Hd. unfold derived in Hd. congruence.
  - destruct (perform_query c s Hc) as [-> | ->]; [done |].
    apply refresh_container.
Qed.

Lemma perform_wildcard c s : wildcard_set_ s ⊆ wildcard_set_ (perform c s).
Proof.
  destruct (is_binding_call c) eqn:Hc.
  - pose proof (perform_binding c s Hc) as Hd. unfold derived in Hd.
    by replace (wildcard_set_ (perform c s)) with (wildcard_set_ s)
      by congruence.
  - destruct (perform_query c s Hc) as [-> | ->]; [done |].
    apply refresh_wildcard.
Qed.

Lemma reachable_container schema s :
  reachable schema s →
  container_set_ s = container_set_ (mkSchemaInfo schema).
Proof.
  induction 1 as [|c s _ IH]; [done |]. by rewrite perform_container.
Qed.

Lemma reachable_wildcard schema s :
  reachable schema s →
  wildcard_set_ (mkSchemaInfo schema) ⊆ wildcard_set_ s.
Proof.
  induction 1 as [|c s _ IH]; [done |].
  etrans; [exact IH | apply perform_wildcard].
Qed.

(** X8: no call, failed or not, changes the schema or the container set or
    removes an entry from the wildcard set; a binding call changes neither
    the wildcard set nor the alias maps; a query changes no bound value,
    and leaves the object untouched when its alias maps are current. *)
Theorem calls_keep_classification c s :
  schema_ (perform c s) = schema_ s
  ∧ container_set_ (perform c s) = container_set_ s
  ∧ wildcard_set_ s ⊆ wildcard_set_ (perform c s)
  ∧ (is_binding_call c = true →
     wildcard_set_ (perform c s) = wildcard_set_ s
     ∧ input_alias_map_ (perform c s) = input_alias_map_ s
     ∧ output_alias_map_ (perform c s) = output_alias_map_ s)
  ∧ (is_binding_call c = false →
     value_map_ (perform c s) = value_map_ s
     ∧ (alias_maps_current_ s = true → perform c s = s)).
Proof.
  split; [| split; [apply perform_container |
                    split; [apply perform_wildcard |]]].
  - destruct (is_binding_call c) eqn:Hc.
    + pose proof (perform_binding c s Hc) as Hd. unfold derived in Hd.
      congruence.
    + destruct (perform_query c s Hc) as [-> | ->]; [done |].
      apply refresh_schema.
  - split; intros Hc.
    + pose proof (perform_binding c s Hc) as Hd. unfold derived in Hd.
      repeat split; congruence.
    + destruct (perform_query c s Hc) as [-> | ->]; [done |].
      split; [apply refresh_values | apply refresh_when_current].
Qed.

End Frames.

(** ** What the queries answer *)

Section Answers.
Context `{Services : SchemaServices}.
Implicit Types s : SchemaInfo.

(** a Boolean answer, a failed assertion counting as no *)
Definition truth (r : Result bool) : bool :=
  match r with
  | Ok b => b
  | AssertFail _ => false
  end.

Lemma existsb_pointwise_in {A : Type} (f g : A → bool) (l : list A) :
  (∀ x, x ∈ l → f x = g x) → existsb f l = existsb g l.
Proof.
  induction l as [|x l IH]; intros Hfg; simpl; [done |].
  rewrite (Hfg x) by left. rewrite IH; [done |].
  intros y Hy. apply Hfg. by right.
Qed.

(** what [is_mutable] answers for the argument [i] once the maps are
    current *)
Definition mutable_input (s : SchemaInfo) (i : nat) : bool :=
  existsb (mutable_through s) (elements (alias_set (input_alias_map_ s) i)).

Lemma is_mutable_arg_input s i :
  i < length (arguments (schema_ s)) →
  is_mutable_arg (in_ i) s = (Ok (mutable_input (refresh s) i), refresh s).
Proof.
  intros Hi. rewrite is_mutable_arg_run. simpl.
  by rewrite bool_decide_eq_true_2.
Qed.

Lemma is_mutable_from_run indices s :
  (∀ i, i ∈ indices → i < length (arguments (schema_ s))) →
  is_mutable_from indices s
  = (Ok (existsb (mutable_input (refresh s)) indices),
     if indices is [] then s else refresh s).
Proof.
  revert s. induction indices as [|i rest IH]; intros s Hin; [done |].
  simpl. unfold bind. rewrite is_mutable_arg_input by (apply Hin; left).
  destruct (mutable_input (refresh s) i); simpl; [done |].
  rewrite IH.
  - rewrite refresh_idemp. by destruct rest.
  - intros k Hk. rewrite refresh_schema. apply Hin. by right.
Qed.

Lemma is_mutable_run s :
  is_mutable s
  = (Ok (existsb (mutable_input (refresh s))
           (seq 0 (length (arguments (schema_ s))))),
     if seq 0 (length (arguments (schema_ s))) is [] then s else refresh s).
Proof.
  unfold is_mutable, bind, get. simpl. apply is_mutable_from_run.
  intros i Hi%elem_of_seq. lia.
Qed.

(** X9: [is_mutable()] never fails, and it answers yes exactly when
    [is_mutable] answers yes for one of the arguments of the schema. *)
Theorem is_mutable_any_argument s :
  answer is_mutable s
  = Ok (existsb (λ i, truth (answer (is_mutable_arg (in_ i)) s))
          (seq 0 (length (arguments (schema_ s))))).
Proof.
  unfold answer. rewrite is_mutable_run. simpl. f_equal.
  apply existsb_pointwise_in. intros i Hi%elem_of_seq.
  by rewrite is_mutable_arg_input by lia.
Qed.

Lemma may_alias_run lhs rhs s :
  ∃ s1, may_alias lhs rhs s
        = (Ok (schema_may_alias (schema_ s) lhs rhs
               || types_can_alias s lhs rhs
                  && may_alias_current (refresh s) lhs rhs), s1)
        ∧ refresh s1 = refresh s.
Proof.
  unfold may_alias, bind, get; simpl.
  destruct (schema_may_alias _ _ _); [by exists s |].
  destruct (types_can_alias s lhs rhs); simpl; [| by exists s].
  exists (refresh s). split; [done | apply refresh_idemp].
Qed.

Lemma may_contain_alias_answer lhs rhs bidirectional s :
  answer (may_contain_alias lhs rhs bidirectional) s
  = Ok (schema_may_contain_alias (schema_ s) lhs rhs
        || truth (answer (may_alias lhs rhs) s)
        || mayContainAliasImpl (refresh s) lhs rhs
        || bidirectional && mayContainAliasImpl (refresh s) rhs lhs).
Proof.
  unfold answer, may_contain_alias, bind, get; simpl.
  destruct (schema_may_contain_alias _ _ _); [done |].
  destruct (may_alias_run lhs rhs s) as (s1 & -> & Hs1). simpl.
  destruct (_ || _); [done |].
  unfold ensure_current. simpl. rewrite Hs1.
  destruct bidirectional; simpl; [done |]. by rewrite orb_false_r.
Qed.

(** the queries of the class *)
Definition asked (c : Call) : option (M bool) :=
  match c with
  | call_is_mutable => Some is_mutable
  | call_is_mutable_arg argument => Some (is_mutable_arg argument)
  | call_is_mutable_name n => Some (is_mutable_name n)
  | call_may_alias lhs rhs => Some (may_alias lhs rhs)
  | call_may_contain_alias lhs rhs bidirectional =>
      Some (may_contain_alias lhs rhs bidirectional)
  | _ => None
  end.

Lemma answer_refresh c q s :
  asked c = Some q → answer q (refresh s) = answer q s.
Proof.
  destruct c; simpl; try done; intros [= <-].
  - unfold answer. rewrite !is_mutable_run. simpl.
    by rewrite refresh_schema, refresh_idemp.
  - unfold answer. rewrite !is_mutable_arg_run.
    rewrite refresh_schema, refresh_idemp. by case_bool_decide.
  - unfold answer. rewrite !is_mutable_name_run, refresh_schema.
    destruct (argumentIndexWithName _ _); [| done].
    rewrite !is_mutable_arg_run.
    rewrite refresh_schema, refresh_idemp. by case_bool_decide.
  - rewrite !may_alias_answer.
    by rewrite refresh_schema, types_can_alias_refresh, refresh_idemp.
  - rewrite !may_contain_alias_answer, !may_alias_answer.
    by rewrite refresh_schema, types_can_alias_refresh, refresh_idemp.
Qed.

(** X10: asking a question does not change the answer to any question:
    after a query, failed or not, every query answers as it would have
    answered before. *)
Theorem queries_do_not_change_answers c c' q s :
  is_binding_call c' = false →
  asked c = Some q →
  answer q (perform c' s) = answer q s.
Proof.
  intros Hc' Hq. destruct (perform_query c' s Hc') as [-> | ->]; [done |].
  by apply (answer_refresh c).
Qed.

(** the object after a sequence of calls *)
Definition perform_all (calls : list Call) (s : SchemaInfo) : SchemaInfo :=
  foldl (λ st c, perform c st) s calls.

Lemma perform_schema c s : schema_ (perform c s) = schema_ s.
Proof.
  destruct (is_binding_call c) eqn:Hc.
  - pose proof (perform_binding c s Hc) as Hd. unfold derived in Hd.
    congruence.
  - destruct (perform_query c s Hc) as [-> | ->]; [done |].
    apply refresh_schema.
Qed.

(** the test of [mayContainAliasImpl] reads the schema, the container set
    and the wildcard set; the first two never change and the third only
    grows *)
Lemma mayContainAliasImpl_mono s s' lhs rhs :
  schema_ s' = schema_ s →
  container_set_ s' = container_set_ s →
  wildcard_set_ s ⊆ wildcard_set_ s' →
  mayContainAliasImpl s lhs rhs = true →
  mayContainAliasImpl s' lhs rhs = true.
Proof.
  intros Hsch Hcont Hw. unfold mayContainAliasImpl, alias_types_of.
  rewrite Hsch, Hcont.
  intros [[-> ->]%andb_true_iff Hr%bool_decide_eq_true]%andb_true_iff.
  simpl. apply bool_decide_eq_true. by apply Hw.
Qed.

Lemma mayContainAliasImpl_perform_all calls s lhs rhs :
  mayContainAliasImpl s lhs rhs = true →
  mayContainAliasImpl (perform_all calls s) lhs rhs = true.
Proof.
  revert s. induction calls as [|c calls IH]; intros s Himpl; [done |].
  simpl. apply IH.
  apply (mayContainAliasImpl_mono s);
    [apply perform_schema | apply perform_container
    | apply perform_wildcard | done].
Qed.

Lemma may_contain_alias_comm schema s lhs rhs :
  settled schema s →
  schema_may_contain_alias schema lhs rhs
  = schema_may_contain_alias schema rhs lhs →
  schema_may_alias schema lhs rhs = schema_may_alias schema rhs lhs →
  types_can_alias s lhs rhs = types_can_alias s rhs lhs →
  answer (may_contain_alias lhs rhs true) s
  = answer (may_contain_alias rhs lhs true) s.
Proof.
  intros Hs Hcontain Hdecl Htypes. pose proof (proj1 Hs) as Hsch.
  rewrite !may_contain_alias_answer, !may_alias_answer, Hsch.
  rewrite Hcontain, Hdecl, Htypes.
  rewrite (may_alias_current_comm _ lhs rhs (settled_symmetric _ _ Hs)).
  f_equal. rewrite !andb_true_l.
  by rewrite <- !orb_assoc,
    (orb_comm (mayContainAliasImpl (refresh s) lhs rhs)).
Qed.

(** X11: for references within the lists of a schema, on every reachable
    state: the bidirectional [may_contain_alias] answers the same for a
    pair in either order, provided the static checks of the schema do;
    and once the test of [mayContainAliasImpl] holds on the stored
    container and wildcard sets, [may_contain_alias] answers yes after
    every further sequence of calls, whatever they bind, because the
    container set never changes and the wildcard set never loses an
    entry. *)
Theorem may_contain_alias_symmetric_and_kept schema s lhs rhs :
  reachable schema s →
  valid_ref schema lhs → valid_ref schema rhs →
  (schema_may_contain_alias schema lhs rhs
   = schema_may_contain_alias schema rhs lhs →
   schema_may_alias schema lhs rhs = schema_may_alias schema rhs lhs →
   types_can_alias s lhs rhs = types_can_alias s rhs lhs →
   answer (may_contain_alias lhs rhs true) s
   = answer (may_contain_alias rhs lhs true) s)
  ∧ (mayContainAliasImpl s lhs rhs = true →
     ∀ calls bidirectional,
       answer (may_contain_alias lhs rhs bidirectional) (perform_all calls s)
       = Ok true).
Proof.
  intros Hs%reachable_settled _ _.
  split; [by apply may_contain_alias_comm |].
  intros Himpl calls b.
  apply (mayContainAliasImpl_perform_all calls) in Himpl.
  rewrite may_contain_alias_answer.
  rewrite (mayContainAliasImpl_mono (perform_all calls s) (refresh _)
             lhs rhs);
    [by rewrite orb_true_r
    | apply refresh_schema | apply refresh_container
    | apply refresh_wildcard | done].
Qed.

End Answers.

(** ** The answers on every reachable state *)

Section OnReachable.
Context `{Services : SchemaServices}.
Implicit Types s : SchemaInfo.

Lemma settled_input_alias_set schema s i j :
  settled schema s →
  j ∈ alias_set (input_alias_map_ (refresh s)) i
  ↔ i < length (arguments schema)
    ∧ j < length (arguments schema)
    ∧ (i = j ∨ values_alias s (i `min` j) (i `max` j) = true).
Proof.
  intros Hs. pose proof Hs as (s0 & -> & Hsch & Hval)%settled_regenerated.
  destruct Hs as [<- _]. rewrite <- Hsch.
  rewrite <- (values_alias_same_values s s0) by done.
  split;
    [apply generateAliasMaps_input_sound
    | apply generateAliasMaps_input_complete].
Qed.

Lemma settled_output_alias_set schema s j k :
  settled schema s →
  k ∈ alias_set (output_alias_map_ (refresh s)) j
  ↔ j < length (returns schema)
    ∧ ∃ i, i < length (arguments schema)
           ∧ schema_may_alias schema (in_ i) (out_ j) = true
           ∧ k ∈ alias_set (input_alias_map_ (refresh s)) i.
Proof.
  intros Hs. pose proof Hs as (s0 & -> & Hsch & Hval)%settled_regenerated.
  destruct Hs as [<- _]. rewrite <- Hsch.
  split;
    [apply (proj2 (generateAliasMaps_output_sound s0))
    | apply generateAliasMaps_output_complete].
Qed.


(** *** [is_mutable] *)

(** some argument that is [i] itself, or is bound to a value aliasing the
    value bound to [i], passes the test of the lambda of [is_mutable] *)
Definition mutable_via (s : SchemaInfo) (i : nat) : bool :=
  existsb
    (λ k, (bool_decide (i = k) || values_alias s (i `min` k) (i `max` k))
          && mutable_through s k)
    (seq 0 (length (arguments (schema_ s)))).

Lemma mutable_input_true s i :
  mutable_input s i = true
  ↔ ∃ k, k ∈ alias_set (input_alias_map_ s) i ∧ mutable_through s k = true.
Proof.
  unfold mutable_input. rewrite existsb_exists.
  split; intros (k & Hk & Hm); exists k; (split; [| done]).
  - by apply list_elem_of_In, elem_of_elements in Hk.
  - by apply list_elem_of_In, elem_of_elements.
Qed.

Lemma mutable_via_true s i :
  mutable_via s i = true
  ↔ ∃ k, k < length (arguments (schema_ s))
         ∧ (i = k ∨ values_alias s (i `min` k) (i `max` k) = true)
         ∧ mutable_through s k = true.
Proof.
  unfold mutable_via. rewrite existsb_exists. split.
  - intros (k & Hk%in_seq & [Hor Hm]%andb_true_iff). exists k.
    split; [lia | split; [| done]].
    apply orb_true_iff in Hor as [Heq%bool_decide_eq_true | Hal]; auto.
  - intros (k & Hk & Hor & Hm). exists k. split; [apply in_seq; lia |].
    rewrite Hm, andb_true_r. apply orb_true_iff.
    destruct Hor as [-> | Hal]; [left; by apply bool_decide_eq_true | by right].
Qed.

Lemma mutable_through_refresh s k :
  mutable_through (refresh s) k = mutable_through s k.
Proof. apply mutable_through_ext; [apply refresh_schema | apply refresh_values]. Qed.

Lemma settled_mutable_input schema s i :
  settled schema s →
  mutable_input (refresh s) i = mutable_via s i.
Proof.
  intros Hs. apply eq_true_iff_eq.
  rewrite mutable_input_true, mutable_via_true.
  pose proof (proj1 Hs) as Hsch. rewrite Hsch.
  split.
  - intros (k & Hk & Hm).
    apply (settled_input_alias_set schema) in Hk as (_ & Hk & Hor); [| done].
    exists k. by rewrite <- mutable_through_refresh.
  - intros (k & Hk & Hor & Hm). exists k.
    rewrite mutable_through_refresh. split; [| done].
    apply (settled_input_alias_set schema); [done |].
    split; [| done].
    destruct Hor as [-> | Hal]; [done |].
    apply values_alias_Some in Hal as (_ & vk & _ & Hvk & _).
    unfold bound_value in Hvk. rewrite Hsch in Hvk.
    destruct (arguments schema !! (i `max` k)) eqn:E; [| done].
    apply lookup_lt_Some in E. lia.
Qed.

(** X13: on every reachable state, [is_mutable] of the argument [i] is yes
    exactly when [i] itself passes the test of the lambda (the training
    special case or the write mark of the schema), or an argument does
    whose bound value aliases the value bound to [i]; asked by name it
    answers for the index [argumentIndexWithName] gives. *)
Theorem is_mutable_argument_exact schema s i :
  reachable schema s →
  i < length (arguments schema) →
  answer (is_mutable_arg (in_ i)) s = Ok (mutable_via s i)
  ∧ ∀ n, argumentIndexWithName schema n = Some i →
         answer (is_mutable_name n) s = Ok (mutable_via s i).
Proof.
  intros Hs%reachable_settled Hi. pose proof (proj1 Hs) as Hsch.
  assert (answer (is_mutable_arg (in_ i)) s = Ok (mutable_via s i)) as Harg.
  { unfold answer. rewrite is_mutable_arg_input by by rewrite Hsch.
    simpl. f_equal. by apply (settled_mutable_input schema). }
  split; [done |]. intros n Hn. unfold answer in *.
  by rewrite is_mutable_name_run, Hsch, Hn.
Qed.

(** X14: on every reachable state, [is_mutable] of the return [j] is yes
    exactly when [is_mutable] is yes of some argument that the schema
    declares may alias the return. *)
Theorem is_mutable_return_exact schema s j :
  reachable schema s →
  j < length (returns schema) →
  answer (is_mutable_arg (out_ j)) s
  = Ok (existsb
          (λ i, schema_may_alias schema (in_ i) (out_ j) && mutable_via s i)
          (seq 0 (length (arguments schema)))).
Proof.
  intros Hs%reachable_settled Hj. pose proof (proj1 Hs) as Hsch.
  unfold answer. rewrite is_mutable_arg_run. simpl.
  rewrite bool_decide_eq_true_2 by by rewrite Hsch.
  simpl. f_equal. apply eq_true_iff_eq. rewrite !existsb_exists. split.
  - intros (k & Hk & Hm). apply list_elem_of_In, elem_of_elements in Hk.
    apply (settled_output_alias_set schema) in Hk
      as (_ & i & Hi & Hdecl & Hk); [| done].
    exists i. split; [apply in_seq; lia |]. rewrite Hdecl. simpl.
    rewrite <- (settled_mutable_input schema) by done.
    apply mutable_input_true. by exists k.
  - intros (i & Hi%in_seq & [Hdecl Hvia]%andb_true_iff).
    rewrite <- (settled_mutable_input schema) in Hvia by done.
    apply mutable_input_true in Hvia as (k & Hk & Hm). exists k.
    split; [| done]. apply list_elem_of_In, elem_of_elements.
    apply (settled_output_alias_set schema); [done |].
    split; [done |]. exists i. split; [lia | done].
Qed.

(** X15: with no value bound, [is_mutable] of an argument of a schema that
    is not in the table of training operators is the statically declared
    mutability of that argument. *)
Theorem is_mutable_static_without_values schema s i :
  reachable schema s →
  value_map_ s = ∅ →
  is_training_op schema = false →
  i < length (arguments schema) →
  answer (is_mutable_arg (in_ i)) s = Ok (schema_is_mutable schema (in_ i)).
Proof.
  intros Hs%reachable_settled Hval Hop Hi. pose proof (proj1 Hs) as Hsch.
  unfold answer. rewrite is_mutable_arg_input by by rewrite Hsch.
  simpl. f_equal. rewrite (settled_mutable_input schema) by done.
  assert (∀ k, mutable_through s k = schema_is_mutable schema (in_ k)) as Hm.
  { intros k. unfold mutable_through. rewrite Hsch, Hop.
    by rewrite andb_false_r. }
  assert (∀ a b, values_alias s a b = false) as Hal.
  { intros a b. unfold values_alias, bound_value. rewrite Hval.
    destruct (arguments (schema_ s) !! a); [| done].
    by rewrite lookup_empty. }
  apply eq_true_iff_eq. rewrite mutable_via_true. split.
  - intros (k & _ & [-> | Hk] & Hk'); [by rewrite <- Hm |].
    by rewrite Hal in Hk.
  - intros Hmut. exists i. rewrite Hsch, Hm. auto.
Qed.

(** *** [may_alias] *)

(** X16: on every reachable state, [may_alias] of two arguments is yes
    exactly when the schema declares it, or their types can alias and
    either both are in the wildcard set once the maps are current, or they
    are the same argument, or they are bound to values that alias. *)
Theorem may_alias_arguments_exact schema s i j :
  reachable schema s →
  i < length (arguments schema) →
  j < length (arguments schema) →
  answer (may_alias (in_ i) (in_ j)) s
  = Ok (schema_may_alias schema (in_ i) (in_ j)
        || types_can_alias s (in_ i) (in_ j)
           && (bool_decide (in_ i ∈ wildcard_set_ (refresh s))
               && bool_decide (in_ j ∈ wildcard_set_ (refresh s))
               || bool_decide (i = j)
               || values_alias s (i `min` j) (i `max` j))).
Proof.
  intros Hs%reachable_settled Hi Hj. pose proof (proj1 Hs) as Hsch.
  rewrite may_alias_answer, Hsch. do 3 f_equal.
  unfold may_alias_current. simpl.
  destruct (_ && _); [done |]. simpl.
  apply eq_true_iff_eq.
  rewrite bool_decide_eq_true, (settled_input_alias_set schema) by done.
  rewrite orb_true_iff, bool_decide_eq_true. tauto.
Qed.

(** X17: on every reachable state, [may_alias] of an argument and a return
    is yes exactly when the schema declares it, or their types can alias
    and either both are in the wildcard set once the maps are current, or
    the schema declares that the return may alias an argument that is the
    given one or is bound to a value aliasing its value. *)
Theorem may_alias_argument_return_exact schema s i j :
  reachable schema s →
  i < length (arguments schema) →
  j < length (returns schema) →
  answer (may_alias (in_ i) (out_ j)) s
  = Ok (schema_may_alias schema (in_ i) (out_ j)
        || types_can_alias s (in_ i) (out_ j)
           && (bool_decide (in_ i ∈ wildcard_set_ (refresh s))
               && bool_decide (out_ j ∈ wildcard_set_ (refresh s))
               || existsb
                    (λ k, schema_may_alias schema (in_ k) (out_ j)
                          && (bool_decide (k = i)
                              || values_alias s (k `min` i) (k `max` i)))
                    (seq 0 (length (arguments schema))))).
Proof.
  intros Hs%reachable_settled Hi Hj. pose proof (proj1 Hs) as Hsch.
  rewrite may_alias_answer, Hsch. do 3 f_equal.
  unfold may_alias_current. simpl.
  destruct (_ && _); [done |]. simpl.
  apply eq_true_iff_eq.
  rewrite bool_decide_eq_true, (settled_output_alias_set schema) by done.
  rewrite existsb_exists. split.
  - intros (_ & k & Hk & Hdecl & Hin). exists k.
    split; [apply in_seq; lia |]. rewrite Hdecl. simpl.
    apply (settled_input_alias_set schema) in Hin as (_ & _ & Hor); [| done].
    apply orb_true_iff.
    destruct Hor as [-> | Hal]; [left; by apply bool_decide_eq_true | by right].
  - intros (k & Hk%in_seq & [Hdecl Hor]%andb_true_iff).
    split; [done |]. exists k. split; [lia | split; [done |]].
    apply (settled_input_alias_set schema); [done |].
    split; [lia | split; [done |]].
    apply orb_true_iff in Hor as [Heq%bool_decide_eq_true | Hal]; auto.
Qed.

(** *** [may_contain_alias] *)

Lemma same_bound_value s s0 i :
  schema_ s0 = schema_ s → value_map_ s0 = value_map_ s →
  bound_value s0 i = bound_value s i.
Proof. intros Hsch Hval. unfold bound_value. by rewrite Hsch, Hval. Qed.

(** X18: on every reachable state, if the value bound to a container
    argument [i] holds the value bound to another argument [j] among its
    sub-values without aliasing it, and the types contained in [i] can
    alias the type of [j], then [j] is a wildcard once the maps are
    current, and [may_contain_alias] of [i] and [j] is yes, as is the
    bidirectional question the other way round. *)
Theorem held_value_may_be_contained schema s i j vi vj :
  reachable schema s →
  i < length (arguments schema) →
  j < length (arguments schema) →
  i ≠ j →
  bound_value s i = Some vi → bound_value s j = Some vj →
  values_alias s (i `min` j) (i `max` j) = false →
  subValuesCount vi vj = true →
  in_ i ∈ container_set_ (mkSchemaInfo schema) →
  canAliasTypeSetsAlias
    (getAliasTypeSetContainedTypes (alias_types_of s (in_ i)))
    (alias_types_of s (in_ j)) = true →
  in_ j ∈ wildcard_set_ (refresh s)
  ∧ (∀ bidirectional,
       answer (may_contain_alias (in_ i) (in_ j) bidirectional) s = Ok true)
  ∧ answer (may_contain_alias (in_ j) (in_ i) true) s = Ok true.
Proof.
  intros Hreach Hi Hj Hne Hvi Hvj Hnal Hsub Hcont Htypes.
  pose proof (reachable_settled _ _ Hreach) as Hs.
  pose proof (proj1 Hs) as Hsch.
  assert (in_ j ∈ wildcard_set_ (refresh s)) as Hw.
  { pose proof Hs as (s0 & Href & Hsch0 & Hval0)%settled_regenerated.
    rewrite Href.
    apply (generateAliasMaps_held s0 i j vi vj);
      try (by rewrite Hsch0, Hsch);
      try (by rewrite (same_bound_value s s0)); [| done].
    rewrite <- Href.
    intros (_ & _ & [? | Hal])%(settled_input_alias_set schema);
      [done | by rewrite Hal in Hnal | done]. }
  assert (mayContainAliasImpl (refresh s) (in_ i) (in_ j) = true) as Himpl.
  { unfold mayContainAliasImpl, alias_types_of.
    rewrite refresh_schema, refresh_container.
    unfold alias_types_of in Htypes. rewrite Htypes.
    rewrite (reachable_container schema s) by done.
    by rewrite !bool_decide_eq_true_2. }
  split; [done |].
  split; [intros b |]; rewrite may_contain_alias_answer, Himpl; simpl;
    by rewrite ?orb_true_r.
Qed.

End OnReachable.

(** ** Binding values *)

Section Bindings.
Context `{Services : SchemaServices}.
Implicit Types s : SchemaInfo.

(** the value the positional list gives the argument [i], if any *)
Definition positional (value_list : list (option IValue)) (i : nat)
  : option IValue :=
  mjoin (value_list !! i).

(** the object after the first [k] iterations of the loop of
    [addArgumentValues] *)
Definition bound_first (value_list : list (option IValue)) (s : SchemaInfo)
  (k : nat) (st : SchemaInfo) : Prop :=
  derived st = derived s
  ∧ alias_maps_current_ st
    = (if existsb (λ v, bool_decide (is_Some v)) (take k value_list)
       then false else alias_maps_current_ s)
  ∧ (∀ n, n ∉ arg_name <$> arguments (schema_ s) →
          value_map_ st !! n = value_map_ s !! n)
  ∧ ∀ i, i < length (arguments (schema_ s)) →
         bound_value st i
         = if decide (i < k)
           then match positional value_list i with
                | Some v => Some v
                | None => bound_value s i
                end
           else bound_value s i.

Lemma existsb_snoc {A : Type} (f : A → bool) (l : list A) (x : A) :
  existsb f (l ++ [ x ]) = existsb f l || f x.
Proof. by rewrite existsb_app, existsb_one. Qed.

Lemma addArgumentValues_step_bound value_list s k st :
  NoDup (arg_name <$> arguments (schema_ s)) →
  k < length value_list → length value_list ≤ length (arguments (schema_ s)) →
  bound_first value_list s k st →
  bound_first value_list s (S k) (addArgumentValues_step value_list k st).
Proof.
  intros Hnodup Hk Hlen (Hd & Hcur & Hout & Hin).
  assert (schema_ st = schema_ s) as Hsch
    by (unfold derived in Hd; congruence).
  destruct (lookup_lt_is_Some_2 value_list k Hk) as [v Hv].
  destruct (lookup_lt_is_Some_2 (arguments (schema_ s)) k ltac:(lia))
    as [a Ha].
  unfold bound_first, addArgumentValues_step. rewrite Hv, Hsch, Ha.
  rewrite (take_S_r _ _ _ Hv), existsb_snoc.
  destruct v as [v|]; simpl.
  - split; [done |]. split; [by rewrite orb_true_r |]. split.
    + intros n Hn. simpl. rewrite lookup_insert_ne; [by apply Hout |].
      intros <-. apply Hn. apply list_elem_of_fmap. exists a.
      split; [done |]. by eapply list_elem_of_lookup_2.
    + intros i Hi. unfold bound_value at 1. simpl. rewrite Hsch.
      destruct (lookup_lt_is_Some_2 (arguments (schema_ s)) i Hi)
        as [b Hb].
      rewrite Hb. destruct (decide (i = k)) as [-> | Hik].
      * rewrite decide_True by lia. unfold positional. rewrite Hv. simpl.
        replace b with a by congruence. apply lookup_insert_eq.
      * rewrite lookup_insert_ne.
        -- specialize (Hin i Hi). unfold bound_value at 1 in Hin.
           rewrite Hsch, Hb in Hin. rewrite Hin.
           destruct (decide (i < k)), (decide (i < S k)); try done; lia.
        -- intros Heq. apply Hik. symmetry.
           apply (NoDup_lookup _ _ _ (arg_name b) Hnodup);
             rewrite list_lookup_fmap; [| by rewrite Hb].
           rewrite Ha. simpl. by rewrite Heq.
  - rewrite orb_false_r. split; [done |]. split; [done |].
    split; [done |]. intros i Hi. rewrite (Hin i Hi).
    destruct (decide (i = k)) as [-> | Hik].
    + rewrite decide_False, decide_True by lia.
      unfold positional. by rewrite Hv.
    + destruct (decide (i < k)), (decide (i < S k)); try done; lia.
Qed.

(** X19: binding a positional list no longer than the argument list of a
    schema whose argument names are distinct succeeds; afterwards the
    argument at each position holds the value the list gives it, or the
    value it had if the list has none there; no other name is bound or
    re-bound; and the alias maps are marked stale exactly when the list
    gives some value. *)
Theorem addArgumentValues_binds_positions s value_list :
  NoDup (arg_name <$> arguments (schema_ s)) →
  length value_list ≤ length (arguments (schema_ s)) →
  answer (addArgumentValues value_list) s = Ok tt
  ∧ (∀ i, i < length (arguments (schema_ s)) →
          bound_value (after (addArgumentValues value_list) s) i
          = match positional value_list i with
            | Some v => Some v
            | None => bound_value s i
            end)
  ∧ (∀ n, n ∉ arg_name <$> arguments (schema_ s) →
          value_map_ (after (addArgumentValues value_list) s) !! n
          = value_map_ s !! n)
  ∧ alias_maps_current_ (after (addArgumentValues value_list) s)
    = (if existsb (λ v, bool_decide (is_Some v)) value_list
       then false else alias_maps_current_ s).
Proof.
  intros Hnodup Hlen.
  unfold answer, after, addArgumentValues, bind, get, TORCH_INTERNAL_ASSERT.
  simpl. rewrite bool_decide_eq_true_2 by done. simpl.
  split; [done |].
  assert (bound_first value_list s (length value_list)
            (for_range 0 (length value_list)
               (addArgumentValues_step value_list) s))
    as (_ & Hcur & Hout & Hin).
  { apply (for_range_ind (bound_first value_list s)); [lia | |].
    - split; [done |]. split; [done |]. split; [done |].
      intros i _. by rewrite decide_False by lia.
    - intros k st [_ Hk] Hst. by apply addArgumentValues_step_bound. }
  rewrite firstn_all in Hcur. split; [| by split].
  intros i Hi. rewrite (Hin i Hi). case_decide as Hik; [done |].
  unfold positional. by rewrite lookup_ge_None_2 by lia.
Qed.

Lemma for_each_addArgumentValue_run (l : list (string * IValue)) s :
  NoDup l.*1 →
  (∀ key_pair, key_pair ∈ l → declared_name (schema_ s) key_pair.1) →
  for_each l (λ key_pair, addArgumentValue key_pair.1 key_pair.2) s
  = (Ok tt,
     if l is [] then s
     else set_alias_maps_current false
            (set_value_map (list_to_map l ∪ value_map_ s) s)).
Proof.
  revert s. induction l as [|[n v] l IH]; intros s Hnodup Hdecl; [done |].
  simpl. unfold bind. rewrite addArgumentValue_run.
  rewrite bool_decide_eq_true_2
    by (apply argumentIndexWithName_declared, (Hdecl (n, v)); left).
  rewrite fmap_cons in Hnodup. apply NoDup_cons in Hnodup as [Hn Hnodup].
  cbn [fst snd].
  rewrite IH; [| done | intros kv Hkv; apply Hdecl; by right].
  f_equal.
  assert (<[ n := v ]> (list_to_map l) ∪ value_map_ s
          = list_to_map l ∪ <[ n := v ]> (value_map_ s)) as ->.
  { rewrite <- insert_union_l. apply insert_union_r.
    by apply not_elem_of_list_to_map_1. }
  destruct l as [|kv l]; [| reflexivity].
  by rewrite list_to_map_nil, (left_id_L ∅ (∪)).
Qed.

(** X20: binding a map whose keys are all argument names succeeds;
    afterwards a name holds the value the map gives it, or the value it
    had if the map has none for it; a map with no entry leaves the object
    untouched, any other marks the alias maps stale. *)
Theorem addArgumentValues_map_binds s values :
  (∀ n, is_Some (values !! n) → declared_name (schema_ s) n) →
  answer (addArgumentValues_map values) s = Ok tt
  ∧ value_map_ (after (addArgumentValues_map values) s)
    = values ∪ value_map_ s
  ∧ (values = ∅ → after (addArgumentValues_map values) s = s)
  ∧ (values ≠ ∅ →
     alias_maps_current_ (after (addArgumentValues_map values) s) = false).
Proof.
  intros Hdecl. unfold answer, after, addArgumentValues_map.
  rewrite for_each_addArgumentValue_run.
  - simpl. split; [done |].
    destruct (map_to_list values) as [|kv l] eqn:E.
    + apply map_to_list_empty_iff in E as ->.
      split; [by rewrite (left_id_L ∅ (∪)) |]. by split.
    + rewrite <- E, list_to_map_to_list. simpl. split; [done |].
      split; [| done]. intros ->. by rewrite map_to_list_empty in E.
  - apply NoDup_fst_map_to_list.
  - intros [n v] Hin%elem_of_map_to_list. apply Hdecl. by exists v.
Qed.

(** X21: a name can be bound exactly when [hasInputArgumentNamed] says
    yes for it, and exactly those names can be asked of [is_mutable]. *)
Theorem hasInputArgumentNamed_guards s n value :
  (hasInputArgumentNamed s n = true
   ↔ answer (addArgumentValue n value) s = Ok tt)
  ∧ (hasInputArgumentNamed s n = true
     ↔ ∃ b, answer (is_mutable_name n) s = Ok b).
Proof.
  assert (hasInputArgumentNamed s n = true ↔ declared_name (schema_ s) n)
    as ->.
  { split; [| apply hasInputArgumentNamed_declared].
    intros (arg & Hin & Hn%bool_decide_eq_true)%existsb_exists.
    apply list_elem_of_fmap. exists arg.
    split; [done | by apply list_elem_of_In]. }
  rewrite <- argumentIndexWithName_declared. unfold answer.
  rewrite addArgumentValue_run, is_mutable_name_run. split.
  - case_bool_decide; simpl; [done |]. split; [done | intros [=]].
  - destruct (argumentIndexWithName (schema_ s) n) as [i|] eqn:E.
    + split; [intros _ | done].
      rewrite is_mutable_arg_input by by eapply argumentIndexWithName_lt.
      eauto.
    + split; [done | by intros [b [=]]].
Qed.

End Bindings.

(** ** The training flag *)

Section TrainingFlag.
Context `{Services : SchemaServices}.
Implicit Types s : SchemaInfo.

(** every bound name is the name of an argument *)
Definition bound_names_declared (schema : FunctionSchema) (s : SchemaInfo)
  : Prop :=
  ∀ n, is_Some (value_map_ s !! n) → declared_name schema n.

Lemma addArgumentValue_names schema n value s :
  schema_ s = schema → bound_names_declared schema s →
  bound_names_declared schema (after (addArgumentValue n value) s).
Proof.
  intros Hsch Hs. unfold after. rewrite addArgumentValue_run.
  case_bool_decide as Hn; simpl; [| done].
  intros m. simpl. rewrite lookup_insert. case_decide as Hm; [| apply Hs].
  intros _. subst m. rewrite Hsch in Hn.
  by apply argumentIndexWithName_declared.
Qed.

Lemma addArgumentValues_names schema value_list s :
  schema_ s = schema → bound_names_declared schema s →
  bound_names_declared schema (after (addArgumentValues value_list) s).
Proof.
  intros Hsch Hs.
  unfold after, addArgumentValues, bind, get, TORCH_INTERNAL_ASSERT.
  simpl. case_bool_decide; simpl; [| done].
  enough ((λ st, schema_ st = schema ∧ bound_names_declared schema st)
            (for_range 0 (length value_list)
               (addArgumentValues_step value_list) s)) as [_ ?]; [done |].
  apply for_range_preserves; [done |].
  intros i st _ [Hst Hnames]. unfold addArgumentValues_step.
  destruct (value_list !! i) as [[v|]|]; [| done | done].
  destruct (arguments (schema_ st) !! i) as [a|] eqn:Ha; [| done].
  split; [done |]. intros m. simpl. rewrite lookup_insert.
  case_decide as Hm; [| apply Hnames].
  intros _. subst m. apply list_elem_of_fmap. exists a.
  split; [done |]. rewrite Hst in Ha. by eapply list_elem_of_lookup_2.
Qed.

Lemma for_each_addArgumentValue_names schema (l : list (string * IValue)) s :
  schema_ s = schema → bound_names_declared schema s →
  bound_names_declared schema
    (after (for_each l (λ key_pair,
                          addArgumentValue key_pair.1 key_pair.2)) s).
Proof.
  revert s. induction l as [|[n v] l IH]; intros s Hsch Hs; [done |].
  simpl. unfold after, bind.
  pose proof (addArgumentValue_names schema n v s Hsch Hs) as Hnames.
  pose proof (binds_only_addArgumentValue n v s) as Hd.
  unfold after in Hnames, Hd.
  destruct (addArgumentValue n v s) as [[[] | msg] s1]; simpl in *; [| done].
  apply IH; [| done]. unfold derived in Hd. congruence.
Qed.

Lemma reachable_names schema s :
  reachable schema s → bound_names_declared schema s.
Proof.
  induction 1 as [|c s Hs IH].
  - intros n. rewrite mkSchemaInfo_values, lookup_empty. by intros [? ?].
  - pose proof (proj1 (reachable_settled _ _ Hs)) as Hsch.
    destruct (is_binding_call c) eqn:Hc.
    + destruct c; simpl in *; try done.
      * by apply addArgumentValue_names.
      * by apply addArgumentValues_names.
      * by apply for_each_addArgumentValue_names.
    + intros n. destruct (perform_query c s Hc) as [-> | ->]; [apply IH |].
      rewrite refresh_values. apply IH.
Qed.

Lemma hasInputArgumentNamed_undeclared s n :
  ¬ declared_name (schema_ s) n → hasInputArgumentNamed s n = false.
Proof.
  intros Hn. apply not_true_is_false.
  intros (arg & Hin & Harg%bool_decide_eq_true)%existsb_exists.
  apply Hn, list_elem_of_fmap. exists arg.
  split; [done | by apply list_elem_of_In].
Qed.

Lemma flag_on_undeclared schema s n :
  schema_ s = schema → bound_names_declared schema s →
  ¬ declared_name schema n → flag_on s n = false.
Proof.
  intros Hsch Hs Hn. unfold flag_on, bound_true.
  rewrite hasInputArgumentNamed_undeclared by by rewrite Hsch.
  destruct (value_map_ s !! n) as [v|] eqn:E; [| done].
  destruct Hn. apply Hs. by rewrite E.
Qed.

Lemma flag_on_bound_value s n v :
  value_map_ s !! n = Some v → flag_on s n = toBool v.
Proof.
  intros Hv. unfold flag_on, count, bound_true. rewrite Hv.
  rewrite bool_decide_eq_true_2 by done. simpl. by rewrite andb_false_r.
Qed.

(** each schema of the table declares one of the three flags only *)
Lemma other_flags_undeclared training_op flag other :
  training_op ∈ getTrainingOps →
  flag ∈ [ "training"; "train"; "use_input_stats" ] →
  declared_name training_op flag →
  other ∈ [ "training"; "train"; "use_input_stats" ] →
  other ≠ flag →
  ¬ declared_name training_op other.
Proof.
  intros Hop Hflag Hdecl Hother Hne Hdecl'.
  unfold declared_name in Hdecl, Hdecl'.
  pose proof (bool_decide_pack _ Hdecl) as Hflag_ok.
  pose proof (bool_decide_pack _ Hdecl') as Hother_ok.
  clear Hdecl Hdecl'. unfold getTrainingOps in Hop.
  repeat (apply elem_of_cons in Hop as [-> | Hop]);
    [.. | by apply elem_of_nil in Hop];
    (repeat (apply elem_of_cons in Hflag as [-> | Hflag]);
     [.. | by apply elem_of_nil in Hflag]);
    try (vm_compute in Hflag_ok; contradiction);
    (repeat (apply elem_of_cons in Hother as [-> | Hother]);
     [.. | by apply elem_of_nil in Hother]);
    try done; vm_compute in Hother_ok; contradiction.
Qed.

(** the argument [k] is named [running_mean] or [running_var], as the
    lambda of [is_mutable] asks *)
Definition running_stat (schema : FunctionSchema) (k : nat) : bool :=
  let n := from_option arg_name "" (arguments schema !! k) in
  bool_decide (n = "running_mean") || bool_decide (n = "running_var").

(** some argument other than the running statistics is declared mutable
    by the schema and is bound to a value that aliases the value bound to
    the argument [i] *)
Definition written_alias (s : SchemaInfo) (i : nat) : bool :=
  existsb
    (λ k, negb (running_stat (schema_ s) k)
          && values_alias s (i `min` k) (i `max` k)
          && schema_is_mutable (schema_ s) (in_ k))
    (seq 0 (length (arguments (schema_ s)))).

(** the three flags as the lambda reads them, when the flag of the schema
    is bound *)
Lemma flags_of_training_op training_op flag s value :
  training_op ∈ getTrainingOps →
  flag ∈ [ "training"; "train"; "use_input_stats" ] →
  declared_name training_op flag →
  reachable training_op s →
  value_map_ s !! flag = Some value →
  flag_on s "training" || flag_on s "train" || flag_on s "use_input_stats"
  = toBool value.
Proof.
  intros Hop Hflag Hdecl Hs Hv.
  pose proof (proj1 (reachable_settled _ _ Hs)) as Hsch.
  pose proof (reachable_names _ _ Hs) as Hnames.
  assert (∀ other, other ∈ [ "training"; "train"; "use_input_stats" ] →
                   flag_on s other
                   = if decide (other = flag) then toBool value else false)
    as Hon.
  { intros other Hother. case_decide as Heq.
    - subst other. by apply flag_on_bound_value.
    - apply (flag_on_undeclared training_op); [done | done |].
      by apply (other_flags_undeclared training_op flag). }
  rewrite !Hon by (repeat constructor).
  repeat (apply elem_of_cons in Hflag as [-> | Hflag]);
    [.. | by apply elem_of_nil in Hflag];
    repeat case_decide; try done; by rewrite ?orb_false_r.
Qed.

Lemma mutable_through_training_op s k :
  is_training_op (schema_ s) = true →
  mutable_through s k
  = if running_stat (schema_ s) k
    then flag_on s "training" || flag_on s "train"
         || flag_on s "use_input_stats"
    else schema_is_mutable (schema_ s) (in_ k).
Proof.
  intros Hop. unfold mutable_through, running_stat. cbv zeta.
  by rewrite Hop, andb_true_r.
Qed.

Lemma running_stat_index schema stat i :
  stat ∈ [ "running_mean"; "running_var" ] →
  argumentIndexWithName schema stat = Some i →
  running_stat schema i = true.
Proof.
  intros Hstat [_ Hname]%argumentIndexWithName_from_Some.
  rewrite Nat.sub_0_r in Hname. unfold running_stat. cbv zeta.
  destruct (arguments schema !! i) as [arg|]; [| done].
  simpl in *. injection Hname as ->.
  repeat (apply elem_of_cons in Hstat as [-> | Hstat]);
    [.. | by apply elem_of_nil in Hstat]; done.
Qed.

Lemma values_alias_unbound s i k :
  bound_value s i = None → values_alias s (i `min` k) (i `max` k) = false.
Proof.
  intros Hi. unfold values_alias.
  destruct (Nat.le_gt_cases i k).
  - rewrite Nat.min_l by done. by rewrite Hi.
  - rewrite Nat.max_l by lia. rewrite Hi.
    by destruct (bound_value s (i `min` k)).
Qed.

(** C1, amended: for every schema of the table of normalization
    operators, with the flag of the schema ([training], [train] or
    [use_input_stats]) and [running_mean] or [running_var], on every state
    reached from a new object: the flag can be bound; while the flag is not
    bound, [is_mutable] on the statistic returns true, and so it does when
    the flag is bound to true; when the flag is bound to false, [is_mutable]
    on the statistic returns true exactly when some argument other than the
    two statistics is declared mutable by the schema and is bound to a value
    that aliases the value of the statistic, so it returns false whenever
    no such argument exists, in particular whenever the statistic itself is
    not bound. *)
Theorem training_flag_decides_mutability training_op flag stat i s :
  training_op ∈ getTrainingOps →
  flag ∈ [ "training"; "train"; "use_input_stats" ] →
  declared_name training_op flag →
  stat ∈ [ "running_mean"; "running_var" ] →
  argumentIndexWithName training_op stat = Some i →
  reachable training_op s →
  (∀ value, answer (addArgumentValue flag value) s = Ok tt)
  ∧ (value_map_ s !! flag = None →
     answer (is_mutable_name stat) s = Ok true)
  ∧ (∀ value, value_map_ s !! flag = Some value → toBool value = true →
              answer (is_mutable_name stat) s = Ok true)
  ∧ (∀ value, value_map_ s !! flag = Some value → toBool value = false →
              answer (is_mutable_name stat) s = Ok (written_alias s i)
              ∧ (bound_value s i = None →
                 answer (is_mutable_name stat) s = Ok false)).
Proof.
  intros Hop Hflag Hdecl Hstat Hi Hreach.
  pose proof (reachable_settled _ _ Hreach) as Hs.
  pose proof (proj1 Hs) as Hsch.
  pose proof (argumentIndexWithName_lt _ _ _ Hi) as Hlt.
  pose proof (running_stat_index _ _ _ Hstat Hi) as Hstat_i.
  assert (answer (is_mutable_name stat) s = Ok (mutable_via s i)) as Hanswer.
  { unfold answer. rewrite is_mutable_name_run, Hsch, Hi.
    rewrite is_mutable_arg_input by by rewrite Hsch.
    simpl. f_equal. by apply (settled_mutable_input training_op). }
  assert (∀ k, mutable_through s k
               = if running_stat training_op k
                 then flag_on s "training" || flag_on s "train"
                      || flag_on s "use_input_stats"
                 else schema_is_mutable training_op (in_ k)) as Hthrough.
  { intros k. rewrite mutable_through_training_op, Hsch; [done |].
    rewrite Hsch. by apply is_training_op_table. }
  split; [| split; [| split]].
  - intros value. unfold answer. rewrite addArgumentValue_run, Hsch.
    rewrite bool_decide_eq_true_2; [done |].
    by apply argumentIndexWithName_declared.
  - intros Hnone.
    apply (is_mutable_name_unbound_flag training_op s flag stat); try done.
    apply argumentIndexWithName_declared. by rewrite Hi.
  - intros value Hv Htrue. rewrite Hanswer. f_equal.
    apply mutable_via_true. exists i. rewrite Hsch.
    split; [done | split; [by left |]].
    rewrite Hthrough, Hstat_i.
    by rewrite (flags_of_training_op training_op flag s value).
  - intros value Hv Hfalse.
    assert (mutable_via s i = written_alias s i) as Heq.
    { unfold mutable_via, written_alias. apply existsb_pointwise_in.
      intros k _. rewrite Hthrough, Hsch.
      rewrite (flags_of_training_op training_op flag s value) by done.
      rewrite Hfalse.
      destruct (running_stat training_op k) eqn:Hk; simpl.
      - by rewrite andb_false_r.
      - rewrite bool_decide_eq_false_2; [done |]. intros <-. congruence. }
    rewrite Hanswer, Heq. split; [done |].
    intros Hunbound. f_equal. apply not_true_is_false.
    unfold written_alias.
    intros (k & _ & Hk)%existsb_exists.
    rewrite (values_alias_unbound s i k Hunbound) in Hk.
    by rewrite andb_false_r in Hk.
Qed.

End TrainingFlag.

(** * Runs on the reference implementation *)

#[local] Existing Instance Reference.services.

(** C2: for [op(Tensor(a!) x, Tensor y) -> Tensor(a!)] with no value
    bound, [is_mutable] on [x] is true, [may_alias] between the return and
    [x] is true, and [may_alias] between the return and [y] is false; the
    answers are the same on a new object and when the three queries are
    made one after the other. *)
Theorem op_schema_answers :
  value_map_ (mkSchemaInfo Reference.op_schema) = ∅
  ∧ answer (is_mutable_name "x") (mkSchemaInfo Reference.op_schema)
    = Ok true
  ∧ answer (is_mutable_arg (in_ 0)) (mkSchemaInfo Reference.op_schema)
    = Ok true
  ∧ answer (may_alias (out_ 0) (in_ 0)) (mkSchemaInfo Reference.op_schema)
    = Ok true
  ∧ answer (may_alias (out_ 0) (in_ 1)) (mkSchemaInfo Reference.op_schema)
    = Ok false
  ∧ answer (may_alias (out_ 0) (in_ 1))
      (after (may_alias (out_ 0) (in_ 0))
         (after (is_mutable_name "x") (mkSchemaInfo Reference.op_schema)))
    = Ok false.
Proof. vm_compute. repeat split. Qed.

(** ** C1 on [aten::batch_norm] and on [aten::native_batch_norm.out] *)

(** [training] is bound to false, and [running_mean] and the written
    argument [out] are bound to tensors on one storage *)
Definition stat_shares_out : SchemaInfo :=
  perform (call_addArgumentValue "out" (Reference.tensor 1))
    (perform (call_addArgumentValue "running_mean" (Reference.tensor 1))
       (perform (call_addArgumentValue "training" (Reference.boolean false))
          (mkSchemaInfo native_batch_norm_out_schema))).

(** The flag is bound to false and [is_mutable] on [running_mean] is true:
    its alias set holds [out], which the schema declares written. *)
Lemma flag_false_and_still_mutable :
  value_map_ stat_shares_out !! "training" = Some (Reference.boolean false)
  ∧ toBool (Reference.boolean false) = false
  ∧ bound_value stat_shares_out 3 = Some (Reference.tensor 1)
  ∧ bound_value stat_shares_out 8 = Some (Reference.tensor 1)
  ∧ schema_is_mutable native_batch_norm_out_schema (in_ 8) = true
  ∧ answer (is_mutable_name "running_mean") stat_shares_out = Ok true.
Proof. vm_compute. repeat split. Qed.

(** [training] is bound to false on a new object *)
Definition not_training : SchemaInfo :=
  perform (call_addArgumentValue "training" (Reference.boolean false))
    (mkSchemaInfo batch_norm_schema).

Lemma training_flag_decides_mutability_witness :
  answer (is_mutable_name "running_mean") not_training = Ok false
  ∧ answer (is_mutable_name "running_mean") (mkSchemaInfo batch_norm_schema)
    = Ok true
  ∧ answer (is_mutable_name "running_mean") stat_shares_out
    = Ok (written_alias stat_shares_out 3).
Proof.
  split; [| split].
  - destruct (training_flag_decides_mutability batch_norm_schema "training"
                "running_mean" 3 not_training)
      as (_ & _ & _ & Hfalse).
    + unfold getTrainingOps. left.
    + left.
    + unfold declared_name. vm_compute. repeat constructor.
    + left.
    + vm_compute. reflexivity.
    + apply reachable_call. apply reachable_new.
    + apply (Hfalse (Reference.boolean false)).
      * vm_compute. reflexivity.
      * vm_compute. reflexivity.
      * vm_compute. reflexivity.
  - destruct (training_flag_decides_mutability batch_norm_schema "training"
                "running_mean" 3 (mkSchemaInfo batch_norm_schema))
      as (_ & Hunbound & _).
    + unfold getTrainingOps. left.
    + left.
    + unfold declared_name. vm_compute. repeat constructor.
    + left.
    + vm_compute. reflexivity.
    + apply reachable_new.
    + apply Hunbound. vm_compute. reflexivity.
  - destruct (training_flag_decides_mutability native_batch_norm_out_schema
                "training" "running_mean" 3 stat_shares_out)
      as (_ & _ & _ & Hfalse).
    + unfold getTrainingOps. do 6 right. left.
    + left.
    + unfold declared_name. vm_compute. repeat constructor.
    + left.
    + vm_compute. reflexivity.
    + do 3 apply reachable_call. apply reachable_new.
    + apply (Hfalse (Reference.boolean false)).
      * vm_compute. reflexivity.
      * vm_compute. reflexivity.
Defined.

(** ** C3 on the schema of the comment in [generateAliasMaps] *)

(** [a] is bound to a tensor and [c] to a list that holds it; [may_alias]
    is asked; then [c] is bound again, to a list that does not hold it. *)
Definition held_then_rebound : SchemaInfo :=
  after (addArgumentValue "c" (Reference.tensor_list 8 [ 2 ]))
    (after (may_alias (in_ 0) (in_ 1))
       (after (addArgumentValue "c" (Reference.tensor_list 7 [ 1 ]))
          (after (addArgumentValue "a" (Reference.tensor 1))
             (mkSchemaInfo Reference.test_schema)))).

(** the same final values, bound on a new object *)
Definition never_held : SchemaInfo :=
  after (addArgumentValue "c" (Reference.tensor_list 8 [ 2 ]))
    (after (addArgumentValue "a" (Reference.tensor 1))
       (mkSchemaInfo Reference.test_schema)).

(** Two objects with the same schema and the same values, both stale: after
    regeneration the one with the history has [a] among its wildcards, the
    other has not, and [may_alias] between [a] and the wildcard [b] answers
    differently. *)
Lemma regeneration_keeps_earlier_wildcards :
  schema_ held_then_rebound = schema_ never_held
  ∧ value_map_ held_then_rebound = value_map_ never_held
  ∧ container_set_ held_then_rebound = container_set_ never_held
  ∧ alias_maps_current_ held_then_rebound = false
  ∧ alias_maps_current_ never_held = false
  ∧ bool_decide (in_ 0 ∈ wildcard_set_ (generateAliasMaps held_then_rebound))
    = true
  ∧ bool_decide (in_ 0 ∈ wildcard_set_ (generateAliasMaps never_held))
    = false
  ∧ answer (may_alias (in_ 0) (in_ 1)) held_then_rebound = Ok true
  ∧ answer (may_alias (in_ 0) (in_ 1)) never_held = Ok false.
Proof. vm_compute. repeat split. Qed.

Lemma regeneration_depends_on_witness :
  input_alias_map_ (generateAliasMaps held_then_rebound)
  = input_alias_map_ (generateAliasMaps never_held)
  ∧ output_alias_map_ (generateAliasMaps held_then_rebound)
    = output_alias_map_ (generateAliasMaps never_held)
  ∧ wildcard_set_ held_then_rebound
    ⊆ wildcard_set_ (generateAliasMaps held_then_rebound)
  ∧ (wildcard_set_ held_then_rebound = wildcard_set_ never_held →
     wildcard_set_ (generateAliasMaps held_then_rebound)
     = wildcard_set_ (generateAliasMaps never_held)).
Proof.
  apply (regeneration_depends_on held_then_rebound never_held).
  - vm_compute. reflexivity.
  - vm_compute. reflexivity.
Defined.

(** ** C4 on [aten::dropout] *)

(** [may_alias] of a reference with itself is false for the argument [p],
    a [float], and for the return, which no argument is declared to
    alias. *)
Lemma may_alias_self_can_be_false :
  answer (may_alias (in_ 1) (in_ 1)) (mkSchemaInfo dropout_schema) = Ok false
  ∧ answer (may_alias (out_ 0) (out_ 0)) (mkSchemaInfo dropout_schema)
    = Ok false.
Proof. vm_compute. repeat split. Qed.

Lemma may_alias_self_witness :
  answer (may_alias (in_ 0) (in_ 0)) (mkSchemaInfo dropout_schema) = Ok true
  ∧ answer (may_alias (out_ 0) (out_ 0)) (mkSchemaInfo Reference.op_schema)
    = Ok true.
Proof.
  split.
  - rewrite (may_alias_self dropout_schema _ (in_ 0));
      [vm_compute; reflexivity | apply reachable_new |].
    vm_compute. lia.
  - rewrite (may_alias_self Reference.op_schema _ (out_ 0));
      [vm_compute; reflexivity | apply reachable_new |].
    vm_compute. lia.
Defined.

(** ** C5 on [op(Tensor(a!) x, Tensor y) -> Tensor(a!)] *)

Lemma may_alias_symmetric_witness :
  answer (may_alias (in_ 0) (out_ 0)) (mkSchemaInfo Reference.op_schema)
  = answer (may_alias (out_ 0) (in_ 0)) (mkSchemaInfo Reference.op_schema)
  ∧ answer (may_alias (out_ 0) (in_ 0))
      (after (may_alias (in_ 0) (out_ 0)) (mkSchemaInfo Reference.op_schema))
    = answer (may_alias (in_ 0) (out_ 0)) (mkSchemaInfo Reference.op_schema).
Proof.
  apply (may_alias_symmetric Reference.op_schema
           (mkSchemaInfo Reference.op_schema) (in_ 0) (out_ 0)).
  - apply reachable_new.
  - vm_compute. lia.
  - vm_compute. lia.
  - vm_compute. reflexivity.
  - vm_compute. reflexivity.
Defined.

(** ** C6 on [aten::dropout] and on [op] *)

(** [input] and [p] are bound to the same tensor *)
Definition input_and_p_share : SchemaInfo :=
  after (addArgumentValue "p" (Reference.tensor 1))
    (after (addArgumentValue "input" (Reference.tensor 1))
       (mkSchemaInfo dropout_schema)).

(** The two arguments are bound to values that alias each other, and
    [may_alias] is false: a [Tensor] and a [float] cannot alias. *)
Lemma may_alias_false_for_aliasing_values :
  bound_value input_and_p_share 0 = Some (Reference.tensor 1)
  ∧ bound_value input_and_p_share 1 = Some (Reference.tensor 1)
  ∧ isAliasOf (Reference.tensor 1) (Reference.tensor 1) = true
  ∧ answer (may_alias (in_ 0) (in_ 1)) input_and_p_share = Ok false.
Proof. vm_compute. repeat split. Qed.

(** [x] is bound, [may_alias] is asked (the alias maps are computed), and
    then [y] is bound to a tensor on the storage of [x] *)
Definition x_then_y_share : SchemaInfo :=
  perform (call_addArgumentValue "y" (Reference.tensor 1))
    (perform (call_may_alias (in_ 1) (in_ 0))
       (perform (call_addArgumentValue "x" (Reference.tensor 1))
          (mkSchemaInfo Reference.op_schema))).

Lemma may_alias_bound_aliases_witness :
  (answer (may_alias (in_ 0) (in_ 1)) x_then_y_share = Ok true
   ∧ (schema_may_alias Reference.op_schema (in_ 0) (in_ 1) = false →
      alias_maps_current_ (after (may_alias (in_ 0) (in_ 1)) x_then_y_share)
      = true))
  ∧ answer (may_alias (in_ 0) (in_ 1)) input_and_p_share
    = Ok (schema_may_alias dropout_schema (in_ 0) (in_ 1))
  ∧ after (may_alias (in_ 0) (in_ 1)) input_and_p_share = input_and_p_share.
Proof.
  split.
  - apply (proj1 (may_alias_bound_aliases Reference.op_schema
                    x_then_y_share 0 1
                    ltac:(do 3 apply reachable_call; apply reachable_new)
                    ltac:(vm_compute; lia) ltac:(vm_compute; lia)))
      with (vi := Reference.tensor 1) (vj := Reference.tensor 1).
    + vm_compute. reflexivity.
    + vm_compute. reflexivity.
    + vm_compute. reflexivity.
    + vm_compute. reflexivity.
    + vm_compute. reflexivity.
  - apply (proj2 (may_alias_bound_aliases dropout_schema
                    input_and_p_share 0 1
                    ltac:(apply (reachable_call _
                                   (call_addArgumentValue "p"
                                      (Reference.tensor 1)));
                          apply (reachable_call _
                                   (call_addArgumentValue "input"
                                      (Reference.tensor 1)));
                          apply reachable_new)
                    ltac:(vm_compute; lia) ltac:(vm_compute; lia))).
    vm_compute. reflexivity.
Defined.

(** ** C7 on a schema that repeats alias-set names *)

Definition annotated (n : string) (names : gset string) (wildcard : bool)
  : Argument :=
  mkArgument n TensorType (Some (mkAliasInfo false names wildcard)) false.

(** [shared(Tensor(a) x, Tensor(a) y, Tensor(a) z)
      -> (Tensor(b| * ), Tensor(b))]: both [b] and the wildcard are in the
    after-set of the first return *)
Definition shared_schema : FunctionSchema :=
  mkFunctionSchema "shared" ""
    [ annotated "x" {[ "alias::a" ]} false;
      annotated "y" {[ "alias::a" ]} false;
      annotated "z" {[ "alias::a" ]} false ]
    [ annotated "" ({[ "alias::b" ]} ∪ {[ "alias::*" ]}) true;
      annotated "" {[ "alias::b" ]} false ].

(** The name [a] is in three after-sets of the argument list and is warned
    about twice.  The name [b] is in two after-sets of the return list, one
    of them wildcard-after, and the other return stays out of the wildcard
    set. *)
Lemma repeated_names_counterexample :
  occurrences "alias::a" (arguments shared_schema) = 3
  ∧ (construct shared_schema).2 = [ "alias::a"; "alias::a" ]
  ∧ (mentions "alias::b" <$> returns shared_schema) = [ true; true ]
  ∧ bool_decide (out_ 1 ∈ wildcard_set_ (mkSchemaInfo shared_schema)) = false.
Proof. vm_compute. repeat split. Qed.

Lemma duplicate_names_become_wildcards_witness :
  (∀ t' k arg,
     getCorrectList shared_schema t' !! k = Some arg →
     mentions "alias::a" arg = true →
     mkSchemaArgument t' k ∈ wildcard_set_ (mkSchemaInfo shared_schema))
  ∧ warnings_about "alias::a" (construct shared_schema).2
    = (occurrences "alias::a" (arguments shared_schema) - 1)
      + (occurrences "alias::a" (returns shared_schema) - 1).
Proof.
  apply (duplicate_names_become_wildcards shared_schema "alias::a" input 0 1
           (annotated "x" {[ "alias::a" ]} false)
           (annotated "y" {[ "alias::a" ]} false)).
  - lia.
  - reflexivity.
  - vm_compute. reflexivity.
  - reflexivity.
  - vm_compute. reflexivity.
Defined.

(** ** C8 on [aten::dropout] *)

Definition dropout_not_training : SchemaInfo :=
  after (addArgumentValue "train" (Reference.boolean false))
    (mkSchemaInfo dropout_schema).

Lemma is_nondeterministic_cases_witness :
  is_nondeterministic dropout_not_training = false
  ∧ is_nondeterministic (mkSchemaInfo dropout_schema)
    = tagged_nondeterministic (schema_ (mkSchemaInfo dropout_schema)).
Proof.
  split.
  - apply (proj1 (is_nondeterministic_cases dropout_not_training)).
    + vm_compute. reflexivity.
    + exists (Reference.boolean false). split; vm_compute; reflexivity.
  - apply (proj2 (is_nondeterministic_cases (mkSchemaInfo dropout_schema))).
    right. left. vm_compute. reflexivity.
Defined.

(** ** C10 on [op] with [x] and [y] bound to one storage *)

Lemma input_alias_map_reflexive_symmetric_witness :
  length (input_alias_map_ (generateAliasMaps x_then_y_share))
  = length (arguments (schema_ x_then_y_share))
  ∧ 0 ∈ alias_set (input_alias_map_ (generateAliasMaps x_then_y_share)) 0
  ∧ (1 ∈ alias_set (input_alias_map_ (generateAliasMaps x_then_y_share)) 0
     ↔ 0 ∈ alias_set (input_alias_map_ (generateAliasMaps x_then_y_share)) 1).
Proof.
  apply (input_alias_map_reflexive_symmetric x_then_y_share 0 1).
  - vm_compute. lia.
  - vm_compute. lia.
Defined.

(** ** The further properties on concrete schemas *)

(** [a] and the declared wildcard [b] are bound to tensors on one
    storage *)
Definition a_and_b_share : SchemaInfo :=
  perform (call_addArgumentValue "b" (Reference.tensor 1))
    (perform (call_addArgumentValue "a" (Reference.tensor 1))
       (mkSchemaInfo Reference.test_schema)).

Lemma aliasing_a_wildcard_makes_a_wildcard_witness :
  in_ 0 ∈ wildcard_set_ (generateAliasMaps a_and_b_share)
  ∧ in_ 1 ∈ wildcard_set_ (generateAliasMaps a_and_b_share).
Proof.
  apply (aliasing_a_wildcard_makes_a_wildcard a_and_b_share 0 1).
  - vm_compute. lia.
  - vm_compute. reflexivity.
  - right. apply (bool_decide_unpack _). vm_compute. exact I.
Defined.

(** [a] is bound to a tensor and [c] to a list that holds it *)
Definition a_held_by_c : SchemaInfo :=
  perform (call_addArgumentValue "c" (Reference.tensor_list 7 [ 1 ]))
    (perform (call_addArgumentValue "a" (Reference.tensor 1))
       (mkSchemaInfo Reference.test_schema)).

Lemma held_value_becomes_wildcard_witness :
  in_ 0 ∈ wildcard_set_ (generateAliasMaps a_held_by_c).
Proof.
  apply (held_value_becomes_wildcard a_held_by_c 2 0
           (Reference.tensor_list 7 [ 1 ]) (Reference.tensor 1)).
  - vm_compute. lia.
  - vm_compute. lia.
  - lia.
  - vm_compute. reflexivity.
  - vm_compute. reflexivity.
  - vm_compute. reflexivity.
  - vm_compute. reflexivity.
Defined.

(** [wild(Tensor( * ) x) -> Tensor( * )] *)
Definition wild_schema : FunctionSchema :=
  mkFunctionSchema "wild" ""
    [ annotated "x" {[ "alias::*" ]} true ]
    [ annotated "" {[ "alias::*" ]} true ].

Lemma return_of_a_wildcard_is_a_wildcard_witness :
  out_ 0 ∈ wildcard_set_ (generateAliasMaps (mkSchemaInfo wild_schema)).
Proof.
  apply (return_of_a_wildcard_is_a_wildcard (mkSchemaInfo wild_schema) 0 0).
  - vm_compute. lia.
  - vm_compute. lia.
  - vm_compute. reflexivity.
  - apply (bool_decide_unpack _). vm_compute. exact I.
Defined.

Lemma queries_do_not_change_answers_witness :
  answer (may_alias (in_ 0) (in_ 1)) (perform call_is_mutable x_then_y_share)
  = answer (may_alias (in_ 0) (in_ 1)) x_then_y_share.
Proof.
  apply (queries_do_not_change_answers (call_may_alias (in_ 0) (in_ 1))
           call_is_mutable).
  - reflexivity.
  - reflexivity.
Defined.


Lemma is_mutable_argument_exact_witness :
  answer (is_mutable_arg (in_ 1)) x_then_y_share
  = Ok (mutable_via x_then_y_share 1)
  ∧ ∀ n, argumentIndexWithName Reference.op_schema n = Some 1 →
         answer (is_mutable_name n) x_then_y_share
         = Ok (mutable_via x_then_y_share 1).
Proof.
  apply (is_mutable_argument_exact Reference.op_schema x_then_y_share 1).
  - do 3 apply reachable_call. apply reachable_new.
  - vm_compute. lia.
Defined.

Lemma is_mutable_return_exact_witness :
  answer (is_mutable_arg (out_ 0)) x_then_y_share
  = Ok (existsb
          (λ i, schema_may_alias Reference.op_schema (in_ i) (out_ 0)
                && mutable_via x_then_y_share i)
          (seq 0 (length (arguments Reference.op_schema)))).
Proof.
  apply (is_mutable_return_exact Reference.op_schema x_then_y_share 0).
  - do 3 apply reachable_call. apply reachable_new.
  - vm_compute. lia.
Defined.

Lemma is_mutable_static_without_values_witness :
  answer (is_mutable_arg (in_ 0)) (mkSchemaInfo Reference.op_schema)
  = Ok (schema_is_mutable Reference.op_schema (in_ 0)).
Proof.
  apply (is_mutable_static_without_values Reference.op_schema).
  - apply reachable_new.
  - vm_compute. reflexivity.
  - vm_compute. reflexivity.
  - vm_compute. lia.
Defined.

Lemma may_alias_arguments_exact_witness :
  answer (may_alias (in_ 0) (in_ 1)) x_then_y_share
  = Ok (schema_may_alias Reference.op_schema (in_ 0) (in_ 1)
        || types_can_alias x_then_y_share (in_ 0) (in_ 1)
           && (bool_decide (in_ 0 ∈ wildcard_set_ (refresh x_then_y_share))
               && bool_decide (in_ 1 ∈ wildcard_set_ (refresh x_then_y_share))
               || bool_decide (0 = 1)
               || values_alias x_then_y_share (0 `min` 1) (0 `max` 1))).
Proof.
  apply (may_alias_arguments_exact Reference.op_schema x_then_y_share 0 1).
  - do 3 apply reachable_call. apply reachable_new.
  - vm_compute. lia.
  - vm_compute. lia.
Defined.

Lemma may_alias_argument_return_exact_witness :
  answer (may_alias (in_ 1) (out_ 0)) x_then_y_share
  = Ok (schema_may_alias Reference.op_schema (in_ 1) (out_ 0)
        || types_can_alias x_then_y_share (in_ 1) (out_ 0)
           && (bool_decide (in_ 1 ∈ wildcard_set_ (refresh x_then_y_share))
               && bool_decide (out_ 0 ∈ wildcard_set_ (refresh x_then_y_share))
               || existsb
                    (λ k, schema_may_alias Reference.op_schema (in_ k) (out_ 0)
                          && (bool_decide (k = 1)
                              || values_alias x_then_y_share
                                   (k `min` 1) (k `max` 1)))
                    (seq 0 (length (arguments Reference.op_schema))))).
Proof.
  apply (may_alias_argument_return_exact Reference.op_schema
           x_then_y_share 1 0).
  - do 3 apply reachable_call. apply reachable_new.
  - vm_compute. lia.
  - vm_compute. lia.
Defined.

Lemma held_value_may_be_contained_witness :
  in_ 0 ∈ wildcard_set_ (refresh a_held_by_c)
  ∧ (∀ bidirectional,
       answer (may_contain_alias (in_ 2) (in_ 0) bidirectional) a_held_by_c
       = Ok true)
  ∧ answer (may_contain_alias (in_ 0) (in_ 2) true) a_held_by_c = Ok true.
Proof.
  apply (held_value_may_be_contained Reference.test_schema a_held_by_c 2 0
           (Reference.tensor_list 7 [ 1 ]) (Reference.tensor 1)).
  - do 2 apply reachable_call. apply reachable_new.
  - vm_compute. lia.
  - vm_compute. lia.
  - lia.
  - vm_compute. reflexivity.
  - vm_compute. reflexivity.
  - vm_compute. reflexivity.
  - vm_compute. reflexivity.
  - apply (bool_decide_unpack _). vm_compute. exact I.
  - vm_compute. reflexivity.
Defined.

Lemma addArgumentValues_binds_positions_witness :
  answer (addArgumentValues [ None; Some (Reference.tensor 1) ])
    (mkSchemaInfo Reference.op_schema) = Ok tt
  ∧ (∀ i, i < length (arguments (schema_ (mkSchemaInfo Reference.op_schema))) →
          bound_value
            (after (addArgumentValues [ None; Some (Reference.tensor 1) ])
               (mkSchemaInfo Reference.op_schema)) i
          = match positional [ None; Some (Reference.tensor 1) ] i with
            | Some v => Some v
            | None => bound_value (mkSchemaInfo Reference.op_schema) i
            end)
  ∧ (∀ n, n ∉ arg_name
              <$> arguments (schema_ (mkSchemaInfo Reference.op_schema)) →
          value_map_
            (after (addArgumentValues [ None; Some (Reference.tensor 1) ])
               (mkSchemaInfo Reference.op_schema)) !! n
          = value_map_ (mkSchemaInfo Reference.op_schema) !! n)
  ∧ alias_maps_current_
      (after (addArgumentValues [ None; Some (Reference.tensor 1) ])
         (mkSchemaInfo Reference.op_schema))
    = (if existsb (λ v, bool_decide (is_Some v))
            [ None; Some (Reference.tensor 1) ]
       then false
       else alias_maps_current_ (mkSchemaInfo Reference.op_schema)).
Proof.
  apply (addArgumentValues_binds_positions
           (mkSchemaInfo Reference.op_schema)
           [ None; Some (Reference.tensor 1) ]).
  - apply (bool_decide_unpack _). vm_compute. exact I.
  - vm_compute. lia.
Defined.

Lemma addArgumentValues_map_binds_witness :
  answer (addArgumentValues_map {[ "y" := Reference.tensor 1 ]})
    (mkSchemaInfo Reference.op_schema) = Ok tt
  ∧ value_map_
      (after (addArgumentValues_map {[ "y" := Reference.tensor 1 ]})
         (mkSchemaInfo Reference.op_schema))
    = {[ "y" := Reference.tensor 1 ]}
      ∪ value_map_ (mkSchemaInfo Reference.op_schema)
  ∧ (({[ "y" := Reference.tensor 1 ]} : gmap string IValue) = ∅ →
     after (addArgumentValues_map {[ "y" := Reference.tensor 1 ]})
       (mkSchemaInfo Reference.op_schema)
     = mkSchemaInfo Reference.op_schema)
  ∧ (({[ "y" := Reference.tensor 1 ]} : gmap string IValue) ≠ ∅ →
     alias_maps_current_
       (after (addArgumentValues_map {[ "y" := Reference.tensor 1 ]})
          (mkSchemaInfo Reference.op_schema))
     = false).
Proof.
  apply (addArgumentValues_map_binds (mkSchemaInfo Reference.op_schema)
           {[ "y" := Reference.tensor 1 ]}).
  intros n [v [<- _]%lookup_singleton_Some]. unfold declared_name.
  apply (bool_decide_unpack _). vm_compute. exact I.
Defined.

(** [a] is held by the list bound to [c], and [may_alias] has been asked *)
Definition held_and_asked : SchemaInfo :=
  perform (call_may_alias (in_ 0) (in_ 1)) a_held_by_c.

(** the two orders agree, and the answer stays yes after [c] is bound to
    a list that does not hold [a] *)
Lemma may_contain_alias_symmetric_and_kept_witness :
  answer (may_contain_alias (in_ 2) (in_ 0) true) held_and_asked
  = answer (may_contain_alias (in_ 0) (in_ 2) true) held_and_asked
  ∧ answer (may_contain_alias (in_ 2) (in_ 0) false)
      (perform_all
         [ call_addArgumentValue "c" (Reference.tensor_list 8 [ 2 ]) ]
         held_and_asked)
    = Ok true.
Proof.
  destruct (may_contain_alias_symmetric_and_kept Reference.test_schema
              held_and_asked (in_ 2) (in_ 0)) as [Hsym Hkept].
  - do 3 apply reachable_call. apply reachable_new.
  - unfold valid_ref. vm_compute. lia.
  - unfold valid_ref. vm_compute. lia.
  - split.
    + apply Hsym.
      * vm_compute. reflexivity.
      * vm_compute. reflexivity.
      * vm_compute. reflexivity.
    + apply Hkept. vm_compute. reflexivity.
Defined.
